(** * Locks: a promise-based wrapper around the host's lock manager

    Shallow embedding of [src/index.ts] (class [Locks]) together with the
    part of the host environment the class drives: promises, abort signals
    and the lock manager ([navigator.locks]).

    The program is event driven.  A [World] gathers every object the class
    and the host share; each entry point of the class and each thing the
    environment can do (a timer elapsing, the caller aborting a controller,
    a user callback settling, a suspended continuation being resumed) is
    one atomic transition of the world, as in the single-threaded
    run-to-completion model of the source language.  A call of [release]
    only resolves [waitDone]: the code after [await waitDone] runs in a
    later job, the transition [ContinuationResumes], and it is there that
    the lock manager frees the lock and serves the waiters.

    Scope.  [request], [release], [find], [list] and [status] are embedded
    statement by statement.  The lock name is always given (the default,
    a random UUID, is just some name), an omitted [opt] is [no_options]
    (both give the timeout 10000), and a delay is an integer number of
    milliseconds; [AbortSignal.timeout] throws for a delay outside the
    unsigned 32-bit range, and [request] then fails on line 38.  [request]
    is an async function that returns [waitLock]; the promise the caller
    gets follows [waitLock] or is rejected with what the body throws, and
    the two are not told apart.  [query], a bare
    call of the lock manager with an empty arrow function, is embedded as
    a call of its own and is no transition: it is studied from a reachable
    world, with the return of its arrow function as [query_returns]. *)

From Stdlib Require Import String Ascii ZArith List Bool Lia.
From stdpp Require Import base option list gmap.

Local Open Scope Z_scope.
Local Open Scope nat_scope.
Local Open Scope string_scope.
Local Open Scope list_scope.

(** ** Data model *)

Inductive LockMode := shared | exclusive.

Definition LockMode_eqb (a b : LockMode) : bool :=
  match a, b with
  | shared, shared | exclusive, exclusive => true
  | _, _ => false
  end.

(** The [Lock] object handed to the grant continuation.  Objects have an
    identity; a request is granted at most one [Lock], so the number of the
    request serves as the identity of its lock. *)
Record Lock := mkLock {
  lock_id : nat;
  lock_name : string;
  lock_mode : LockMode
}.

(** [LockInfo], the entries of a snapshot. *)
Record LockInfo := mkLockInfo {
  info_name : string;
  info_mode : LockMode;
  info_clientId : string
}.

(** [LockManagerSnapshot]: both members are optional in the interface. *)
Record Snapshot := mkSnapshot {
  snap_held : option (list LockInfo);
  snap_pending : option (list LockInfo)
}.

(** The values that flow through promises and arguments. *)
Inductive value :=
| VUndefined
| VNull
| VBool (b : bool)
| VString (s : string)
| VLock (l : Lock)
| VDOMException (name : string)
| VError (message : string)
| VEvent (type : string)
| VRangeError.

(** [v.name] where the source reads it ([err.name], [name?.name]). *)
Definition get_name (v : value) : option string :=
  match v with
  | VLock l => Some (lock_name l)
  | VDOMException n => Some n
  | VError _ => Some "Error"
  | VRangeError => Some "RangeError"
  | _ => None
  end.

Definition lock_value (l : option Lock) : value :=
  match l with Some l => VLock l | None => VNull end.

(** A promise settles once; later calls of its resolvers are ignored. *)
Inductive promise := Pending | Fulfilled (v : value) | Rejected (v : value).

Definition resolve (v : value) (p : promise) : promise :=
  match p with Pending => Fulfilled v | _ => p end.

Definition reject (v : value) (p : promise) : promise :=
  match p with Pending => Rejected v | _ => p end.

(** The [opt] argument of [request]. *)
Record Options := mkOptions {
  opt_mode : option LockMode;
  opt_ifAvailable : option bool;
  opt_steal : option bool;
  opt_signal : option nat;
  opt_timeout : option Z
}.

Definition no_options : Options := mkOptions None None None None None.

(** Abort signals.  Listeners are closures in the source; here they are
    the three closures that are ever attached, by name. *)
Inductive Listener :=
| AbortInner (ctrl : nat)      (* () => innerSigbalCtrl.abort() *)
| ForwardToInner (ctrl : nat)  (* reson => innerSigbalCtrl.abort(reson) *)
| HostAbort (rid : nat).       (* the lock manager's abort steps for a request *)

Inductive SignalKind :=
| CallerController    (* signal of an AbortController the caller made *)
| InnerController     (* signal of [innerSigbalCtrl] *)
| Timer (ms : Z).     (* the code has called AbortSignal.timeout(ms) *)

Record AbortSignal := mkSignal {
  sig_kind : SignalKind;
  sig_reason : option value;      (* [Some r] once aborted *)
  sig_listeners : list Listener
}.

(** The async arrow function handed to [manager.request] is a coroutine:
    it is either not started, suspended at one of its two awaits, or done. *)
Inductive Cont :=
| NotInvoked
| AwaitCallback (lock : option Lock)   (* at [await callback(lock)] *)
| AwaitDone (lock : option Lock)       (* at [await waitDone] *)
| Returned.

(** What one call of [Locks.request] allocates. *)
Record Session := mkSession {
  s_name : string;
  s_callback : bool;       (* was [callback] supplied? *)
  waitLock : promise;      (* the promise [request] returns *)
  cont : Cont;             (* the grant continuation *)
  released : promise       (* the promise of [manager.request] *)
}.

(** A queued request of the lock manager. *)
Record Request := mkRequest {
  rq_id : nat;
  rq_name : string;
  rq_mode : LockMode
}.

Record World := mkWorld {
  held : list Lock;              (* lock manager: held locks *)
  queue : list Request;          (* lock manager: pending requests, by arrival *)
  signals : list AbortSignal;    (* every abort signal created so far *)
  sessions : list Session;       (* one per call of [request] *)
  lockMap : gmap nat nat;        (* #lockMap: lock identity to its [done] *)
  console : list string;         (* console.warn output *)
  calls : list (nat * value);    (* user callback invocations *)
  woken : gset nat               (* the requests whose [waitDone] is resolved *)
}.

Definition init : World := mkWorld [] [] [] [] ∅ [] [] ∅.

Definition set_held (f : list Lock → list Lock) (w : World) : World :=
  mkWorld (f (held w)) (queue w) (signals w) (sessions w) (lockMap w) (console w) (calls w) (woken w).
Definition set_queue (f : list Request → list Request) (w : World) : World :=
  mkWorld (held w) (f (queue w)) (signals w) (sessions w) (lockMap w) (console w) (calls w) (woken w).
Definition set_signals (f : list AbortSignal → list AbortSignal) (w : World) : World :=
  mkWorld (held w) (queue w) (f (signals w)) (sessions w) (lockMap w) (console w) (calls w) (woken w).
Definition set_sessions (f : list Session → list Session) (w : World) : World :=
  mkWorld (held w) (queue w) (signals w) (f (sessions w)) (lockMap w) (console w) (calls w) (woken w).
Definition set_lockMap (f : gmap nat nat → gmap nat nat) (w : World) : World :=
  mkWorld (held w) (queue w) (signals w) (sessions w) (f (lockMap w)) (console w) (calls w) (woken w).
Definition set_console (f : list string → list string) (w : World) : World :=
  mkWorld (held w) (queue w) (signals w) (sessions w) (lockMap w) (f (console w)) (calls w) (woken w).
Definition set_calls (f : list (nat * value) → list (nat * value)) (w : World) : World :=
  mkWorld (held w) (queue w) (signals w) (sessions w) (lockMap w) (console w) (f (calls w)) (woken w).
Definition set_woken (f : gset nat → gset nat) (w : World) : World :=
  mkWorld (held w) (queue w) (signals w) (sessions w) (lockMap w) (console w) (calls w) (f (woken w)).

Definition set_waitLock (f : promise → promise) (s : Session) : Session :=
  mkSession (s_name s) (s_callback s) (f (waitLock s)) (cont s) (released s).
Definition set_cont (c : Cont) (s : Session) : Session :=
  mkSession (s_name s) (s_callback s) (waitLock s) c (released s).
Definition set_released (f : promise → promise) (s : Session) : Session :=
  mkSession (s_name s) (s_callback s) (waitLock s) (cont s) (f (released s)).

Definition update_session (rid : nat) (f : Session → Session) (w : World) : World :=
  set_sessions (alter f rid) w.

(** ** The closures of [request] *)

(** [getLock] and [rejectorLock], the resolvers of [waitLock]. *)
Definition getLock (rid : nat) (lock : option Lock) (w : World) : World :=
  update_session rid (set_waitLock (resolve (lock_value lock))) w.

Definition rejectorLock (rid : nat) (err : value) (w : World) : World :=
  update_session rid (set_waitLock (reject err)) w.

(** The grant continuation, up to its first await:
<<
    async lock => {
      getLock(lock)
      if (callback) return await callback(lock)
      const { promise: waitDone, resolve: done } = Promise.withResolvers()
      if (lock) this.#lockMap.set(lock, done)
      await waitDone
    }
>> *)
Definition on_grant (rid : nat) (lock : option Lock) (w : World) : World :=
  let w := getLock rid lock w in
  match sessions w !! rid with
  | None => w
  | Some s =>
    if s_callback s then
      update_session rid (set_cont (AwaitCallback lock))
        (set_calls (λ c, c ++ [(rid, lock_value lock)]) w)
    else
      let w := update_session rid (set_cont (AwaitDone lock)) w in
      match lock with
      | Some l => set_lockMap <[lock_id l := rid]> w
      | None => w
      end
  end.

Definition timeout_warning (name : string) : string :=
  String.append "lock " (String.append name " timeout").

(** The rejection handler:
<<
    .catch(err => {
      if (err.name === 'TimeoutError') console.warn(`lock ${name} timeout`)
      rejectorLock(err)
    })
>> *)
Definition on_catch (rid : nat) (err : value) (w : World) : World :=
  match sessions w !! rid with
  | None => w
  | Some s =>
    let w :=
      match get_name err with
      | Some n =>
        if String.eqb n "TimeoutError"
        then set_console (λ c, c ++ [timeout_warning (s_name s)]) w
        else w
      | None => w
      end in
    rejectorLock rid err w
  end.

(** ** The host: lock manager and abort signals *)

(** Modelled from the spec: the lock table of section 4.1, which the class
    obtains from [navigator.locks] and which is not part of [src/].  Held
    locks and the waiters, kept in arrival order, are the whole state; a
    waiter is granted when it is the first of its name and its mode is
    compatible with the holders of that name; a release, a cancellation or
    a steal re-scans the waiters of the name from the head and stops at the
    first one that cannot be granted.  The argument checks at the head of
    [manager_request] are those of the host interface the class calls. *)
Definition conflicts (name : string) (mode : LockMode) (h : list Lock) : bool :=
  existsb (λ l, String.eqb (lock_name l) name &&
                match mode with
                | exclusive => true
                | shared => LockMode_eqb (lock_mode l) exclusive
                end) h.

Definition lock_of (r : Request) : Lock := mkLock (rq_id r) (rq_name r) (rq_mode r).

(** Modelled from the spec: the move of a waiter to the holders (section
    4.1, "each granted waiter is moved from waiters to holders"); the grant
    continuation is then called with the new [Lock]. *)
Definition grant (r : Request) (w : World) : World :=
  on_grant (rq_id r) (Some (lock_of r))
    (set_held (λ h, h ++ [lock_of r])
       (set_queue (filter (λ q, rq_id q ≠ rq_id r)) w)).

(** Modelled from the spec: the scan of the waiters of [name] from head to
    tail, granting each compatible waiter and stopping at the first one
    that is not (section 4.1). *)
Fixpoint scan (name : string) (q : list Request) (w : World) : World :=
  match q with
  | [] => w
  | r :: q' =>
    if String.eqb (rq_name r) name then
      if conflicts name (rq_mode r) (held w) then w
      else scan name q' (grant r w)
    else scan name q' w
  end.

Definition process_queue (name : string) (w : World) : World :=
  scan name (queue w) w.

(** Settling the promise that [manager.request] returned.  A rejection runs
    the handler that [request] attached with [.catch]. *)
Definition resolve_released (rid : nat) (v : value) (w : World) : World :=
  update_session rid (set_released (resolve v)) w.

Definition reject_released (rid : nat) (err : value) (w : World) : World :=
  match sessions w !! rid with
  | Some s =>
    match released s with
    | Pending => on_catch rid err (update_session rid (set_released (reject err)) w)
    | _ => w
    end
  | None => w
  end.

(** Modelled from the spec: the release of a holder (sections 4.1 and 4.3).
    The promise of the grant continuation has settled: the lock it was
    given, if any, leaves the held set, the waiters of its name are
    scanned, and the outcome is passed on. *)
Definition settle (rid : nat) (lock : option Lock) (outcome : value + value)
    (w : World) : World :=
  let w :=
    match lock with
    | Some l =>
      process_queue (lock_name l)
        (set_held (filter (λ h, lock_id h ≠ lock_id l)) w)
    | None => w
    end in
  match outcome with
  | inl v => resolve_released rid v w
  | inr e => reject_released rid e w
  end.

(** Modelled from the spec: a steal evicts every holder of the name
    (section 4.1, case (c)); each evicted request sees its promise rejected
    with an AbortError. *)
Definition evict_lock (l : Lock) (w : World) : World :=
  reject_released (lock_id l) (VDOMException "AbortError")
    (set_held (filter (λ h, lock_id h ≠ lock_id l)) w).

Definition evict (name : string) (w : World) : World :=
  fold_left (λ w l, evict_lock l w) (filter (λ l, lock_name l = name) (held w)) w.

(** Modelled from the spec: cancellation of a request that is still queued
    (section 4.1); a request that is no longer queued is not affected. *)
Definition abort_request (rid : nat) (reason : value) (w : World) : World :=
  match List.find (λ r, Nat.eqb (rq_id r) rid) (queue w) with
  | Some r =>
    reject_released rid reason
      (process_queue (rq_name r) (set_queue (filter (λ r, rq_id r ≠ rid)) w))
  | None => w
  end.

Definition new_signal (k : SignalKind) (w : World) : nat * World :=
  (length (signals w), set_signals (λ l, l ++ [mkSignal k None []]) w).

Definition addEventListener (s : nat) (l : Listener) (w : World) : World :=
  set_signals
    (alter (λ sg, mkSignal (sig_kind sg) (sig_reason sg) (sig_listeners sg ++ [l])) s) w.

(** Aborting a signal: only the first abort counts; it records the reason
    and runs the listeners in the order they were added, each with the
    abort event as its argument.  A listener may abort another signal, so
    the definition recurses; [fuel] bounds the nesting. *)
Fixpoint signal_abort (fuel : nat) (s : nat) (reason : value) (w : World) : World :=
  match fuel with
  | O => w
  | S fuel =>
    match signals w !! s with
    | None => w
    | Some sg =>
      match sig_reason sg with
      | Some _ => w
      | None =>
        fold_left
          (λ w l,
             match l with
             | AbortInner c => signal_abort fuel c (VDOMException "AbortError") w
             | ForwardToInner c => signal_abort fuel c (VEvent "abort") w
             | HostAbort rid => abort_request rid reason w
             end)
          (sig_listeners sg)
          (set_signals
             (alter (λ sg, mkSignal (sig_kind sg) (Some reason) (sig_listeners sg)) s) w)
      end
    end
  end.

Definition abort_fuel (w : World) : nat := S (length (signals w)).

Definition starts_with_hyphen (name : string) : bool :=
  match name with
  | String c _ => Ascii.eqb c "-"%char
  | EmptyString => false
  end.

Definition not_supported : value := VDOMException "NotSupportedError".

(** Would a request arriving now be granted at once? *)
Definition grantable_now (name : string) (mode : LockMode) (w : World) : bool :=
  negb (existsb (λ r, String.eqb (rq_name r) name) (queue w))
  && negb (conflicts name mode (held w)).

(** The abort reason of the signal passed in the options, if it has one. *)
Definition aborted_reason (signal : option nat) (w : World) : option value :=
  match signal with
  | Some s =>
    match signals w !! s with
    | Some sg => sig_reason sg
    | None => None
    end
  | None => None
  end.

(** Modelled from the spec: [tryGrant] and enqueue (section 4.1), behind
    the argument checks of [navigator.locks.request]: a name that starts
    with a hyphen, [steal] with [ifAvailable], [steal] with a mode other
    than exclusive, and a signal with [steal] or [ifAvailable] are refused
    with a NotSupportedError; a signal that is already aborted rejects with
    its reason. *)
Definition manager_request (rid : nat) (name : string) (opt : Options)
    (w : World) : World :=
  let mode := default exclusive (opt_mode opt) in
  let ifAvailable := default false (opt_ifAvailable opt) in
  let steal := default false (opt_steal opt) in
  if starts_with_hyphen name then reject_released rid not_supported w
  else if steal && ifAvailable then reject_released rid not_supported w
  else if steal && negb (LockMode_eqb mode exclusive)
  then reject_released rid not_supported w
  else if bool_decide (is_Some (opt_signal opt)) && (steal || ifAvailable)
  then reject_released rid not_supported w
  else
    match aborted_reason (opt_signal opt) w with
    | Some reason => reject_released rid reason w
    | None =>
      let w :=
        match opt_signal opt with
        | Some s => addEventListener s (HostAbort rid) w
        | None => w
        end in
      let r := mkRequest rid name mode in
      if steal then process_queue name (set_queue (cons r) (evict name w))
      else if ifAvailable && negb (grantable_now name mode w)
      then on_grant rid None w
      else process_queue name (set_queue (λ q, q ++ [r]) w)
    end.

Definition client : string := "client".

(** Modelled from the spec: the snapshot of all held and pending requests
    (section 4.2, [list]); both lists are always present. *)
Definition manager_query (w : World) : Snapshot :=
  mkSnapshot
    (Some ((λ l, mkLockInfo (lock_name l) (lock_mode l) client) <$> held w))
    (Some ((λ r, mkLockInfo (rq_name r) (rq_mode r) client) <$> queue w)).

(** ** The class *)

(** What a call evaluates to: a new world, or an exception. *)
Inductive completion :=
| Normal (w : World)
| Throw (err : value) (w : World).

Definition world_of (c : completion) : World :=
  match c with Normal w | Throw _ w => w end.

(** [WeakMap.prototype.get]: a key that is not an object is not found. *)
Definition weakmap_get (m : gmap nat nat) (key : value) : option nat :=
  match key with
  | VLock l => m !! lock_id l
  | _ => None
  end.

(** [done], the resolver of [waitDone]: it resolves that promise and does
    nothing else.  The continuation suspended at [await waitDone] is not
    run by it; it resumes in a later job ([resumes]). *)
Definition done (rid : nat) (w : World) : World :=
  set_woken (λ d, {[rid]} ∪ d) w.

(** The continuation suspended at [await waitDone] resumes, once
    [waitDone] is resolved, and runs to its end: its promise is fulfilled
    with [undefined], upon which the lock manager releases the lock. *)
Definition resumes (rid : nat) (w : World) : World :=
  match sessions w !! rid with
  | Some s =>
    match cont s with
    | AwaitDone lock =>
      if bool_decide (rid ∈ woken w)
      then settle rid lock (inl VUndefined)
             (update_session rid (set_cont Returned) w)
      else w
    | _ => w
    end
  | None => w
  end.

(** Truthiness of the values [find] computes with. *)
Definition truthy (v : value) : bool :=
  match v with
  | VUndefined | VNull => false
  | VBool b => b
  | VString s => negb (String.eqb s EmptyString)
  | _ => true
  end.

Definition some_named (name : string) (l : list LockInfo) : bool :=
  existsb (λ lock, String.eqb (info_name lock) name) l.

(** The loop [for (const lock of l) if (lock.name === innerName) x = lock]. *)
Definition last_named (name : string) (l : list LockInfo) : option LockInfo :=
  fold_left (λ x lock, if String.eqb (info_name lock) name then Some lock else x)
    l None.

Definition is_some {A} (o : option A) : bool :=
  match o with Some _ => true | None => false end.

(** [queryRes]: the two flags and the spread entry. *)
Record Status := mkStatus {
  st_held : bool;
  st_pending : bool;
  st_info : LockInfo
}.

Module Locks.

(** [const { timeout = 1e4, steal } = opt] *)
Definition timeout (opt : Options) : Z := default 10000%Z (opt_timeout opt).

Definition steal (opt : Options) : bool := default false (opt_steal opt).

(** [timeout && !steal ? AbortSignal.timeout(timeout) : void 0]: the delay
    with which [request] calls [AbortSignal.timeout], if it calls it. *)
Definition timeoutSignal (opt : Options) : option Z :=
  if negb (timeout opt =? 0)%Z && negb (steal opt)
  then Some (timeout opt) else None.

(** [AbortSignal.timeout] accepts a delay that is an unsigned 32-bit
    integer and throws a RangeError for any other. *)
Definition valid_delay (ms : Z) : bool :=
  (0 <=? ms)%Z && (ms <=? 4294967295)%Z.

Definition out_of_range : value := VRangeError.

(** Does line 38 run without throwing? *)
Definition delay_accepted (opt : Options) : bool :=
  match timeoutSignal opt with
  | Some ms => valid_delay ms
  | None => true
  end.

(** [request], lines 31 to 70; the result names the returned promise
    ([waitLock] of the new session).  When [AbortSignal.timeout] throws on
    line 38 the async function ends there: the promise it returned is
    rejected with the error, and neither a signal nor a call of the lock
    manager is made. *)
Definition request (name : string) (opt : Options) (callback : bool)
    (w : World) : nat * World :=
  let rid := length (sessions w) in
  let w := set_sessions (λ l, l ++ [mkSession name callback Pending NotInvoked Pending]) w in
  if delay_accepted opt then
    let (timeoutSignal, w) :=
      match timeoutSignal opt with
      | Some ms => let (t, w) := new_signal (Timer ms) w in (Some t, w)
      | None => (None, w)
      end in
    let (signal, w) :=
      match opt_signal opt with
      | Some signal =>
        let (innerSigbalCtrl, w) := new_signal InnerController w in
        let w := addEventListener signal (AbortInner innerSigbalCtrl) w in
        let w :=
          match timeoutSignal with
          | Some t => addEventListener t (ForwardToInner innerSigbalCtrl) w
          | None => w
          end in
        (Some innerSigbalCtrl, w)
      | None => (timeoutSignal, w)
      end in
    (rid,
     manager_request rid name
       (mkOptions (opt_mode opt) (opt_ifAvailable opt) (opt_steal opt) signal
          (opt_timeout opt)) w)
  else (rid, update_session rid (set_waitLock (reject out_of_range)) w).

(** [this.#lockMap.get(lock)?.()] *)
Definition release (lock : value) (w : World) : completion :=
  match weakmap_get (lockMap w) lock with
  | Some rid => Normal (done rid w)
  | None => Normal w
  end.

(** [held?.some(...) || pending?.some(...)] on a snapshot. *)
Definition find_in (snap : Snapshot) (name : string) : value :=
  let held :=
    match snap_held snap with
    | Some held => VBool (some_named name held)
    | None => VUndefined
    end in
  if truthy held then held
  else match snap_pending snap with
       | Some pending => VBool (some_named name pending)
       | None => VUndefined
       end.

Definition find (name : string) (w : World) : value :=
  find_in (manager_query w) name.

(** [typeof name === 'string' ? name : name?.name] *)
Definition innerName (name : value) : option string :=
  match name with
  | VString s => Some s
  | _ => get_name name
  end.

Definition status_in (all : Snapshot) (name : value) : option Status :=
  match innerName name with
  | Some innerName =>
    if String.eqb innerName EmptyString then None
    else
      let heldLock :=
        match snap_held all with
        | Some held => last_named innerName held
        | None => None
        end in
      let pendingLock :=
        match snap_pending all with
        | Some pending => last_named innerName pending
        | None => None
        end in
      match (match heldLock with Some i => Some i | None => pendingLock end) with
      | None => None
      | Some i => Some (mkStatus (is_some heldLock) (is_some pendingLock) i)
      end
  | None => None
  end.

(** [status], lines 115 to 135; [None] is [undefined]. *)
Definition status (name : value) (w : World) : option Status :=
  status_in (manager_query w) name.

Definition list (w : World) : Snapshot := manager_query w.

(** [query]: [this.#manager.request(name, {}, () => {})].  The promise that
    [query] returns is the lock manager's own, [released] of the new
    session.  The continuation handed over is the empty arrow function: it
    is called with the lock and returns at once, which is the session of a
    callback whose completion is [inl VUndefined]; nothing reads [waitLock]
    of such a session, and no rejection of a request without a signal is a
    TimeoutError, so the handler of [request] adds nothing to the console. *)
Definition query (name : string) (w : World) : nat * World :=
  let rid := length (sessions w) in
  let w := set_sessions (λ l, l ++ [mkSession name true Pending NotInvoked Pending]) w in
  (rid, manager_request rid name no_options w).

End Locks.

(** ** Transitions *)

Inductive Event :=
| CallRequest (name : string) (opt : Options) (callback : bool)
| CallRelease (lock : value)
| CallbackSettles (rid : nat) (outcome : value + value)
| NewController
| ControllerAbort (s : nat) (reason : option value)
| TimerFires (s : nat)
| ContinuationResumes (rid : nat).

(** The user callback of a session returns ([inl]) or fails ([inr]); the
    continuation, suspended at [return await callback(lock)], ends the same
    way. *)
Definition callback_settles (rid : nat) (outcome : value + value) (w : World)
  : World :=
  match sessions w !! rid with
  | Some s =>
    match cont s with
    | AwaitCallback lock =>
      settle rid lock outcome (update_session rid (set_cont Returned) w)
    | _ => w
    end
  | None => w
  end.

(** [controller.abort(reason)] on a controller of the caller. *)
Definition controller_abort (s : nat) (reason : option value) (w : World) : World :=
  match signals w !! s with
  | Some sg =>
    match sig_kind sg with
    | CallerController =>
      signal_abort (abort_fuel w) s (default (VDOMException "AbortError") reason) w
    | _ => w
    end
  | None => w
  end.

(** The delay of a timeout signal has elapsed. *)
Definition timer_fires (s : nat) (w : World) : World :=
  match signals w !! s with
  | Some sg =>
    match sig_kind sg with
    | Timer _ => signal_abort (abort_fuel w) s (VDOMException "TimeoutError") w
    | _ => w
    end
  | None => w
  end.

(** A caller can only pass a signal that exists. *)
Definition signal_exists (signal : option nat) (w : World) : bool :=
  match signal with
  | Some s => bool_decide (s < length (signals w))
  | None => true
  end.

Definition step (e : Event) (w : World) : World :=
  match e with
  | CallRequest name opt callback =>
    if signal_exists (opt_signal opt) w
    then snd (Locks.request name opt callback w)
    else w
  | CallRelease lock => world_of (Locks.release lock w)
  | CallbackSettles rid outcome => callback_settles rid outcome w
  | NewController => snd (new_signal CallerController w)
  | ControllerAbort s reason => controller_abort s reason w
  | TimerFires s => timer_fires s w
  | ContinuationResumes rid => resumes rid w
  end.

Definition run (es : list Event) (w : World) : World :=
  fold_left (λ w e, step e w) es w.

Inductive reachable : World → Prop :=
| reachable_init : reachable init
| reachable_step e w : reachable w → reachable (step e w).

(** What an observer reads off a world. *)
Definition future (rid : nat) (w : World) : option promise :=
  waitLock <$> sessions w !! rid.

Definition holders (name : string) (w : World) : list Lock :=
  filter (λ l, lock_name l = name) (held w).

(** The snapshot lists, an absent list read as empty. *)
Definition held_of (snap : Snapshot) : list LockInfo :=
  match snap_held snap with Some l => l | None => [] end.
Definition pending_of (snap : Snapshot) : list LockInfo :=
  match snap_pending snap with Some l => l | None => [] end.

Definition named (name : string) (l : list LockInfo) : list LockInfo :=
  filter (λ i, info_name i = name) l.


(** ** Invariant of the reachable worlds *)

(** The continuation of [s] is suspended while holding [l]. *)
Definition running (l : Lock) (s : Session) : Prop :=
  cont s = AwaitCallback (Some l) ∨ cont s = AwaitDone (Some l).

Record Inv (w : World) : Prop := mkInv {
  (* a queued request has not been answered in any way *)
  inv_queue : ∀ r, r ∈ queue w →
    ∃ s, sessions w !! rq_id r = Some s ∧ cont s = NotInvoked ∧
         waitLock s = Pending ∧ released s = Pending;
  inv_queue_nodup : NoDup (rq_id <$> queue w);
  (* a held lock belongs to a suspended continuation *)
  inv_held : ∀ l, l ∈ held w →
    ∃ s, sessions w !! lock_id l = Some s ∧ running l s;
  inv_held_nodup : NoDup (held w);
  (* a suspended continuation keeps its lock unless it was evicted *)
  inv_running : ∀ rid s l, sessions w !! rid = Some s → running l s →
    lock_id l = rid ∧ (released s = Pending → l ∈ held w);
  inv_callback : ∀ rid s l, sessions w !! rid = Some s → cont s = AwaitCallback l →
    s_callback s = true ∧ waitLock s = Fulfilled (lock_value l) ∧
    (rid, lock_value l) ∈ calls w;
  inv_done : ∀ rid s l, sessions w !! rid = Some s → cont s = AwaitDone l →
    s_callback s = false ∧ waitLock s = Fulfilled (lock_value l);
  inv_lockMap : ∀ k rid, lockMap w !! k = Some rid → k = rid;
  (* an exclusive holder is the only holder of its name *)
  inv_exclusive : ∀ l l', l ∈ held w → l' ∈ held w →
    lock_name l = lock_name l' → lock_mode l = exclusive → l' = l
}.

(** The listeners of every signal, and the property that a listener only
    ever aborts a signal created after the one it listens to. *)
Definition listeners_of (w : World) : list (list Listener) :=
  sig_listeners <$> signals w.

Definition target (l : Listener) : option nat :=
  match l with
  | AbortInner c | ForwardToInner c => Some c
  | HostAbort _ => None
  end.

Definition forward (ls : list (list Listener)) : Prop :=
  ∀ s l c, l ∈ default [] (ls !! s) → target l = Some c → s < c.

(** Requests and handles of the scenarios. *)
Definition ask (mode : LockMode) : Event :=
  CallRequest "R" (mkOptions (Some mode) None None None None) false.

Definition handle (rid : nat) (mode : LockMode) : value := VLock (mkLock rid "R" mode).

(** ** How a world evolves *)

(** A promise never changes once it is settled. *)
Definition keeps (p p' : promise) : Prop := p = Pending ∨ p' = p.

(** [w'] is a later world than [w]: every session of [w] is still there,
    with the same name and callback and with its settled promises intact. *)
Definition later (w w' : World) : Prop :=
  ∀ rid s, sessions w !! rid = Some s →
    ∃ s', sessions w' !! rid = Some s' ∧
          s_name s' = s_name s ∧ s_callback s' = s_callback s ∧
          keeps (waitLock s) (waitLock s') ∧ keeps (released s) (released s').

(** The elementary updates every transition is made of. *)
Inductive prim : World → World → Prop :=
| prim_held f w : prim w (set_held f w)
| prim_queue f w : prim w (set_queue f w)
| prim_signals f w : prim w (set_signals f w)
| prim_console f w : prim w (set_console f w)
| prim_woken f w : prim w (set_woken f w)
| prim_session s0 w :
    cont s0 = NotInvoked → prim w (set_sessions (λ l, l ++ [s0]) w)
| prim_grant rid lock w :
    (∀ l, lock = Some l → lock_id l = rid) → prim w (on_grant rid lock w)
| prim_update rid f w :
    (∀ s, s_name (f s) = s_name s ∧ s_callback (f s) = s_callback s ∧
          (cont (f s) = cont s ∨ cont (f s) = Returned) ∧
          keeps (waitLock s) (waitLock (f s)) ∧
          keeps (released s) (released (f s))) →
    prim w (update_session rid f w).

(** The registry of wake actions: a continuation suspended at
    [await waitDone] with a lock has its [done] under that lock, and only
    requests made without a callback are ever registered. *)
Record Registered (w : World) : Prop := mkRegistered {
  reg_done : ∀ rid s l, sessions w !! rid = Some s →
    cont s = AwaitDone (Some l) → lockMap w !! rid = Some rid;
  reg_handle : ∀ k rid, lockMap w !! k = Some rid →
    ∃ s, sessions w !! rid = Some s ∧ s_callback s = false
}.

(** The promise that [query] returns: the lock manager's own. *)
Definition answer (rid : nat) (w : World) : option promise :=
  released <$> sessions w !! rid.

(** The empty arrow function of a query returns. *)
Definition query_returns (rid : nat) (w : World) : World :=
  callback_settles rid (inl VUndefined) w.

(** The listeners of an aborting signal run one after the other: the loop
    inside [signal_abort], by name. *)
Definition dispatch (fuel : nat) (reason : value) (ls : list Listener)
    (w : World) : World :=
  fold_left
    (λ w l,
       match l with
       | AbortInner c => signal_abort fuel c (VDOMException "AbortError") w
       | ForwardToInner c => signal_abort fuel c (VEvent "abort") w
       | HostAbort rid => abort_request rid reason w
       end) ls w.

(** The waiters of a name in arrival order, and the lock table at rest:
    the first waiter of every name is kept waiting by a holder. *)
Definition waiters (name : string) (q : list Request) : list Request :=
  filter (λ r, rq_name r = name) q.

Definition blocked (name : string) (w : World) : Prop :=
  ∀ r, head (waiters name (queue w)) = Some r →
       conflicts name (rq_mode r) (held w) = true.

Definition Stable (w : World) : Prop := ∀ name, blocked name w.

(** The books of the class balance: a queued request has a pending
    promise and the name it was made with; a pending promise belongs to a
    queued request (except for the request [skip], which is in transit); a
    promise is fulfilled with [null] or with a handle of its own request;
    and a callback was called with what its promise was fulfilled with, at
    most once. *)
Record Accounted (skip : option nat) (w : World) : Prop := mkAccounted {
  acc_queue : ∀ r, r ∈ queue w →
    ∃ s, sessions w !! rq_id r = Some s ∧ waitLock s = Pending ∧
         released s = Pending ∧ s_name s = rq_name r;
  acc_pending : ∀ rid s, skip ≠ Some rid → sessions w !! rid = Some s →
    waitLock s = Pending → ∃ r, r ∈ queue w ∧ rq_id r = rid;
  acc_handle : ∀ rid s v, sessions w !! rid = Some s → waitLock s = Fulfilled v →
    v = VNull ∨ ∃ mode, v = VLock (mkLock rid (s_name s) mode);
  acc_calls : ∀ rid v, (rid, v) ∈ calls w →
    ∃ s, sessions w !! rid = Some s ∧ s_callback s = true ∧
         waitLock s = Fulfilled v;
  acc_once : NoDup (fst <$> calls w)
}.

(** Does the rejection handler of [request] log this error? *)
Definition warns (err : value) : bool :=
  match get_name err with
  | Some n => String.eqb n "TimeoutError"
  | None => false
  end.

(** * Properties *)

(** ** The model on the scenarios of the specification *)

(** Two exclusive requests: the second waits for the release of the first,
    and is granted when the continuation of the first has resumed. *)
Example scenario_exclusive_twice :
  let w := run [ask exclusive; ask exclusive] init in
  future 0 w = Some (Fulfilled (handle 0 exclusive)) ∧
  future 1 w = Some Pending ∧
  future 1 (step (CallRelease (handle 0 exclusive)) w) = Some Pending ∧
  future 1 (run [CallRelease (handle 0 exclusive); ContinuationResumes 0] w)
    = Some (Fulfilled (handle 1 exclusive)).
Proof. repeat split. Qed.

(** Three shared requests are all granted at once. *)
Example scenario_three_shared :
  let w := run [ask shared; ask shared; ask shared] init in
  lock_id <$> held w = [0; 1; 2] ∧ queue w = [].
Proof. repeat split. Qed.

(** A waiting exclusive request bars later shared requests; when the shared
    holder releases, the exclusive one is granted and the shared one still
    waits. *)
Example scenario_barrier :
  let w := run [ask shared; ask exclusive; ask shared] init in
  lock_id <$> held w = [0] ∧ rq_id <$> queue w = [1; 2] ∧
  let w' := run [CallRelease (handle 0 shared); ContinuationResumes 0] w in
  lock_id <$> held w' = [1] ∧ rq_id <$> queue w' = [2].
Proof. repeat split. Qed.

(** A steal is granted at once; the evicted request sees its lock manager
    promise rejected with an AbortError. *)
Example scenario_steal :
  let w := run [ask exclusive;
                CallRequest "R" (mkOptions None None (Some true) None None) false]
             init in
  lock_id <$> held w = [1] ∧
  released <$> sessions w !! 0 = Some (Rejected (VDOMException "AbortError")) ∧
  future 1 w = Some (Fulfilled (handle 1 exclusive)).
Proof. repeat split. Qed.

(** A timeout alone: the waiter is rejected with a TimeoutError, leaves the
    queue, and the warning is logged. *)
Example scenario_timeout :
  let w := run [ask exclusive;
                CallRequest "R" (mkOptions None None None None (Some 50%Z)) false;
                TimerFires 1] init in
  future 1 w = Some (Rejected (VDOMException "TimeoutError")) ∧
  queue w = [] ∧ console w = ["lock R timeout"].
Proof. repeat split. Qed.

(** ** Snapshots: [find] and [status] *)

Lemma some_named_spec name l :
  some_named name l = true ↔ ∃ i, i ∈ l ∧ info_name i = name.
Proof.
  unfold some_named. rewrite existsb_exists.
  split; intros (i & H1 & H2); exists i.
  - split; [by apply list_elem_of_In | by apply String.eqb_eq].
  - split; [by apply list_elem_of_In | by apply String.eqb_eq].
Qed.

Lemma some_named_filter name l :
  some_named name l = bool_decide (named name l ≠ []).
Proof.
  unfold named. induction l as [|i l IH]; [done|].
  rewrite filter_cons. simpl. destruct (String.eqb_spec (info_name i) name) as [E|E].
  - by rewrite decide_True by done.
  - rewrite decide_False by done. by rewrite <- IH.
Qed.

Lemma last_named_from name l x :
  fold_left (λ x lock, if String.eqb (info_name lock) name then Some lock else x) l x
  = match last (named name l) with Some i => Some i | None => x end.
Proof.
  unfold named. revert x. induction l as [|i l IH]; intros x; [done|].
  simpl. rewrite IH, filter_cons.
  destruct (String.eqb_spec (info_name i) name) as [E|E].
  - rewrite decide_True by done. rewrite last_cons. by destruct (last _).
  - by rewrite decide_False by done.
Qed.

Lemma last_named_spec name l : last_named name l = last (named name l).
Proof. unfold last_named. rewrite last_named_from. by destruct (last _). Qed.

Lemma last_named_is_some name l :
  is_some (last_named name l) = some_named name l.
Proof.
  rewrite last_named_spec, some_named_filter.
  destruct (last (named name l)) eqn:E; simpl.
  - rewrite bool_decide_true; [done|]. intros H. by rewrite H in E.
  - apply last_None in E. by rewrite bool_decide_false by (by intros []).
Qed.

Lemma last_named_name name l i : last_named name l = Some i → info_name i = name.
Proof.
  rewrite last_named_spec. intros H%last_Some_elem_of.
  unfold named in H. by apply list_elem_of_filter in H as [? _].
Qed.

(** ** The invariant is kept by every transition *)

Ltac wsimpl :=
  cbn [held queue signals sessions lockMap console calls woken update_session
       set_sessions set_held set_queue set_signals set_lockMap set_console
       set_calls set_woken] in *.

Lemma lookup_update_session rid f w rid' :
  sessions (update_session rid f w) !! rid' =
  if decide (rid = rid') then f <$> sessions w !! rid else sessions w !! rid'.
Proof. apply list_lookup_alter. Qed.

(** The invariant reads only five components of a world. *)
Lemma Inv_same w w' :
  held w' = held w → queue w' = queue w → sessions w' = sessions w →
  lockMap w' = lockMap w → calls w' = calls w → Inv w → Inv w'.
Proof.
  intros Hh Hq Hs Hm Hc [I1 I2 I3 I4 I5 I6 I7 I8 I9].
  constructor; rewrite ?Hh, ?Hq, ?Hs, ?Hm, ?Hc; assumption.
Qed.

(** Updating a session that is not queued, without touching its
    continuation and without unsettling a promise. *)
Lemma Inv_update_session rid f w :
  Inv w →
  (∀ r, r ∈ queue w → rq_id r ≠ rid) →
  (∀ s, cont (f s) = cont s ∧ s_callback (f s) = s_callback s ∧
        (waitLock s ≠ Pending → waitLock (f s) = waitLock s) ∧
        (released (f s) = Pending → released s = Pending)) →
  Inv (update_session rid f w).
Proof.
  intros [I1 I2 I3 I4 I5 I6 I7 I8 I9] Hq Hf.
  constructor; try assumption; wsimpl.
  - intros r Hr. destruct (I1 r Hr) as (s & Hs & ?).
    exists s. split; [|done]. rewrite list_lookup_alter_ne; [done|].
    intros ->. by apply (Hq r).
  - intros l Hl. destruct (I3 l Hl) as (s & Hs & Hrun).
    destruct (decide (rid = lock_id l)) as [->|Hne].
    + exists (f s). rewrite list_lookup_alter_eq, Hs. split; [done|].
      unfold running. by rewrite (proj1 (Hf s)).
    + exists s. by rewrite list_lookup_alter_ne.
  - intros rid' s l. rewrite list_lookup_alter. case_decide as E.
    + subst rid'. destruct (sessions w !! rid) as [s0|] eqn:Hs; [|done].
      intros [= <-]. unfold running. rewrite (proj1 (Hf s0)). intros Hrun.
      destruct (I5 rid s0 l Hs Hrun) as [? Hh]. split; [done|].
      intros Hp. apply Hh. by apply (Hf s0).
    + apply I5.
  - intros rid' s l. rewrite list_lookup_alter. case_decide as E.
    + subst rid'. destruct (sessions w !! rid) as [s0|] eqn:Hs; [|done].
      intros [= <-]. destruct (Hf s0) as (-> & -> & Hw & _). intros Hc.
      destruct (I6 rid s0 l Hs Hc) as (? & Hwl & ?).
      rewrite Hw; [done|]. by rewrite Hwl.
    + apply I6.
  - intros rid' s l. rewrite list_lookup_alter. case_decide as E.
    + subst rid'. destruct (sessions w !! rid) as [s0|] eqn:Hs; [|done].
      intros [= <-]. destruct (Hf s0) as (-> & -> & Hw & _). intros Hc.
      destruct (I7 rid s0 l Hs Hc) as (? & Hwl).
      rewrite Hw; [done|]. by rewrite Hwl.
    + apply I7.
Qed.

Lemma Inv_on_catch rid err w :
  Inv w → (∀ r, r ∈ queue w → rq_id r ≠ rid) → Inv (on_catch rid err w).
Proof.
  intros HI Hq. unfold on_catch.
  destruct (sessions w !! rid) as [s|]; [|done].
  unfold rejectorLock. apply Inv_update_session.
  - destruct (get_name err) as [n|]; [|done].
    destruct (String.eqb n "TimeoutError"); [|done].
    by apply (Inv_same w).
  - by destruct (get_name err) as [n|]; [destruct (String.eqb n "TimeoutError")|].
  - intros s0. repeat split; try done. simpl. by destruct (waitLock s0).
Qed.

Lemma queue_on_catch rid err w : queue (on_catch rid err w) = queue w.
Proof.
  unfold on_catch. destruct (sessions w !! rid); [|done].
  by destruct (get_name err) as [n|]; [destruct (String.eqb n "TimeoutError")|].
Qed.

Lemma held_on_catch rid err w : held (on_catch rid err w) = held w.
Proof.
  unfold on_catch. destruct (sessions w !! rid); [|done].
  by destruct (get_name err) as [n|]; [destruct (String.eqb n "TimeoutError")|].
Qed.

Lemma Inv_reject_released rid err w :
  Inv w → (∀ r, r ∈ queue w → rq_id r ≠ rid) → Inv (reject_released rid err w).
Proof.
  intros HI Hq. unfold reject_released.
  destruct (sessions w !! rid) as [s|]; [|done].
  destruct (released s); try done.
  apply Inv_on_catch; [|done].
  apply Inv_update_session; [done..|].
  intros s0. repeat split; try done. simpl. by destruct (released s0).
Qed.

Lemma Inv_resolve_released rid v w :
  Inv w → (∀ r, r ∈ queue w → rq_id r ≠ rid) → Inv (resolve_released rid v w).
Proof.
  intros HI Hq. apply Inv_update_session; [done..|].
  intros s0. repeat split; try done. simpl. by destruct (released s0).
Qed.

Lemma queue_reject_released rid err w : queue (reject_released rid err w) = queue w.
Proof.
  unfold reject_released. destruct (sessions w !! rid) as [s|]; [|done].
  destruct (released s); try done. by rewrite queue_on_catch.
Qed.

Lemma held_reject_released rid err w : held (reject_released rid err w) = held w.
Proof.
  unfold reject_released. destruct (sessions w !! rid) as [s|]; [|done].
  destruct (released s); try done. by rewrite held_on_catch.
Qed.

Lemma NoDup_fmap_filter {A B} (f : A → B) (P : A → Prop) `{∀ x, Decision (P x)}
    (l : list A) :
  NoDup (f <$> l) → NoDup (f <$> filter P l).
Proof.
  intros Hnd. eapply sublist_NoDup; [exact Hnd|].
  apply fmap_sublist, sublist_filter.
Qed.

(** What the grant continuation does to a world. *)
Lemma on_grant_spec rid lock w s :
  sessions w !! rid = Some s →
  let w' := on_grant rid lock w in
  held w' = held w ∧ queue w' = queue w ∧
  sessions w' !! rid =
    Some (mkSession (s_name s) (s_callback s)
            (resolve (lock_value lock) (waitLock s))
            (if s_callback s then AwaitCallback lock else AwaitDone lock)
            (released s)) ∧
  (∀ rid', rid' ≠ rid → sessions w' !! rid' = sessions w !! rid') ∧
  calls w' = (if s_callback s then calls w ++ [(rid, lock_value lock)] else calls w) ∧
  lockMap w' =
    (if s_callback s then lockMap w
     else match lock with
          | Some l => <[lock_id l := rid]> (lockMap w)
          | None => lockMap w
          end).
Proof.
  intros Hs. unfold on_grant, getLock. rewrite lookup_update_session.
  rewrite decide_True by done. rewrite Hs. cbn [fmap option_fmap option_map set_waitLock s_callback].
  destruct (s_callback s) eqn:Hcb.
  - wsimpl. repeat split; try done.
    + rewrite !list_lookup_alter_eq, Hs. unfold set_cont, set_waitLock. simpl. by rewrite Hcb.
    + intros rid' Hne. by rewrite !list_lookup_alter_ne.
  - destruct lock as [l|]; wsimpl; repeat split; try done.
    + rewrite !list_lookup_alter_eq, Hs. unfold set_cont, set_waitLock. simpl. by rewrite Hcb.
    + intros rid' Hne. by rewrite !list_lookup_alter_ne.
    + rewrite !list_lookup_alter_eq, Hs. unfold set_cont, set_waitLock. simpl. by rewrite Hcb.
    + intros rid' Hne. by rewrite !list_lookup_alter_ne.
Qed.

Lemma on_grant_absent rid lock w :
  sessions w !! rid = None → on_grant rid lock w = getLock rid lock w.
Proof.
  intros Hs. unfold on_grant, getLock. rewrite lookup_update_session.
  rewrite decide_True by done. by rewrite Hs.
Qed.

Lemma conflicts_false name mode h :
  conflicts name mode h = false →
  ∀ l, l ∈ h → lock_name l = name → mode = shared ∧ lock_mode l = shared.
Proof.
  unfold conflicts. intros Hc l Hl Hn.
  assert (existsb (λ l, String.eqb (lock_name l) name &&
            match mode with exclusive => true
                          | shared => LockMode_eqb (lock_mode l) exclusive end) h
          ≠ true) as Hne by (by rewrite Hc).
  rewrite existsb_exists in Hne.
  destruct mode, (lock_mode l) eqn:Hm; try done; exfalso; apply Hne; exists l;
    (split; [by apply list_elem_of_In|]);
    rewrite ?Hm; apply andb_true_iff; (split; [by apply String.eqb_eq|done]).
Qed.

Lemma grant_spec r w s :
  sessions w !! rq_id r = Some s →
  let w' := grant r w in
  held w' = held w ++ [lock_of r] ∧
  queue w' = filter (λ q, rq_id q ≠ rq_id r) (queue w) ∧
  sessions w' !! rq_id r =
    Some (mkSession (s_name s) (s_callback s)
            (resolve (VLock (lock_of r)) (waitLock s))
            (if s_callback s then AwaitCallback (Some (lock_of r))
             else AwaitDone (Some (lock_of r)))
            (released s)) ∧
  (∀ rid', rid' ≠ rq_id r → sessions w' !! rid' = sessions w !! rid') ∧
  calls w' = (if s_callback s then calls w ++ [(rq_id r, VLock (lock_of r))]
              else calls w) ∧
  lockMap w' = (if s_callback s then lockMap w
                else <[rq_id r := rq_id r]> (lockMap w)).
Proof.
  intros Hs. unfold grant.
  set (w0 := set_held _ _).
  assert (sessions w0 !! rq_id r = Some s) as Hs0 by done.
  destruct (on_grant_spec (rq_id r) (Some (lock_of r)) w0 s Hs0)
    as (Hh & Hq & Hsr & Hso & Hcl & Hlm).
  cbv zeta. rewrite Hh, Hq, Hsr, Hcl, Hlm. repeat split; try done.
Qed.

Lemma Inv_grant r w :
  Inv w → r ∈ queue w → conflicts (rq_name r) (rq_mode r) (held w) = false →
  Inv (grant r w).
Proof.
  intros [I1 I2 I3 I4 I5 I6 I7 I8 I9] Hr Hc.
  destruct (I1 r Hr) as (s & Hs & Hcont & Hwl & Hrel).
  destruct (grant_spec r w s Hs) as (Hh & Hq & Hsr & Hso & Hcl & Hlm).
  rewrite Hwl in Hsr. cbn [resolve] in Hsr.
  assert (∀ l, l ∈ held w → lock_id l ≠ rq_id r) as Hfresh.
  { intros l Hl E. destruct (I3 l Hl) as (s' & Hs' & Hrun).
    rewrite E, Hs in Hs'. injection Hs' as <-.
    destruct Hrun as [Hrun|Hrun]; by rewrite Hcont in Hrun. }
  assert (∀ x, x ∈ calls w → x ∈ calls (grant r w)) as Hcalls.
  { intros x Hx. rewrite Hcl. destruct (s_callback s); [|done].
    apply elem_of_app. by left. }
  constructor.
  - rewrite Hq. intros r' [Hne Hr']%list_elem_of_filter.
    destruct (I1 r' Hr') as (s' & Hs' & ?). exists s'. by rewrite Hso.
  - rewrite Hq. by apply NoDup_fmap_filter.
  - rewrite Hh. intros l [Hl| ->%list_elem_of_singleton]%elem_of_app.
    + destruct (I3 l Hl) as (s' & Hs' & Hrun). exists s'.
      rewrite Hso by by apply Hfresh. done.
    + eexists. split; [exact Hsr|]. unfold running. simpl.
      destruct (s_callback s); auto.
  - rewrite Hh. apply NoDup_app. split; [done|]. split; [|apply NoDup_singleton].
    intros l Hl ->%list_elem_of_singleton. by apply (Hfresh _ Hl).
  - intros rid s' l. rewrite Hh. destruct (decide (rid = rq_id r)) as [->|Hne].
    + rewrite Hsr. intros [= <-]. unfold running. simpl.
      assert (l = lock_of r → lock_id l = rq_id r ∧
                (released s = Pending → l ∈ held w ++ [lock_of r])) as Hgoal.
      { intros ->. split; [done|]. intros _. apply elem_of_app. right.
        apply list_elem_of_here. }
      destruct (s_callback s); intros [[= E]|[= E]]; by apply Hgoal.
    + rewrite Hso by done. intros Hs' Hrun.
      destruct (I5 rid s' l Hs' Hrun) as [? Hin]. split; [done|].
      intros Hp. apply elem_of_app. left. by apply Hin.
  - intros rid s' l. destruct (decide (rid = rq_id r)) as [->|Hne].
    + rewrite Hsr. intros [= <-]. simpl. rewrite Hcl.
      destruct (s_callback s); [|done]. intros [= <-].
      repeat split; try done. apply elem_of_app. right. apply list_elem_of_here.
    + rewrite Hso by done. intros Hs' Hc'.
      destruct (I6 rid s' l Hs' Hc') as (? & ? & ?). auto.
  - intros rid s' l. destruct (decide (rid = rq_id r)) as [->|Hne].
    + rewrite Hsr. intros [= <-]. simpl.
      destruct (s_callback s); [done|]. by intros [= <-].
    + rewrite Hso by done. apply I7.
  - intros k rid. rewrite Hlm. destruct (s_callback s); [apply I8|]. simpl.
    rewrite lookup_insert. case_decide; [congruence|apply I8].
  - rewrite Hh. intros l l' Hl Hl' Hn Hm.
    apply elem_of_app in Hl as [Hl| ->%list_elem_of_singleton];
      apply elem_of_app in Hl' as [Hl'| ->%list_elem_of_singleton]; try done.
    + by apply I9.
    + destruct (conflicts_false _ _ _ Hc l Hl Hn) as [_ Hsh]. congruence.
    + symmetry in Hn. destruct (conflicts_false _ _ _ Hc l' Hl' Hn) as [Hsh _].
      simpl in Hm. congruence.
Qed.

(** Components that the closures of [request] leave alone. *)
Ltac frame_cases :=
  repeat match goal with
         | |- context [match ?x with _ => _ end] => destruct x
         end; try reflexivity.

Lemma on_grant_frame rid lock w :
  held (on_grant rid lock w) = held w ∧ queue (on_grant rid lock w) = queue w ∧
  signals (on_grant rid lock w) = signals w.
Proof. unfold on_grant, getLock. by frame_cases. Qed.

Lemma on_catch_frame rid err w :
  signals (on_catch rid err w) = signals w ∧ lockMap (on_catch rid err w) = lockMap w ∧
  calls (on_catch rid err w) = calls w.
Proof. unfold on_catch, rejectorLock. by frame_cases. Qed.

Lemma reject_released_frame rid err w :
  signals (reject_released rid err w) = signals w ∧
  lockMap (reject_released rid err w) = lockMap w ∧
  calls (reject_released rid err w) = calls w.
Proof.
  unfold reject_released. destruct (sessions w !! rid) as [s|]; [|done].
  destruct (released s); try done. exact (on_catch_frame _ _ _).
Qed.

Lemma on_grant_other rid lock w rid' :
  rid' ≠ rid → sessions (on_grant rid lock w) !! rid' = sessions w !! rid'.
Proof.
  intros Hne. destruct (sessions w !! rid) as [s|] eqn:Hs.
  - by apply (on_grant_spec rid lock w s Hs).
  - rewrite on_grant_absent by done. by apply list_lookup_alter_ne.
Qed.

Lemma on_grant_lockMap rid lock w k :
  (∀ l, lock = Some l → lock_id l ≠ k) →
  lockMap (on_grant rid lock w) !! k = lockMap w !! k.
Proof.
  intros Hk. destruct (sessions w !! rid) as [s|] eqn:Hs.
  - destruct (on_grant_spec rid lock w s Hs) as (_ & _ & _ & _ & _ & ->).
    destruct (s_callback s); [done|]. destruct lock as [l|]; [|done].
    apply lookup_insert_ne. by apply Hk.
  - by rewrite on_grant_absent.
Qed.

Lemma queue_grant r w : queue (grant r w) = filter (λ q, rq_id q ≠ rq_id r) (queue w).
Proof. unfold grant. by rewrite (proj1 (proj2 (on_grant_frame _ _ _))). Qed.

Lemma held_grant r w : held (grant r w) = held w ++ [lock_of r].
Proof. unfold grant. by rewrite (proj1 (on_grant_frame _ _ _)). Qed.

Lemma signals_grant r w : signals (grant r w) = signals w.
Proof. unfold grant. by rewrite (proj2 (proj2 (on_grant_frame _ _ _))). Qed.

Lemma Inv_scan name q w :
  Inv w → NoDup (rq_id <$> q) → (∀ r, r ∈ q → r ∈ queue w) →
  Inv (scan name q w).
Proof.
  revert w. induction q as [|r q IH]; intros w HI Hnd Hq; [done|].
  apply NoDup_cons in Hnd as [Hr Hnd]. simpl.
  assert (∀ r', r' ∈ q → r' ∈ queue w) as Hq'.
  { intros r' Hr'. apply Hq. by right. }
  destruct (String.eqb_spec (rq_name r) name) as [<-|_]; [|by apply IH].
  destruct (conflicts _ _ _) eqn:Hc; [done|].
  apply IH; [|done|].
  - apply Inv_grant; [done| |done]. apply Hq. by left.
  - intros r' Hr'. rewrite queue_grant. apply list_elem_of_filter.
    split; [|by apply Hq']. intros E. apply Hr. rewrite <- E.
    by apply list_elem_of_fmap_2.
Qed.

Lemma Inv_process_queue name w : Inv w → Inv (process_queue name w).
Proof. intros HI. apply Inv_scan; [done|apply HI|done]. Qed.

(** A scan only shortens the queue, only lengthens the held list, and
    touches no session and no [lockMap] entry but those of the waiters. *)
Lemma scan_queue name q w r : r ∈ queue (scan name q w) → r ∈ queue w.
Proof.
  revert w. induction q as [|r0 q IH]; intros w; [done|]. simpl.
  destruct (String.eqb _ _); [|apply IH].
  destruct (conflicts _ _ _); [done|].
  intros H%IH. rewrite queue_grant in H. by apply list_elem_of_filter in H as [_ ?].
Qed.

Lemma scan_held name q w l : l ∈ held w → l ∈ held (scan name q w).
Proof.
  revert w. induction q as [|r0 q IH]; intros w; [done|]. simpl.
  destruct (String.eqb _ _); [|apply IH].
  destruct (conflicts _ _ _); [done|].
  intros H. apply IH. rewrite held_grant. apply elem_of_app. by left.
Qed.

Lemma scan_signals name q w : signals (scan name q w) = signals w.
Proof.
  revert w. induction q as [|r0 q IH]; intros w; [done|]. simpl.
  destruct (String.eqb _ _); [|apply IH].
  destruct (conflicts _ _ _); [done|]. by rewrite IH, signals_grant.
Qed.

Lemma scan_other name q w rid :
  (∀ r, r ∈ q → rq_id r ≠ rid) →
  sessions (scan name q w) !! rid = sessions w !! rid ∧
  lockMap (scan name q w) !! rid = lockMap w !! rid.
Proof.
  revert w. induction q as [|r0 q IH]; intros w Hq; [done|]. simpl.
  assert (∀ r, r ∈ q → rq_id r ≠ rid) as Hq' by (intros r Hr; apply Hq; by right).
  destruct (String.eqb _ _); [|by apply IH].
  destruct (conflicts _ _ _); [done|].
  destruct (IH (grant r0 w) Hq') as [-> ->]. unfold grant.
  assert (rq_id r0 ≠ rid) as Hne by (apply Hq; by left).
  rewrite on_grant_other by done. rewrite on_grant_lockMap; [done|].
  by intros l [= <-].
Qed.

(** The continuation of a session ends: its lock, if it was given one,
    leaves the held set. *)
Lemma Inv_returned rid w s h' :
  Inv w → sessions w !! rid = Some s → cont s ≠ NotInvoked →
  (∀ l, l ∈ h' ↔ l ∈ held w ∧ lock_id l ≠ rid) → NoDup h' →
  Inv (set_held (λ _, h') (update_session rid (set_cont Returned) w)).
Proof.
  intros [I1 I2 I3 I4 I5 I6 I7 I8 I9] Hs Hc Hh Hnd.
  constructor; try assumption; wsimpl.
  - intros r Hr. destruct (I1 r Hr) as (s' & Hs' & Hc' & ?).
    exists s'. split; [|done]. rewrite list_lookup_alter_ne; [done|].
    intros ->. congruence.
  - intros l [Hl Hne]%Hh. destruct (I3 l Hl) as (s' & Hs' & Hrun).
    exists s'. by rewrite list_lookup_alter_ne.
  - intros rid' s' l. rewrite list_lookup_alter. case_decide as E.
    + subst rid'. rewrite Hs. intros [= <-]. by intros [?|?].
    + intros Hs' Hrun. destruct (I5 rid' s' l Hs' Hrun) as [Hid Hin].
      split; [done|]. intros Hp. apply Hh. split; [by apply Hin|congruence].
  - intros rid' s' l. rewrite list_lookup_alter. case_decide as E.
    + subst rid'. rewrite Hs. by intros [= <-].
    + apply I6.
  - intros rid' s' l. rewrite list_lookup_alter. case_decide as E.
    + subst rid'. rewrite Hs. by intros [= <-].
    + apply I7.
  - intros l l' [Hl _]%Hh [Hl' _]%Hh. by apply I9.
Qed.

Lemma Inv_settle rid lock outcome w s :
  Inv w → sessions w !! rid = Some s →
  cont s = AwaitCallback lock ∨ cont s = AwaitDone lock →
  Inv (settle rid lock outcome (update_session rid (set_cont Returned) w)).
Proof.
  intros HI Hs Hc.
  assert (cont s ≠ NotInvoked) as Hc' by (destruct Hc as [Hc|Hc]; by rewrite Hc).
  set (w1 := update_session rid (set_cont Returned) w).
  assert (∃ w2, Inv w2 ∧ queue w2 = queue w ∧
    (match lock with
     | Some l => process_queue (lock_name l)
                   (set_held (filter (λ h, lock_id h ≠ lock_id l)) w1)
     | None => w1
     end) = match lock with
            | Some l => process_queue (lock_name l) w2
            | None => w2
            end) as (w2 & HI2 & Hq2 & E).
  { destruct lock as [l|].
    - destruct (inv_running w HI rid s l Hs) as [Hid _]; [done|].
      eexists. split; [|split; [|reflexivity]]; [|done].
      apply (Inv_returned rid w s (filter (λ h, lock_id h ≠ lock_id l) (held w)));
        try done.
      + intros l'. rewrite list_elem_of_filter, Hid. tauto.
      + apply NoDup_filter, HI.
    - exists w1. split; [|done].
      apply (Inv_returned rid w s (held w)); try done; [|apply HI].
      intros l. split; [|tauto]. intros Hl. split; [done|]. intros E.
      destruct (inv_held w HI l Hl) as (s' & Hs' & Hrun).
      rewrite E, Hs in Hs'. injection Hs' as <-.
      destruct Hc as [Hc|Hc], Hrun as [Hr|Hr]; congruence. }
  unfold settle. fold w1. rewrite E. clear E.
  assert (∃ w3, Inv w3 ∧ (∀ r, r ∈ queue w3 → r ∈ queue w) ∧
    match lock with
    | Some l => process_queue (lock_name l) w2
    | None => w2
    end = w3) as (w3 & HI3 & Hq3 & ->).
  { destruct lock as [l|]; eexists; (split; [|split; [|reflexivity]]).
    - by apply Inv_process_queue.
    - intros r Hr%scan_queue. by rewrite <- Hq2.
    - done.
    - intros r. by rewrite Hq2. }
  assert (∀ r, r ∈ queue w3 → rq_id r ≠ rid) as Hfresh.
  { intros r Hr%Hq3 E. destruct (inv_queue w HI r Hr) as (s' & Hs' & ? & _).
    congruence. }
  destruct outcome; [by apply Inv_resolve_released|by apply Inv_reject_released].
Qed.

Lemma Inv_done rid w : Inv w → Inv (done rid w).
Proof. by apply Inv_same. Qed.

Lemma Inv_resumes rid w : Inv w → Inv (resumes rid w).
Proof.
  intros HI. unfold resumes. destruct (sessions w !! rid) as [s|] eqn:Hs; [|done].
  destruct (cont s) eqn:Hc; try done. case_bool_decide; [|done].
  eapply Inv_settle; eauto.
Qed.

Lemma Inv_callback_settles rid outcome w : Inv w → Inv (callback_settles rid outcome w).
Proof.
  intros HI. unfold callback_settles.
  destruct (sessions w !! rid) as [s|] eqn:Hs; [|done].
  destruct (cont s) eqn:Hc; try done. eapply Inv_settle; eauto.
Qed.

Lemma Inv_release lock w : Inv w → Inv (world_of (Locks.release lock w)).
Proof.
  intros HI. unfold Locks.release.
  destruct (weakmap_get _ _); [|done]. by apply Inv_done.
Qed.

(** After [reject_released], the promise of the request is settled. *)
Lemma on_catch_sessions rid err w rid' :
  sessions (on_catch rid err w) !! rid' =
  if decide (rid = rid') then set_waitLock (reject err) <$> sessions w !! rid
  else sessions w !! rid'.
Proof.
  unfold on_catch, rejectorLock. destruct (sessions w !! rid) as [s|] eqn:Hs.
  - rewrite lookup_update_session.
    assert (∀ w0, sessions w0 = sessions w →
      (if decide (rid = rid') then set_waitLock (reject err) <$> sessions w0 !! rid
       else sessions w0 !! rid') =
      if decide (rid = rid') then Some (set_waitLock (reject err) s)
      else sessions w !! rid') as E.
    { intros w0 ->. by rewrite Hs. }
    apply E. by frame_cases.
  - case_decide; [by subst|done].
Qed.

Lemma reject_released_sessions rid err w rid' :
  sessions (reject_released rid err w) !! rid' =
  if decide (rid = rid') then
    (λ s, match released s with
          | Pending => mkSession (s_name s) (s_callback s) (reject err (waitLock s))
                         (cont s) (Rejected err)
          | _ => s
          end) <$> sessions w !! rid
  else sessions w !! rid'.
Proof.
  unfold reject_released. destruct (sessions w !! rid) as [s|] eqn:Hs.
  - destruct (released s) eqn:Hr.
    + rewrite on_catch_sessions. destruct (decide (rid = rid')) as [<-|Hne].
      * rewrite lookup_update_session, decide_True by done. rewrite Hs.
        simpl. unfold set_waitLock, set_released. simpl. by rewrite Hr.
      * by rewrite lookup_update_session, decide_False by done.
    + case_decide; [|done]. subst. rewrite Hs. simpl. by rewrite Hr.
    + case_decide; [|done]. subst. rewrite Hs. simpl. by rewrite Hr.
  - case_decide; [|done]. subst. by rewrite Hs.
Qed.

Lemma reject_released_set_held rid err f w :
  reject_released rid err (set_held f w) = set_held f (reject_released rid err w).
Proof.
  unfold reject_released, on_catch, rejectorLock. wsimpl.
  destruct (sessions w !! rid) as [s|]; [|done].
  destruct (released s); try done. wsimpl. by frame_cases.
Qed.

(** Dropping the lock of a request whose promise is settled. *)
Lemma Inv_drop rid w :
  Inv w → (∀ s, sessions w !! rid = Some s → released s ≠ Pending) →
  Inv (set_held (filter (λ h, lock_id h ≠ rid)) w).
Proof.
  intros [I1 I2 I3 I4 I5 I6 I7 I8 I9] Hs.
  constructor; try assumption; wsimpl.
  - intros l [_ Hl]%list_elem_of_filter. by apply I3.
  - by apply NoDup_filter.
  - intros rid' s l Hs' Hrun. destruct (I5 rid' s l Hs' Hrun) as [Hid Hin].
    split; [done|]. intros Hp. apply list_elem_of_filter. split; [|by apply Hin].
    intros E. apply (Hs s); [|done]. by rewrite <- E, Hid.
  - intros l l' [_ Hl]%list_elem_of_filter [_ Hl']%list_elem_of_filter.
    by apply I9.
Qed.

Lemma Inv_evict_lock l w :
  Inv w → (∀ r, r ∈ queue w → rq_id r ≠ lock_id l) → Inv (evict_lock l w).
Proof.
  intros HI Hq. unfold evict_lock. rewrite reject_released_set_held.
  apply Inv_drop; [by apply Inv_reject_released|].
  intros s. rewrite reject_released_sessions, decide_True by done.
  destruct (sessions w !! lock_id l) as [s0|]; [|done]. simpl.
  intros [= <-]. destruct (released s0) eqn:E; simpl; congruence.
Qed.

Lemma evict_lock_frame l w :
  queue (evict_lock l w) = queue w ∧ signals (evict_lock l w) = signals w ∧
  ∀ rid, rid ≠ lock_id l →
    sessions (evict_lock l w) !! rid = sessions w !! rid.
Proof.
  unfold evict_lock. rewrite queue_reject_released.
  rewrite (proj1 (reject_released_frame _ _ _)). repeat split; try done.
  intros rid Hne. rewrite reject_released_sessions. by rewrite decide_False.
Qed.

Lemma Inv_evict_all victims w :
  Inv w → (∀ l r, l ∈ victims → r ∈ queue w → rq_id r ≠ lock_id l) →
  Inv (fold_left (λ w l, evict_lock l w) victims w).
Proof.
  revert w. induction victims as [|l victims IH]; intros w HI Hq; [done|].
  simpl. apply IH.
  - apply Inv_evict_lock; [done|]. intros r. apply Hq. by left.
  - intros l' r Hl'. rewrite (proj1 (evict_lock_frame _ _)). apply Hq. by right.
Qed.

Lemma held_not_queued w l r :
  Inv w → l ∈ held w → r ∈ queue w → rq_id r ≠ lock_id l.
Proof.
  intros HI Hl Hr E.
  destruct (inv_held w HI l Hl) as (s & Hs & Hrun).
  destruct (inv_queue w HI r Hr) as (s' & Hs' & Hc & _).
  rewrite E, Hs in Hs'. injection Hs' as <-.
  destruct Hrun as [Hrun|Hrun]; congruence.
Qed.

Lemma Inv_evict name w : Inv w → Inv (evict name w).
Proof.
  intros HI. apply Inv_evict_all; [done|].
  intros l r [_ Hl]%list_elem_of_filter Hr. by apply (held_not_queued w).
Qed.

Lemma evict_all_frame victims w :
  let w' := fold_left (λ w l, evict_lock l w) victims w in
  queue w' = queue w ∧ signals w' = signals w ∧
  ∀ rid, (∀ l, l ∈ victims → lock_id l ≠ rid) →
    sessions w' !! rid = sessions w !! rid.
Proof.
  revert w. induction victims as [|l victims IH]; intros w; [done|].
  simpl. destruct (IH (evict_lock l w)) as (-> & -> & Hs).
  destruct (evict_lock_frame l w) as (-> & -> & Hs'). repeat split; try done.
  intros rid Hv. rewrite Hs by (intros l' Hl'; apply Hv; by right).
  apply Hs'. intros ->. by apply (Hv l); [left|].
Qed.

(** Cancellation. *)
Lemma Inv_dequeue (P : Request → Prop) `{∀ r, Decision (P r)} w :
  Inv w → Inv (set_queue (filter P) w).
Proof.
  intros [I1 I2 I3 I4 I5 I6 I7 I8 I9].
  constructor; try assumption; wsimpl.
  - intros r [_ Hr]%list_elem_of_filter. by apply I1.
  - by apply NoDup_fmap_filter.
Qed.

Lemma Inv_abort_request rid reason w : Inv w → Inv (abort_request rid reason w).
Proof.
  intros HI. unfold abort_request. destruct (List.find _ _) as [r|]; [|done].
  apply Inv_reject_released.
  - by apply Inv_process_queue, Inv_dequeue.
  - intros r' Hr'%scan_queue. wsimpl. by apply list_elem_of_filter in Hr' as [? _].
Qed.

Lemma Inv_signal_abort fuel s reason w : Inv w → Inv (signal_abort fuel s reason w).
Proof.
  revert s reason w. induction fuel as [|fuel IH]; intros s reason w HI; [done|].
  simpl. destruct (signals w !! s) as [sg|]; [|done].
  destruct (sig_reason sg); [done|].
  set (w1 := set_signals _ w). assert (Inv w1) as HI1 by (by apply (Inv_same w)).
  clearbody w1. revert w1 HI1.
  induction (sig_listeners sg) as [|l ls IHl]; intros w1 HI1; [done|].
  simpl. apply IHl. destruct l; auto using Inv_abort_request.
Qed.

(** A new request. *)
Lemma Inv_enqueue r q' w s :
  Inv w → sessions w !! rq_id r = Some s →
  cont s = NotInvoked → waitLock s = Pending → released s = Pending →
  (∀ x, x ∈ q' ↔ x = r ∨ x ∈ queue w) → NoDup (rq_id <$> q') →
  Inv (set_queue (λ _, q') w).
Proof.
  intros [I1 I2 I3 I4 I5 I6 I7 I8 I9] Hs Hc Hw Hr Hq Hnd.
  constructor; try assumption; wsimpl.
  intros x [->|Hx]%Hq; [by exists s|by apply I1].
Qed.

Lemma Inv_on_grant_null rid w s :
  Inv w → sessions w !! rid = Some s →
  cont s = NotInvoked → waitLock s = Pending →
  (∀ r, r ∈ queue w → rq_id r ≠ rid) →
  Inv (on_grant rid None w).
Proof.
  intros [I1 I2 I3 I4 I5 I6 I7 I8 I9] Hs Hc Hw Hq.
  destruct (on_grant_spec rid None w s Hs) as (Hh & Hq' & Hsr & Hso & Hcl & Hlm).
  rewrite Hw in Hsr. cbn [resolve lock_value] in Hsr.
  assert (lockMap (on_grant rid None w) = lockMap w) as Hlm'
    by (rewrite Hlm; by destruct (s_callback s)).
  constructor; rewrite ?Hh, ?Hq', ?Hlm'; try assumption.
  - intros r Hr. destruct (I1 r Hr) as (s' & Hs' & ?). exists s'.
    rewrite Hso; [done|]. by apply Hq.
  - intros l Hl. destruct (I3 l Hl) as (s' & Hs' & Hrun). exists s'.
    rewrite Hso; [done|]. intros E. rewrite E, Hs in Hs'. injection Hs' as <-.
    destruct Hrun as [Hrun|Hrun]; congruence.
  - intros rid' s' l. destruct (decide (rid' = rid)) as [->|Hne].
    + rewrite Hsr. intros [= <-]. unfold running. simpl.
      by destruct (s_callback s); intros [?|?].
    + rewrite Hso by done. apply I5.
  - intros rid' s' l. destruct (decide (rid' = rid)) as [->|Hne].
    + rewrite Hsr. intros [= <-]. simpl. rewrite Hcl.
      destruct (s_callback s); [|done]. intros [= <-]. repeat split; try done.
      apply elem_of_app. right. apply list_elem_of_here.
    + rewrite Hso by done. intros Hs' Hc'.
      destruct (I6 rid' s' l Hs' Hc') as (? & ? & Hin). repeat split; try done.
      rewrite Hcl. destruct (s_callback s); [|done]. apply elem_of_app. by left.
  - intros rid' s' l. destruct (decide (rid' = rid)) as [->|Hne].
    + rewrite Hsr. intros [= <-]. simpl.
      destruct (s_callback s); [done|]. by intros [= <-].
    + rewrite Hso by done. apply I7.
Qed.

Lemma Inv_manager_request rid name opt w s :
  Inv w → sessions w !! rid = Some s →
  cont s = NotInvoked → waitLock s = Pending → released s = Pending →
  (∀ r, r ∈ queue w → rq_id r ≠ rid) →
  Inv (manager_request rid name opt w).
Proof.
  intros HI Hs Hc Hw Hr Hq. unfold manager_request.
  destruct (starts_with_hyphen name); [by apply Inv_reject_released|].
  destruct (_ && _); [by apply Inv_reject_released|].
  destruct (_ && _); [by apply Inv_reject_released|].
  destruct (_ && _); [by apply Inv_reject_released|].
  destruct (aborted_reason _ _); [by apply Inv_reject_released|].
  set (w1 := match opt_signal opt with
             | Some s0 => addEventListener s0 (HostAbort rid) w
             | None => w
             end).
  assert (held w1 = held w ∧ queue w1 = queue w ∧ sessions w1 = sessions w ∧
          lockMap w1 = lockMap w ∧ calls w1 = calls w) as (Hh1 & Hq1 & Hs1 & Hm1 & Hc1)
    by (unfold w1; by destruct (opt_signal opt)).
  assert (Inv w1) as HI1 by (by apply (Inv_same w)).
  clearbody w1. rewrite <- Hs1 in Hs. rewrite <- Hq1 in Hq. clear Hh1 Hq1 Hs1 Hm1 Hc1.
  set (r := mkRequest rid name (default exclusive (opt_mode opt))).
  destruct (default false (opt_steal opt)).
  - apply Inv_process_queue.
    set (w2 := evict name w1).
    assert (Inv w2) as HI2 by (by apply Inv_evict).
    destruct (evict_all_frame (filter (λ l, lock_name l = name) (held w1)) w1)
      as (Hq2 & _ & Hs2).
    fold (evict name w1) in Hq2, Hs2. fold w2 in Hq2, Hs2.
    apply (Inv_enqueue r (r :: queue w2) w2 s); try done.
    + simpl. rewrite Hs2; [done|]. intros l [_ Hl]%list_elem_of_filter E.
      destruct (inv_held w1 HI1 l Hl) as (s' & Hs' & Hrun).
      rewrite E, Hs in Hs'. injection Hs' as <-.
      destruct Hrun as [Hrun|Hrun]; congruence.
    + intros x. by rewrite elem_of_cons.
    + rewrite fmap_cons. apply NoDup_cons. split; [|apply HI2].
      rewrite Hq2. intros (r' & E & Hr')%list_elem_of_fmap.
      by apply (Hq r').
  - destruct (_ && _).
    + by apply (Inv_on_grant_null rid w1 s).
    + apply Inv_process_queue.
      apply (Inv_enqueue r (queue w1 ++ [r]) w1 s); try done.
      * intros x. rewrite elem_of_app, list_elem_of_singleton. tauto.
      * rewrite fmap_app. apply NoDup_app. split; [apply HI1|].
        split; [|apply NoDup_singleton].
        intros x (r' & E & Hr')%list_elem_of_fmap Hx%list_elem_of_singleton.
        apply (Hq r' Hr'). by rewrite <- E.
Qed.

Lemma request_unfold name opt callback w :
  Locks.delay_accepted opt = true →
  ∃ w1 signal,
    snd (Locks.request name opt callback w) =
      manager_request (length (sessions w)) name
        (mkOptions (opt_mode opt) (opt_ifAvailable opt) (opt_steal opt) signal
           (opt_timeout opt)) w1 ∧
    held w1 = held w ∧ queue w1 = queue w ∧
    sessions w1 = sessions w ++ [mkSession name callback Pending NotInvoked Pending] ∧
    lockMap w1 = lockMap w ∧ calls w1 = calls w.
Proof.
  intros Hok. unfold Locks.request. rewrite Hok.
  destruct (Locks.timeoutSignal opt), (opt_signal opt); simpl; eexists _, _;
    (split; [reflexivity|done]).
Qed.

(** The call in which [AbortSignal.timeout] throws. *)
Lemma request_throws name opt callback w :
  Locks.delay_accepted opt = false →
  snd (Locks.request name opt callback w) =
  update_session (length (sessions w)) (set_waitLock (reject Locks.out_of_range))
    (set_sessions (λ l, l ++ [mkSession name callback Pending NotInvoked Pending]) w).
Proof. intros Hno. unfold Locks.request. by rewrite Hno. Qed.

Lemma Inv_new_session s0 w :
  cont s0 = NotInvoked → Inv w → Inv (set_sessions (λ l, l ++ [s0]) w).
Proof.
  intros Hc0 [I1 I2 I3 I4 I5 I6 I7 I8 I9].
  assert (∀ rid s, (sessions w ++ [s0]) !! rid = Some s →
            sessions w !! rid = Some s ∨ s = s0) as Hold.
  { intros rid s [?|[_ H]]%lookup_app_Some; [by left|right].
    by apply list_elem_of_lookup_2, list_elem_of_singleton in H. }
  constructor; try assumption; wsimpl.
  - intros r Hr. destruct (I1 r Hr) as (s & Hs & ?). exists s.
    split; [|done]. by apply lookup_app_l_Some.
  - intros l Hl. destruct (I3 l Hl) as (s & Hs & ?). exists s.
    split; [|done]. by apply lookup_app_l_Some.
  - intros rid s l [Hs| ->]%Hold; [by apply I5|]. intros [?|?]; congruence.
  - intros rid s l [Hs| ->]%Hold; [by apply I6|]. congruence.
  - intros rid s l [Hs| ->]%Hold; [by apply (I7 rid)|]. congruence.
Qed.

Lemma Inv_request name opt callback w :
  Inv w → Inv (snd (Locks.request name opt callback w)).
Proof.
  intros HI.
  assert (∀ r, r ∈ queue w → rq_id r ≠ length (sessions w)) as Hfresh.
  { intros r Hr E. destruct (inv_queue w HI r Hr) as (s & Hs' & _).
    apply lookup_lt_Some in Hs'. lia. }
  destruct (Locks.delay_accepted opt) eqn:Hok.
  2:{ rewrite request_throws by done. apply Inv_update_session.
      - by apply Inv_new_session.
      - done.
      - intros s. simpl. repeat split; try done. by destruct (waitLock s). }
  destruct (request_unfold name opt callback w Hok)
    as (w1 & signal & -> & Hh & Hq & Hs & Hm & Hc).
  set (s0 := mkSession name callback Pending NotInvoked Pending) in *.
  assert (Inv w1) as HI1.
  { apply (Inv_same (set_sessions (λ l, l ++ [s0]) w)); try done.
    by apply Inv_new_session. }
  apply (Inv_manager_request _ _ _ _ s0); try done.
  - rewrite Hs. by apply list_lookup_middle.
  - rewrite Hq. intros r Hr E.
    destruct (inv_queue w HI r Hr) as (s & Hs' & _).
    apply lookup_lt_Some in Hs'. lia.
Qed.

Lemma Inv_init : Inv init.
Proof.
  constructor; simpl; try done; try apply NoDup_nil_2.
  - intros r Hr. by apply elem_of_nil in Hr.
  - intros l Hl. by apply elem_of_nil in Hl.
  - intros l l' Hl. by apply elem_of_nil in Hl.
Qed.

Lemma Inv_step e w : Inv w → Inv (step e w).
Proof.
  intros HI. destruct e as [name opt cb|lock|rid outcome| |s reason|s|rid]; simpl.
  - destruct (signal_exists _ _); [by apply Inv_request|done].
  - by apply Inv_release.
  - by apply Inv_callback_settles.
  - by apply (Inv_same w).
  - unfold controller_abort. destruct (signals w !! s) as [sg|]; [|done].
    destruct (sig_kind sg); try done. by apply Inv_signal_abort.
  - unfold timer_fires. destruct (signals w !! s) as [sg|]; [|done].
    destruct (sig_kind sg); try done. by apply Inv_signal_abort.
  - by apply Inv_resumes.
Qed.

Lemma reachable_Inv w : reachable w → Inv w.
Proof. induction 1; [apply Inv_init|by apply Inv_step]. Qed.

Lemma reachable_run es w : reachable w → reachable (run es w).
Proof.
  revert w. induction es as [|e es IH]; intros w Hw; [done|].
  simpl. by apply IH, reachable_step.
Qed.

Lemma shared_or_exclusive (h : list Lock) :
  Forall (λ l, lock_mode l = shared) h ∨ ∃ l, l ∈ h ∧ lock_mode l = exclusive.
Proof.
  induction h as [|l h [IH|(l' & Hl' & Hm)]].
  - by left.
  - destruct (lock_mode l) eqn:Hm.
    + left. by constructor.
    + right. exists l. split; [left|done].
  - right. exists l'. split; [by right|done].
Qed.

Lemma NoDup_all_equal {A} (h : list A) (x : A) :
  NoDup h → x ∈ h → (∀ y, y ∈ h → y = x) → h = [x].
Proof.
  intros Hnd Hx Hall. destruct h as [|a h]; [by apply elem_of_nil in Hx|].
  assert (a = x) as -> by (apply Hall; left).
  apply NoDup_cons in Hnd as [Hnx _]. destruct h as [|b h]; [done|].
  exfalso. apply Hnx. assert (b = x) as -> by (apply Hall; right; left). left.
Qed.

(** C9.  In every reachable state and for every name, the holders of the
    name are either all shared, or a single exclusive holder.  Transitions
    are atomic, a steal included: it evicts the holders of the name and
    grants in one step, so no state in between is ever observed. *)
Theorem holders_shared_or_one_exclusive (w : World) (N : string) :
  reachable w →
  Forall (λ l, lock_mode l = shared) (holders N w) ∨
  ∃ l, holders N w = [l] ∧ lock_mode l = exclusive.
Proof.
  intros HI%reachable_Inv.
  destruct (shared_or_exclusive (holders N w)) as [?|(l & Hl & Hm)]; [by left|].
  right. exists l. split; [|done].
  apply NoDup_all_equal; [apply NoDup_filter, HI|done|].
  unfold holders in *. apply list_elem_of_filter in Hl as [Hn Hl].
  intros l' [Hn' Hl']%list_elem_of_filter.
  apply (inv_exclusive w HI); try done. congruence.
Qed.

Lemma holders_shared_or_one_exclusive_witness :
  let w := step (CallRequest "a" (mkOptions (Some shared) None None None None) false)
             (step (CallRequest "a" (mkOptions (Some shared) None None None None) false)
                init) in
  holders "a" w = [mkLock 0 "a" shared; mkLock 1 "a" shared] ∧
  (Forall (λ l, lock_mode l = shared) (holders "a" w) ∨
   ∃ l, holders "a" w = [l] ∧ lock_mode l = exclusive).
Proof.
  intros w. split; [reflexivity|].
  apply holders_shared_or_one_exclusive.
  apply reachable_step, reachable_step, reachable_init.
Defined.

Lemma scan_held_inv name q w l :
  l ∈ held (scan name q w) → l ∈ held w ∨ ∃ r, r ∈ q ∧ l = lock_of r.
Proof.
  revert w. induction q as [|r0 q IH]; intros w; [by left|]. simpl.
  assert (∀ w0, l ∈ held (scan name q w0) →
            l ∈ held w0 ∨ ∃ r, r ∈ r0 :: q ∧ l = lock_of r) as IH'.
  { intros w0 [?|(r & ? & ?)]%IH; [by left|right]. exists r. split; [by right|done]. }
  destruct (String.eqb _ _); [|apply IH'].
  destruct (conflicts _ _ _); [by left|].
  intros [Hl|?]%IH'; [|by right]. rewrite held_grant in Hl.
  apply elem_of_app in Hl as [?| ->%list_elem_of_singleton]; [by left|right].
  exists r0. split; [left|done].
Qed.

(** The world after the continuation of a session has ended. *)
Lemma settle_spec rid lock outcome w s :
  Inv w → sessions w !! rid = Some s →
  cont s = AwaitCallback lock ∨ cont s = AwaitDone lock →
  let w' := settle rid lock outcome (update_session rid (set_cont Returned) w) in
  sessions w' !! rid =
    Some (match outcome with
          | inl v => set_released (resolve v) (set_cont Returned s)
          | inr e =>
            match released s with
            | Pending => mkSession (s_name s) (s_callback s) (reject e (waitLock s))
                           Returned (Rejected e)
            | _ => set_cont Returned s
            end
          end) ∧
  lockMap w' !! rid = lockMap w !! rid ∧
  (∀ l, l ∈ held w' → lock_id l ≠ rid).
Proof.
  intros HI Hs Hc. unfold settle.
  set (w1 := update_session rid (set_cont Returned) w).
  set (w2 := match lock with
             | Some l => process_queue (lock_name l)
                           (set_held (filter (λ h, lock_id h ≠ lock_id l)) w1)
             | None => w1
             end).
  assert (cont s ≠ NotInvoked) as Hc' by (destruct Hc as [Hc|Hc]; by rewrite Hc).
  assert (∀ r, r ∈ queue w → rq_id r ≠ rid) as Hq.
  { intros r Hr E. destruct (inv_queue w HI r Hr) as (s' & Hs' & ? & _). congruence. }
  assert (sessions w1 !! rid = Some (set_cont Returned s)) as Hs1.
  { unfold w1. by rewrite lookup_update_session, decide_True, Hs by done. }
  assert (sessions w2 !! rid = Some (set_cont Returned s) ∧
          lockMap w2 !! rid = lockMap w !! rid ∧
          ∀ l, l ∈ held w2 → lock_id l ≠ rid) as (Hs2 & Hm2 & Hh2).
  { unfold w2. destruct lock as [l|].
    - destruct (inv_running w HI rid s l Hs) as [Hid _]; [done|].
      unfold process_queue.
      destruct (scan_other (lock_name l)
                  (queue (set_held (filter (λ h, lock_id h ≠ lock_id l)) w1))
                  (set_held (filter (λ h, lock_id h ≠ lock_id l)) w1) rid Hq)
        as [-> ->]. repeat split; try done.
      intros l' [Hl'|(r & Hr & ->)]%scan_held_inv.
      + wsimpl. apply list_elem_of_filter in Hl' as [? _]. congruence.
      + by apply Hq.
    - repeat split; try done. intros l Hl E.
      destruct (inv_held w HI l Hl) as (s' & Hs' & Hrun).
      rewrite E, Hs in Hs'. injection Hs' as <-.
      destruct Hc as [Hc|Hc], Hrun as [Hr|Hr]; congruence. }
  clearbody w2. destruct outcome as [v|e].
  - unfold resolve_released. rewrite lookup_update_session, decide_True by done.
    by rewrite Hs2.
  - rewrite reject_released_sessions, decide_True by done.
    rewrite Hs2, (proj1 (proj2 (reject_released_frame _ _ _))), held_reject_released.
    repeat split; done.
Qed.

Lemma done_twice rid k w :
  Inv w → lockMap w !! k = Some rid →
  lockMap (done rid w) !! k = Some rid ∧ done rid (done rid w) = done rid w.
Proof.
  intros _ Hk. split; [done|]. unfold done, set_woken. simpl. f_equal.
  by rewrite (assoc_L (∪)), (idemp_L (∪)).
Qed.

(** C5.  [release] never throws.  It calls the wake action ([done]) that
    [#lockMap] associates with the handle; a value with no entry, [null]
    included, leaves the world as it is; and in a reachable world a second
    [release] of the same handle changes nothing. *)
Theorem release_idempotent_total (lock : value) (w : World) :
  (∃ w', Locks.release lock w = Normal w') ∧
  (∀ rid, weakmap_get (lockMap w) lock = Some rid →
     Locks.release lock w = Normal (done rid w)) ∧
  (weakmap_get (lockMap w) lock = None → Locks.release lock w = Normal w) ∧
  weakmap_get (lockMap w) VNull = None ∧
  (reachable w →
   ∀ w1, Locks.release lock w = Normal w1 → Locks.release lock w1 = Normal w1).
Proof.
  unfold Locks.release. repeat split.
  - destruct (weakmap_get _ _); eauto.
  - by intros rid ->.
  - by intros ->.
  - intros HI%reachable_Inv w1.
    destruct (weakmap_get (lockMap w) lock) as [rid|] eqn:Hget.
    + intros [= <-]. destruct lock as [| | | |l| | | |]; try done. simpl in *.
      destruct (done_twice rid (lock_id l) w HI Hget) as [Hm E].
      simpl in Hm. by rewrite Hm, E.
    + intros [= <-]. by rewrite Hget.
Qed.

Lemma release_idempotent_total_witness :
  let w := step (CallRequest "a" no_options false) init in
  let lock := VLock (mkLock 0 "a" exclusive) in
  let w1 := done 0 w in
  Locks.release lock w = Normal w1 ∧ woken w1 = {[0]} ∧
  Locks.release lock w1 = Normal w1.
Proof.
  intros w lock w1. split; [reflexivity|]. split; [reflexivity|].
  apply (proj2 (proj2 (proj2 (proj2 (release_idempotent_total lock w))))).
  - apply reachable_step, reachable_init.
  - reflexivity.
Defined.

(** Which transitions can take a lock out of the held set. *)
Lemma held_id_inj w l l' :
  Inv w → l ∈ held w → l' ∈ held w → lock_id l' = lock_id l → l' = l.
Proof.
  intros HI Hl Hl' E.
  destruct (inv_held w HI l Hl) as (s & Hs & Hrun).
  destruct (inv_held w HI l' Hl') as (s' & Hs' & Hrun').
  rewrite E, Hs in Hs'. injection Hs' as <-.
  destruct Hrun as [Hr|Hr], Hrun' as [Hr'|Hr']; congruence.
Qed.

Lemma settle_keeps rid lock outcome w l :
  l ∈ held w → (∀ lk, lock = Some lk → lock_id lk ≠ lock_id l) →
  l ∈ held (settle rid lock outcome (update_session rid (set_cont Returned) w)).
Proof.
  intros Hl Hne. unfold settle.
  set (w2 := match lock with Some _ => _ | None => _ end).
  assert (l ∈ held w2) as Hl2.
  { unfold w2. destruct lock as [lk|]; [|done]. apply scan_held. wsimpl.
    apply list_elem_of_filter. split; [|done]. intros E. by apply (Hne lk). }
  clearbody w2. destruct outcome; [done|]. by rewrite held_reject_released.
Qed.

Lemma abort_request_keeps rid reason w l :
  l ∈ held w → l ∈ held (abort_request rid reason w).
Proof.
  intros Hl. unfold abort_request. destruct (List.find _ _); [|done].
  rewrite held_reject_released. by apply scan_held.
Qed.

Lemma signal_abort_keeps fuel s reason w l :
  l ∈ held w → l ∈ held (signal_abort fuel s reason w).
Proof.
  revert s reason w. induction fuel as [|fuel IH]; intros s reason w Hl; [done|].
  simpl. destruct (signals w !! s) as [sg|]; [|done].
  destruct (sig_reason sg); [done|].
  set (w1 := set_signals _ w). assert (l ∈ held w1) as Hl1 by done.
  clearbody w1. revert w1 Hl1.
  induction (sig_listeners sg) as [|x ls IHl]; intros w1 Hl1; [done|].
  simpl. apply IHl. destruct x; auto using abort_request_keeps.
Qed.

Lemma evict_all_keeps victims w l :
  l ∈ held w → (∀ v, v ∈ victims → lock_id v ≠ lock_id l) →
  l ∈ held (fold_left (λ w l, evict_lock l w) victims w).
Proof.
  revert w. induction victims as [|v victims IH]; intros w Hl Hv; [done|].
  simpl. apply IH; [|intros v' Hv'; apply Hv; by right].
  unfold evict_lock. rewrite held_reject_released. wsimpl.
  apply list_elem_of_filter. split; [|done]. intros E. apply (Hv v); [left|done].
Qed.

Lemma manager_request_keeps rid name opt w l :
  l ∈ held w → (∀ l', l' ∈ held w → lock_id l' = lock_id l → l' = l) →
  (opt_steal opt = Some true → name ≠ lock_name l) →
  l ∈ held (manager_request rid name opt w).
Proof.
  intros Hl Hinj Hsteal. unfold manager_request.
  destruct (starts_with_hyphen name); [by rewrite held_reject_released|].
  destruct (_ && _); [by rewrite held_reject_released|].
  destruct (_ && _); [by rewrite held_reject_released|].
  destruct (_ && _); [by rewrite held_reject_released|].
  destruct (aborted_reason _ _); [by rewrite held_reject_released|].
  set (w1 := match opt_signal opt with Some _ => _ | None => _ end).
  assert (held w1 = held w) as Hh1 by (unfold w1; by destruct (opt_signal opt)).
  clearbody w1. destruct (opt_steal opt) as [[|]|]; simpl.
  - apply scan_held. wsimpl. apply evict_all_keeps; [by rewrite Hh1|].
    rewrite Hh1. intros v [Hn Hv]%list_elem_of_filter E.
    apply Hsteal; [done|]. by rewrite <- (Hinj v Hv E).
  - destruct (_ && _).
    + by rewrite (proj1 (on_grant_frame _ _ _)), Hh1.
    + apply scan_held. wsimpl. by rewrite Hh1.
  - destruct (_ && _).
    + by rewrite (proj1 (on_grant_frame _ _ _)), Hh1.
    + apply scan_held. wsimpl. by rewrite Hh1.
Qed.

Lemma step_takes_lock e w l s :
  Inv w → l ∈ held w → sessions w !! lock_id l = Some s →
  cont s = AwaitCallback (Some l) → l ∉ held (step e w) →
  (∃ outcome, e = CallbackSettles (lock_id l) outcome) ∨
  (∃ opt cb, e = CallRequest (lock_name l) opt cb ∧ opt_steal opt = Some true).
Proof.
  intros HI Hl Hs Hc Hgone.
  destruct e as [name opt cb|lock|rid outcome| |sg reason|sg|rid]; simpl in Hgone.
  - destruct (decide (opt_steal opt = Some true ∧ name = lock_name l))
      as [[? ->]|Hno]; [right; eauto|].
    exfalso. apply Hgone. destruct (signal_exists _ _); [|done].
    destruct (Locks.delay_accepted opt) eqn:Hok;
      [|by rewrite request_throws by done].
    destruct (request_unfold name opt cb w Hok) as (w1 & signal & -> & Hh & _).
    apply manager_request_keeps.
    + by rewrite Hh.
    + rewrite Hh. intros l' Hl' E. by apply (held_id_inj w).
    + simpl. tauto.
  - exfalso. apply Hgone. unfold Locks.release.
    by destruct (weakmap_get _ _) as [rid|].
  - destruct (decide (rid = lock_id l)) as [->|Hne]; [left; eauto|].
    exfalso. apply Hgone. unfold callback_settles.
    destruct (sessions w !! rid) as [s'|] eqn:Hs'; [|done].
    destruct (cont s') as [|lk|lk|] eqn:Hc'; try done.
    apply settle_keeps; [done|]. intros lk' -> E.
    destruct (inv_running w HI rid s' lk' Hs') as [Hid _]; [by left|].
    congruence.
  - by exfalso.
  - exfalso. apply Hgone. unfold controller_abort.
    destruct (signals w !! sg) as [x|]; [|done].
    destruct (sig_kind x); try done. by apply signal_abort_keeps.
  - exfalso. apply Hgone. unfold timer_fires.
    destruct (signals w !! sg) as [x|]; [|done].
    destruct (sig_kind x); try done. by apply signal_abort_keeps.
  - exfalso. apply Hgone. unfold resumes.
    destruct (sessions w !! rid) as [s'|] eqn:Hs'; [|done].
    destruct (cont s') as [|lk|lk|] eqn:Hc'; try done.
    case_bool_decide; [|done].
    apply settle_keeps; [done|]. intros lk' -> E.
    destruct (inv_running w HI rid s' lk' Hs') as [Hid _]; [by right|].
    rewrite E in Hid. rewrite Hid, Hs' in Hs. congruence.
Qed.

(** C3, refuted as stated: the callback of request 0 is still executing,
    yet its lock has been taken by the stealing request 1. *)
Lemma callback_lock_stolen :
  let w := run [CallRequest "a" no_options true;
                CallRequest "a" (mkOptions None None (Some true) None None) false]
             init in
  cont <$> sessions w !! 0 = Some (AwaitCallback (Some (mkLock 0 "a" exclusive))) ∧
  mkLock 0 "a" exclusive ∉ held w.
Proof.
  split; [reflexivity|]. vm_compute.
  intros H%list_elem_of_singleton. discriminate.
Qed.

(** C3, amended.  For a lock that is held by a request made with a
    callback: the promise returned by [request] is fulfilled with the lock
    handle and the callback has been invoked with that handle (this holds
    in every reachable state in which the lock is held, hence from the
    very transition that granted it); the lock stays held across every
    transition except the settling of that callback and a stealing request
    for the same name; and when the callback settles, with success or with
    failure, the lock is no longer held. *)
Theorem callback_lock_lifecycle (w : World) (l : Lock) (s : Session) :
  reachable w → l ∈ held w →
  sessions w !! lock_id l = Some s → s_callback s = true →
  (waitLock s = Fulfilled (VLock l) ∧ cont s = AwaitCallback (Some l) ∧
   (lock_id l, VLock l) ∈ calls w) ∧
  (∀ e, l ∉ held (step e w) →
     (∃ outcome, e = CallbackSettles (lock_id l) outcome) ∨
     (∃ opt cb, e = CallRequest (lock_name l) opt cb ∧ opt_steal opt = Some true)) ∧
  (∀ outcome, l ∉ held (step (CallbackSettles (lock_id l) outcome) w)).
Proof.
  intros HI%reachable_Inv Hl Hs Hcb.
  assert (cont s = AwaitCallback (Some l)) as Hc.
  { destruct (inv_held w HI l Hl) as (s' & Hs' & [Hrun|Hrun]).
    - congruence.
    - rewrite Hs in Hs'. injection Hs' as <-.
      destruct (inv_done w HI _ _ _ Hs Hrun). congruence. }
  split; [|split].
  - destruct (inv_callback w HI _ _ _ Hs Hc) as (_ & ? & ?). done.
  - intros e. by apply (step_takes_lock e w l s).
  - intros outcome Hin. simpl in Hin. unfold callback_settles in Hin.
    rewrite Hs, Hc in Hin.
    destruct (settle_spec (lock_id l) (Some l) outcome w s HI Hs) as (_ & _ & Hh);
      [by left|].
    by apply (Hh l).
Qed.

Lemma callback_lock_lifecycle_witness :
  let w := step (CallRequest "a" no_options true) init in
  let l := mkLock 0 "a" exclusive in
  (future 0 w = Some (Fulfilled (VLock l)) ∧ (0, VLock l) ∈ calls w) ∧
  (∀ outcome, l ∉ held (step (CallbackSettles 0 outcome) w)).
Proof.
  intros w l.
  destruct (callback_lock_lifecycle w l
              (mkSession "a" true (Fulfilled (VLock l)) (AwaitCallback (Some l)) Pending))
    as ((Hw & _ & Hc) & _ & Hr).
  - apply reachable_step, reachable_init.
  - vm_compute. apply list_elem_of_here.
  - reflexivity.
  - reflexivity.
  - split; [split; [reflexivity|exact Hc]|exact Hr].
Defined.

(** C4, refuted as stated: the callback of request 0 fails, and the promise
    that [request] returned stays fulfilled with the lock; the failure does
    not reach it. *)
Lemma callback_failure_not_propagated :
  let w := run [CallRequest "a" no_options true;
                CallbackSettles 0 (inr (VError "boom"))] init in
  future 0 w = Some (Fulfilled (VLock (mkLock 0 "a" exclusive))) ∧
  future 0 w ≠ Some (Rejected (VError "boom")).
Proof. split; [reflexivity|discriminate]. Qed.

(** C4, amended.  When the callback of a request fails after the grant,
    the promise returned by [request] keeps the value it was fulfilled with
    at the grant (the handle, or [null] after an [ifAvailable] miss); the
    failure only rejects the promise of the lock manager, unless that one
    is settled already; and the lock of the request is no longer held. *)
Theorem callback_failure_contained (w : World) (rid : nat) (s : Session)
    (lock : option Lock) (err : value) :
  reachable w → sessions w !! rid = Some s → cont s = AwaitCallback lock →
  let w' := step (CallbackSettles rid (inr err)) w in
  future rid w' = Some (Fulfilled (lock_value lock)) ∧
  released <$> sessions w' !! rid = Some (reject err (released s)) ∧
  (∀ l, l ∈ held w' → lock_id l ≠ rid).
Proof.
  intros HI%reachable_Inv Hs Hc. simpl. unfold callback_settles, future.
  rewrite Hs, Hc.
  destruct (settle_spec rid lock (inr err) w s HI Hs) as (-> & _ & Hh); [by left|].
  destruct (inv_callback w HI _ _ _ Hs Hc) as (_ & Hw & _).
  split; [|split; [|done]].
  - destruct (released s); simpl; by rewrite Hw.
  - destruct (released s) eqn:E; simpl; by rewrite ?E.
Qed.

Lemma callback_failure_contained_witness :
  let w := step (CallRequest "a" no_options true) init in
  let l := mkLock 0 "a" exclusive in
  let w' := step (CallbackSettles 0 (inr (VError "boom"))) w in
  future 0 w' = Some (Fulfilled (VLock l)) ∧
  released <$> sessions w' !! 0 = Some (Rejected (VError "boom")) ∧
  (∀ l, l ∈ held w' → lock_id l ≠ 0).
Proof.
  intros w l.
  refine (callback_failure_contained w 0
            (mkSession "a" true (Fulfilled (VLock l)) (AwaitCallback (Some l)) Pending)
            (Some l) (VError "boom") _ _ _).
  - apply reachable_step, reachable_init.
  - reflexivity.
  - reflexivity.
Defined.

(** ** Cancellation sources *)




Lemma evict_signals name w : signals (evict name w) = signals w.
Proof. apply (evict_all_frame _ w). Qed.






(** C1, where the code departs from it.  Request 1 waits for a lock that
    request 0 holds, with the caller's signal 1 and a timeout of 50 ms
    (signal 2).  When the timeout fires first the promise is rejected with
    the abort event that the listener received, which has no [name], not
    with a TimeoutError; the same request without a caller signal is
    rejected with a TimeoutError.  When the caller's signal fires first the
    rejection is an AbortError.  In both orders the source that fires
    second changes nothing. *)
Theorem timeout_behind_signal_rejects_with_event :
  let holder := CallRequest "a" no_options false in
  let both := mkOptions None None None (Some 1) (Some 50%Z) in
  let only_timeout := mkOptions None None None None (Some 50%Z) in
  let w := run [holder; NewController; CallRequest "a" both false] init in
  future 1 w = Some Pending ∧
  future 1 (step (TimerFires 2) w) = Some (Rejected (VEvent "abort")) ∧
  get_name (VEvent "abort") ≠ Some "TimeoutError" ∧
  future 1 (run [TimerFires 2; ControllerAbort 1 None] w)
    = Some (Rejected (VEvent "abort")) ∧
  future 1 (step (ControllerAbort 1 None) w)
    = Some (Rejected (VDOMException "AbortError")) ∧
  future 1 (run [ControllerAbort 1 None; TimerFires 2] w)
    = Some (Rejected (VDOMException "AbortError")) ∧
  future 1 (run [holder; CallRequest "a" only_timeout false; TimerFires 1] init)
    = Some (Rejected (VDOMException "TimeoutError")).
Proof. repeat split; try reflexivity. discriminate. Qed.

(** C7, where the code departs from it.  Request 0 holds "a" exclusively.
    A request for "a" with [ifAvailable] and no other option gets the
    default timeout of 10000 ms, so the lock manager is handed a signal
    together with [ifAvailable] and refuses the call: the promise is
    rejected with a NotSupportedError.  With the timeout switched off the
    same request is fulfilled with [null] at once and is never queued. *)
Theorem ifAvailable_refused_with_default_timeout :
  let w := step (CallRequest "a" no_options false) init in
  let ask timeout := CallRequest "a" (mkOptions None (Some true) None None timeout) false in
  future 1 (step (ask None) w) = Some (Rejected (VDOMException "NotSupportedError")) ∧
  future 1 (step (ask (Some 0%Z)) w) = Some (Fulfilled VNull) ∧
  queue (step (ask (Some 0%Z)) w) = [].
Proof. repeat split; reflexivity. Qed.

(** ** The fuel of [signal_abort] is enough *)

Lemma fmap_alter_same {A B} (f : A → B) (g : A → A) (i : nat) (l : list A) :
  (∀ x, f (g x) = f x) → f <$> alter g i l = f <$> l.
Proof.
  intros Hf. revert i. induction l as [|a l IH]; intros [|i]; try done.
  - csimpl. by rewrite Hf.
  - specialize (IH i). change (f <$> a :: alter g i l = f <$> a :: l).
    csimpl. by rewrite IH.
Qed.

Lemma signals_abort_request rid reason w :
  signals (abort_request rid reason w) = signals w.
Proof.
  unfold abort_request. destruct (List.find _ _); [|done].
  rewrite (proj1 (reject_released_frame _ _ _)). unfold process_queue.
  by rewrite scan_signals.
Qed.

Lemma listeners_signal_abort fuel s r w :
  listeners_of (signal_abort fuel s r w) = listeners_of w.
Proof.
  revert s r w. induction fuel as [|fuel IH]; intros s r w; [done|].
  simpl. destruct (signals w !! s) as [sg|]; [|done].
  destruct (sig_reason sg); [done|].
  set (w1 := set_signals _ w).
  assert (listeners_of w1 = listeners_of w) as <- by (by apply fmap_alter_same).
  clearbody w1. revert w1.
  induction (sig_listeners sg) as [|l ls IHl]; intros w1; [done|].
  simpl. rewrite IHl. destruct l; rewrite ?IH; try done.
  unfold listeners_of. by rewrite signals_abort_request.
Qed.

Lemma signal_abort_enough fuel1 fuel2 s r w :
  forward (listeners_of w) →
  length (signals w) - s ≤ fuel1 → length (signals w) - s ≤ fuel2 →
  signal_abort fuel1 s r w = signal_abort fuel2 s r w.
Proof.
  revert fuel2 s r w.
  induction fuel1 as [|f1 IH]; intros [|f2] s r w Hf H1 H2; try done.
  - simpl. by rewrite lookup_ge_None_2 by lia.
  - simpl. by rewrite lookup_ge_None_2 by lia.
  - simpl. destruct (signals w !! s) as [sg|] eqn:Hs; [|done].
    destruct (sig_reason sg); [done|].
    set (w1 := set_signals _ w).
    assert (listeners_of w1 = listeners_of w) as Hl1 by (by apply fmap_alter_same).
    assert (∀ l c, l ∈ sig_listeners sg → target l = Some c → s < c) as Htar.
    { intros l c Hl Hc. apply (Hf s l c); [|done].
      unfold listeners_of. by rewrite list_lookup_fmap, Hs. }
    apply lookup_lt_Some in Hs.
    clearbody w1. revert w1 Hl1 Htar.
    induction (sig_listeners sg) as [|l ls IHl]; intros w1 Hl1 Htar; [done|].
    simpl.
    assert (length (signals w1) = length (signals w)) as Hlen.
    { rewrite <- (length_fmap sig_listeners (signals w1)).
      fold (listeners_of w1). rewrite Hl1. apply length_fmap. }
    assert (∀ c reason, target l = Some c →
              signal_abort f1 c reason w1 = signal_abort f2 c reason w1) as Hsub.
    { intros c reason Hc. assert (s < c) by (apply (Htar l); [left|done]).
      apply IH; [by rewrite Hl1|lia..]. }
    assert (∀ l' c, l' ∈ ls → target l' = Some c → s < c) as Htar'
      by (intros l' c Hl'; apply Htar; by right).
    destruct l as [c|c|rid]; rewrite ?(Hsub c) by done; apply IHl; try done.
    + by rewrite listeners_signal_abort.
    + by rewrite listeners_signal_abort.
    + unfold listeners_of. by rewrite signals_abort_request.
Qed.

Lemma forward_snoc ls : forward ls → forward (ls ++ [[]]).
Proof.
  intros Hf s l c Hl. apply (Hf s l c).
  destruct ((ls ++ [[]]) !! s) as [x|] eqn:E; [|by apply elem_of_nil in Hl].
  apply lookup_app_Some in E as [->|[_ E]]; [done|].
  apply list_elem_of_lookup_2, list_elem_of_singleton in E. subst x.
  by apply elem_of_nil in Hl.
Qed.

Lemma listeners_new_signal k w :
  listeners_of (snd (new_signal k w)) = listeners_of w ++ [[]].
Proof. unfold listeners_of. simpl. by rewrite fmap_app. Qed.

Lemma forward_addEventListener s l w :
  forward (listeners_of w) → (∀ c, target l = Some c → s < c) →
  forward (listeners_of (addEventListener s l w)).
Proof.
  intros Hf Hl s' l' c. unfold listeners_of, addEventListener. wsimpl.
  rewrite list_lookup_fmap, list_lookup_alter.
  destruct (decide (s = s')) as [<-|Hne].
  - destruct (signals w !! s) as [sg|] eqn:Hs; [|by intros ?%elem_of_nil].
    simpl. intros [Hin| ->%list_elem_of_singleton]%elem_of_app; [|apply Hl].
    apply (Hf s l' c). unfold listeners_of. by rewrite list_lookup_fmap, Hs.
  - intros Hin. apply (Hf s' l' c). unfold listeners_of.
    by rewrite list_lookup_fmap.
Qed.

Lemma signals_settle rid lock outcome w :
  signals (settle rid lock outcome w) = signals w.
Proof.
  unfold settle. set (w1 := match lock with Some _ => _ | None => _ end).
  assert (signals w1 = signals w) as <-.
  { unfold w1. destruct lock; [|done]. unfold process_queue. by rewrite scan_signals. }
  clearbody w1. destruct outcome; [done|apply reject_released_frame].
Qed.

Lemma forward_manager_request rid name opt w :
  forward (listeners_of w) → forward (listeners_of (manager_request rid name opt w)).
Proof.
  intros Hf. unfold manager_request, listeners_of at 1.
  assert (∀ err, signals (reject_released rid err w) = signals w) as Hrej
    by (intros err; apply reject_released_frame).
  destruct (starts_with_hyphen name); [by rewrite Hrej|].
  destruct (_ && _); [by rewrite Hrej|].
  destruct (_ && _); [by rewrite Hrej|].
  destruct (_ && _); [by rewrite Hrej|].
  destruct (aborted_reason _ _); [by rewrite Hrej|].
  set (w1 := match opt_signal opt with Some _ => _ | None => _ end).
  assert (forward (listeners_of w1)) as Hf1.
  { unfold w1. destruct (opt_signal opt); [|done].
    by apply forward_addEventListener. }
  clearbody w1. unfold process_queue.
  destruct (default false (opt_steal opt)).
  - rewrite scan_signals. wsimpl. by rewrite evict_signals.
  - destruct (_ && _).
    + by rewrite (proj2 (proj2 (on_grant_frame _ _ _))).
    + by rewrite scan_signals.
Qed.

Lemma forward_request name opt callback w :
  signal_exists (opt_signal opt) w = true →
  forward (listeners_of w) →
  forward (listeners_of (snd (Locks.request name opt callback w))).
Proof.
  intros Hex Hf.
  destruct (Locks.delay_accepted opt) eqn:Hok;
    [|by rewrite request_throws by done].
  unfold Locks.request. rewrite Hok.
  set (w0 := set_sessions _ w).
  assert (listeners_of w0 = listeners_of w) as Hl0 by done.
  assert (length (signals w0) = length (signals w)) as Hn0 by done.
  clearbody w0.
  destruct (Locks.timeoutSignal opt) as [ms|]; destruct (opt_signal opt) as [ext|];
    simpl; apply forward_manager_request.
  - apply bool_decide_eq_true in Hex.
    apply forward_addEventListener; [apply forward_addEventListener|].
    + change (forward (listeners_of (snd (new_signal InnerController
                                         (snd (new_signal (Timer ms) w0)))))).
      rewrite !listeners_new_signal, Hl0. by apply forward_snoc, forward_snoc.
    + intros c [= <-]. rewrite length_app. simpl. lia.
    + intros c [= <-]. rewrite length_app. simpl. lia.
  - change (forward (listeners_of (snd (new_signal (Timer ms) w0)))).
    rewrite listeners_new_signal, Hl0. by apply forward_snoc.
  - apply bool_decide_eq_true in Hex. apply forward_addEventListener.
    + change (forward (listeners_of (snd (new_signal InnerController w0)))).
      rewrite listeners_new_signal, Hl0. by apply forward_snoc.
    + intros c [= <-]. lia.
  - by rewrite Hl0.
Qed.

Lemma forward_step e w :
  forward (listeners_of w) → forward (listeners_of (step e w)).
Proof.
  intros Hf. destruct e as [name opt cb|lock|rid outcome| |s reason|s|rid]; simpl.
  - destruct (signal_exists _ _) eqn:E; [by apply forward_request|done].
  - unfold Locks.release. by destruct (weakmap_get _ _) as [rid|].
  - unfold callback_settles. destruct (sessions w !! rid) as [x|]; [|done].
    destruct (cont x); try done. unfold listeners_of. by rewrite signals_settle.
  - change (forward (listeners_of (snd (new_signal CallerController w)))).
    rewrite listeners_new_signal. by apply forward_snoc.
  - unfold controller_abort. destruct (signals w !! s) as [x|]; [|done].
    destruct (sig_kind x); try done. by rewrite listeners_signal_abort.
  - unfold timer_fires. destruct (signals w !! s) as [x|]; [|done].
    destruct (sig_kind x); try done. by rewrite listeners_signal_abort.
  - unfold resumes. destruct (sessions w !! rid) as [x|]; [|done].
    destruct (cont x); try done. case_bool_decide; [|done].
    unfold listeners_of. by rewrite signals_settle.
Qed.

Lemma reachable_forward w : reachable w → forward (listeners_of w).
Proof.
  induction 1 as [|e w _ IH]; [|by apply forward_step].
  intros s l c Hl. by apply elem_of_nil in Hl.
Qed.

(** In a reachable world the fuel that the transitions give to
    [signal_abort] lets every listener run: more fuel changes nothing. *)
Lemma abort_fuel_enough w extra s r :
  reachable w →
  signal_abort (abort_fuel w + extra) s r w = signal_abort (abort_fuel w) s r w.
Proof.
  intros Hf%reachable_forward. unfold abort_fuel.
  apply signal_abort_enough; [done|lia..].
Qed.

(** ** Introspection *)

(** C6. [find(name)] yields a boolean, and that boolean is [true] exactly
    when [name] occurs in the held list or in the pending list that
    [list()] reports for the same world. *)
Theorem find_iff_listed (name : string) (w : World) :
  ∃ b : bool,
    Locks.find name w = VBool b ∧
    (b = true ↔
       (∃ i, i ∈ held_of (Locks.list w) ∧ info_name i = name) ∨
       (∃ i, i ∈ pending_of (Locks.list w) ∧ info_name i = name)).
Proof.
  unfold Locks.find, Locks.find_in, Locks.list, manager_query, held_of, pending_of.
  cbn [snap_held snap_pending truthy].
  set (h := _ <$> held w). set (p := _ <$> queue w).
  destruct (some_named name h) eqn:Eh; eexists; (split; [reflexivity|]);
    rewrite <- !some_named_spec, Eh.
  - tauto.
  - destruct (some_named name p); intuition congruence.
Qed.

(** C8, refuted as stated: the lock named by the empty string is held, yet
    [status] of that name is [undefined]. *)
Lemma status_empty_name_undefined :
  let w := run [CallRequest EmptyString no_options false] init in
  (∃ i, i ∈ held_of (Locks.list w) ∧ Some (info_name i) = Locks.innerName (VString EmptyString))
  ∧ Locks.status (VString EmptyString) w = None.
Proof.
  split; [|reflexivity].
  exists (mkLockInfo EmptyString exclusive client). split; [|reflexivity].
  vm_compute. apply list_elem_of_here.
Qed.


(** C8, amended.  [status] resolves the name of its argument: the string
    itself, or the [name] property of any other value (the name of a
    handle, but also the name of an error object).  When that name is a
    non-empty string the result is [undefined] if no snapshot entry carries
    it, and otherwise an object that carries the name and whose [held] and
    [pending] flags say whether a held, respectively a pending, entry
    carries it.  When the name is empty or the argument has none ([null],
    [undefined], a boolean, an event), the result is [undefined]. *)
Theorem status_reports_name (arg : value) (w : World) :
  (∀ n, Locks.innerName arg = Some n → n ≠ EmptyString →
     let h := some_named n (held_of (Locks.list w)) in
     let p := some_named n (pending_of (Locks.list w)) in
     if h || p
     then ∃ st, Locks.status arg w = Some st ∧
                st_held st = h ∧ st_pending st = p ∧ info_name (st_info st) = n
     else Locks.status arg w = None)
  ∧ (Locks.innerName arg = None ∨ Locks.innerName arg = Some EmptyString →
     Locks.status arg w = None).
Proof.
  unfold Locks.status, Locks.status_in, Locks.list, held_of, pending_of.
  set (all := manager_query w). cbn [all manager_query snap_held snap_pending].
  set (held := _ <$> _). set (pending := _ <$> _). split.
  - intros n -> Hn. destruct (String.eqb_spec n EmptyString) as [|_]; [done|].
    rewrite <- !last_named_is_some.
    destruct (last_named n held) as [i|] eqn:Eh.
    + simpl. eexists. split; [reflexivity|]. simpl. eauto using last_named_name.
    + destruct (last_named n pending) as [i|] eqn:Ep; [|done].
      simpl. eexists. split; [reflexivity|]. simpl. eauto using last_named_name.
  - by intros [->| ->].
Qed.

Lemma status_reports_name_witness :
  let w := run [CallRequest "a" no_options false; CallRequest "a" no_options false] init in
  ∃ st, Locks.status (VString "a") w = Some st ∧
        st_held st = true ∧ st_pending st = true ∧ info_name (st_info st) = "a".
Proof.
  intros w.
  exact (proj1 (status_reports_name (VString "a") w) "a" eq_refl ltac:(discriminate)).
Defined.

(** C10.  Whenever [status] returns an object, its [LockInfo] fields are
    those of the last held entry carrying the name if there is one, and
    otherwise those of the last pending entry carrying it; the [held] and
    [pending] flags only say whether the held, respectively the pending,
    list contains an entry with the name. *)
Theorem status_fields_of_last_match (all : Snapshot) (arg : value) (st : Status) :
  Locks.status_in all arg = Some st →
  ∃ n, Locks.innerName arg = Some n ∧
    Some (st_info st) =
      match last (named n (held_of all)) with
      | Some i => Some i
      | None => last (named n (pending_of all))
      end ∧
    st_held st = some_named n (held_of all) ∧
    st_pending st = some_named n (pending_of all).
Proof.
  unfold Locks.status_in, held_of, pending_of.
  destruct (Locks.innerName arg) as [n|]; [|done]. intros H. exists n.
  split; [done|]. destruct (String.eqb n EmptyString); [done|].
  rewrite <- !last_named_is_some, <- !last_named_spec.
  assert (∀ o : option (list LockInfo),
    match o with Some l => last_named n l | None => None end
    = last_named n match o with Some l => l | None => [] end) as E by (by intros []).
  rewrite !E in H. clear E.
  destruct (last_named n _) as [i|]; simpl in *.
  - by injection H as <-.
  - destruct (last_named n _) as [i|]; [|done]. by injection H as <-.
Qed.

Lemma status_fields_of_last_match_witness :
  let i1 := mkLockInfo "a" shared "c1" in
  let i2 := mkLockInfo "a" shared "c2" in
  let j1 := mkLockInfo "a" exclusive "c3" in
  let all := mkSnapshot (Some [i1; mkLockInfo "b" exclusive "c1"; i2]) (Some [j1]) in
  ∃ n, Locks.innerName (VString "a") = Some n ∧
    Some i2 =
      match last (named n (held_of all)) with
      | Some i => Some i
      | None => last (named n (pending_of all))
      end ∧
    true = some_named n (held_of all) ∧
    true = some_named n (pending_of all).
Proof.
  intros i1 i2 j1 all.
  exact (status_fields_of_last_match all (VString "a") (mkStatus true true i2) eq_refl).
Defined.

(** * Further properties *)

(** ** Every transition is a sequence of elementary updates *)

Lemma keeps_resolve v p : keeps p (resolve v p).
Proof. destruct p; [by left|by right..]. Qed.

Lemma keeps_reject v p : keeps p (reject v p).
Proof. destruct p; [by left|by right..]. Qed.

Lemma keeps_refl p : keeps p p.
Proof. by right. Qed.

Lemma keeps_trans p q r : keeps p q → keeps q r → keeps p r.
Proof. intros [-> | ->]; [by left|done]. Qed.

Local Hint Resolve keeps_resolve keeps_reject keeps_refl : core.

Lemma evolves_on_catch rid err w : rtc prim w (on_catch rid err w).
Proof.
  unfold on_catch. destruct (sessions w !! rid) as [s|]; [|done].
  unfold rejectorLock. eapply rtc_r; [|apply prim_update].
  - destruct (get_name err) as [n|]; [|done].
    destruct (String.eqb n "TimeoutError"); [|done]. apply rtc_once, prim_console.
  - intros s0. simpl. auto 10.
Qed.

Lemma evolves_reject_released rid err w : rtc prim w (reject_released rid err w).
Proof.
  unfold reject_released. destruct (sessions w !! rid) as [s|]; [|done].
  destruct (released s); try done.
  eapply rtc_l; [|apply evolves_on_catch]. apply prim_update.
  intros s0. simpl. auto 10.
Qed.

Lemma evolves_resolve_released rid v w : rtc prim w (resolve_released rid v w).
Proof. apply rtc_once, prim_update. intros s0. simpl. auto 10. Qed.

Lemma evolves_grant r w : rtc prim w (grant r w).
Proof.
  unfold grant. eapply rtc_l; [apply prim_queue|].
  eapply rtc_l; [apply prim_held|]. apply rtc_once, prim_grant. by intros l [= <-].
Qed.

Lemma evolves_scan name q w : rtc prim w (scan name q w).
Proof.
  revert w. induction q as [|r q IH]; intros w; [done|]. simpl.
  destruct (String.eqb _ _); [|apply IH].
  destruct (conflicts _ _ _); [done|].
  etrans; [apply evolves_grant|apply IH].
Qed.

Lemma evolves_settle rid lock outcome w : rtc prim w (settle rid lock outcome w).
Proof.
  unfold settle. set (w1 := match lock with Some _ => _ | None => _ end).
  assert (rtc prim w w1) as H1.
  { unfold w1. destruct lock; [|done].
    eapply rtc_l; [apply prim_held|]. apply evolves_scan. }
  etrans; [exact H1|].
  destruct outcome; [apply evolves_resolve_released|apply evolves_reject_released].
Qed.

Lemma evolves_return rid lock outcome w :
  rtc prim w (settle rid lock outcome (update_session rid (set_cont Returned) w)).
Proof.
  eapply rtc_l; [|apply evolves_settle]. apply prim_update.
  intros s0. simpl. auto 10.
Qed.

Lemma evolves_evict name w : rtc prim w (evict name w).
Proof.
  unfold evict. generalize (filter (λ l, lock_name l = name) (held w)).
  intros victims. revert w.
  induction victims as [|v victims IH]; intros w; [apply rtc_refl|].
  simpl. etrans; [|apply IH]. unfold evict_lock.
  eapply rtc_l; [apply prim_held|]. apply evolves_reject_released.
Qed.

Lemma evolves_abort_request rid reason w : rtc prim w (abort_request rid reason w).
Proof.
  unfold abort_request. destruct (List.find _ _); [|done].
  eapply rtc_l; [apply prim_queue|].
  etrans; [apply evolves_scan|apply evolves_reject_released].
Qed.

Lemma evolves_signal_abort fuel s reason w :
  rtc prim w (signal_abort fuel s reason w).
Proof.
  revert s reason w. induction fuel as [|fuel IH]; intros s reason w; [done|].
  simpl. destruct (signals w !! s) as [sg|]; [|done].
  destruct (sig_reason sg); [done|].
  set (w1 := set_signals _ w).
  assert (rtc prim w w1) as H1 by apply rtc_once, prim_signals.
  etrans; [exact H1|]. clearbody w1. clear H1. revert w1.
  induction (sig_listeners sg) as [|l ls IHl]; intros w1; [apply rtc_refl|].
  simpl. etrans; [|apply IHl].
  destruct l; auto using evolves_abort_request.
Qed.

Lemma evolves_manager_request rid name opt w :
  rtc prim w (manager_request rid name opt w).
Proof.
  unfold manager_request.
  destruct (starts_with_hyphen name); [apply evolves_reject_released|].
  destruct (_ && _); [apply evolves_reject_released|].
  destruct (_ && _); [apply evolves_reject_released|].
  destruct (_ && _); [apply evolves_reject_released|].
  destruct (aborted_reason _ _); [apply evolves_reject_released|].
  set (w1 := match opt_signal opt with Some _ => _ | None => _ end).
  assert (rtc prim w w1) as H1.
  { unfold w1. destruct (opt_signal opt); [|done]. apply rtc_once, prim_signals. }
  etrans; [exact H1|]. clearbody w1.
  destruct (default false (opt_steal opt)).
  - etrans; [apply evolves_evict|]. eapply rtc_l; [apply prim_queue|].
    apply evolves_scan.
  - destruct (_ && _).
    + apply rtc_once, prim_grant. done.
    + eapply rtc_l; [apply prim_queue|]. apply evolves_scan.
Qed.

Lemma evolves_request name opt callback w :
  rtc prim w (snd (Locks.request name opt callback w)).
Proof.
  unfold Locks.request.
  eapply rtc_l; [by apply (prim_session (mkSession name callback Pending NotInvoked Pending))|].
  destruct (Locks.delay_accepted opt).
  2:{ simpl. apply rtc_once, prim_update. intros s. simpl. auto 10. }
  destruct (Locks.timeoutSignal opt) as [ms|]; destruct (opt_signal opt) as [ext|];
    simpl; (etrans; [|apply evolves_manager_request]).
  - eapply rtc_l; [apply prim_signals|]. eapply rtc_l; [apply prim_signals|].
    eapply rtc_l; [apply prim_signals|]. apply rtc_once, prim_signals.
  - apply rtc_once, prim_signals.
  - eapply rtc_l; [apply prim_signals|]. apply rtc_once, prim_signals.
  - done.
Qed.

Lemma evolves_query name w : rtc prim w (snd (Locks.query name w)).
Proof.
  unfold Locks.query. simpl.
  eapply rtc_l; [by apply (prim_session (mkSession name true Pending NotInvoked Pending))|].
  apply evolves_manager_request.
Qed.

Lemma evolves_done rid w : rtc prim w (done rid w).
Proof. apply rtc_once, prim_woken. Qed.

Lemma evolves_resumes rid w : rtc prim w (resumes rid w).
Proof.
  unfold resumes. destruct (sessions w !! rid) as [s|]; [|done].
  destruct (cont s); try done. case_bool_decide; [|done]. apply evolves_return.
Qed.

Lemma evolves_callback_settles rid outcome w :
  rtc prim w (callback_settles rid outcome w).
Proof.
  unfold callback_settles. destruct (sessions w !! rid) as [s|]; [|done].
  destruct (cont s); try done. apply evolves_return.
Qed.

Lemma evolves_step e w : rtc prim w (step e w).
Proof.
  destruct e as [name opt cb|lock|rid outcome| |s reason|s|rid]; simpl;
    [..|apply evolves_resumes].
  - destruct (signal_exists _ _); [apply evolves_request|done].
  - unfold Locks.release. destruct (weakmap_get _ _); [|done]. apply evolves_done.
  - apply evolves_callback_settles.
  - apply rtc_once, prim_signals.
  - unfold controller_abort. destruct (signals w !! s) as [sg|]; [|done].
    destruct (sig_kind sg); try done. apply evolves_signal_abort.
  - unfold timer_fires. destruct (signals w !! s) as [sg|]; [|done].
    destruct (sig_kind sg); try done. apply evolves_signal_abort.
Qed.

Lemma later_refl w : later w w.
Proof. intros rid s Hs. exists s. auto 10 using keeps_refl. Qed.

Lemma later_trans w1 w2 w3 : later w1 w2 → later w2 w3 → later w1 w3.
Proof.
  intros H12 H23 rid s Hs.
  destruct (H12 rid s Hs) as (s2 & Hs2 & Hn2 & Hc2 & Hw2 & Hr2).
  destruct (H23 rid s2 Hs2) as (s3 & Hs3 & Hn3 & Hc3 & Hw3 & Hr3).
  exists s3. repeat split; try congruence; eauto using keeps_trans.
Qed.

Lemma later_same w w' : sessions w' = sessions w → later w w'.
Proof. intros E rid s Hs. exists s. rewrite E. auto 10 using keeps_refl. Qed.

Lemma prim_later w w' : prim w w' → later w w'.
Proof.
  destruct 1 as [f w|f w|f w|f w|f w|s0 w _|rid lock w _|rid f w Hf];
    try (by apply later_same).
  - intros rid s Hs. exists s. split; [|auto 10 using keeps_refl].
    by apply lookup_app_l_Some.
  - intros rid' s Hs. destruct (decide (rid' = rid)) as [->|Hne].
    + destruct (on_grant_spec rid lock w s Hs) as (_ & _ & Hs' & _).
      eexists. split; [exact Hs'|]. simpl. auto 10 using keeps_resolve, keeps_refl.
    + exists s. rewrite on_grant_other by done. auto 10 using keeps_refl.
  - intros rid' s Hs. rewrite lookup_update_session. case_decide as E.
    + subst rid'. rewrite Hs. exists (f s). destruct (Hf s) as (? & ? & _ & ? & ?).
      done.
    + exists s. auto 10 using keeps_refl.
Qed.

Lemma evolves_later w w' : rtc prim w w' → later w w'.
Proof.
  induction 1 as [|w1 w2 w3 H12 _ IH]; [apply later_refl|].
  eapply later_trans; [by apply prim_later|done].
Qed.

Lemma Registered_same w w' :
  sessions w' = sessions w → lockMap w' = lockMap w → Registered w → Registered w'.
Proof. intros Hs Hm [R1 R2]. constructor; rewrite ?Hs, ?Hm; assumption. Qed.

Lemma prim_Registered w w' : prim w w' → Registered w → Registered w'.
Proof.
  destruct 1 as [f w|f w|f w|f w|f w|s0 w Hc0|rid lock w Hid|rid f w Hf];
    try (by apply Registered_same).
  - intros [R1 R2]. constructor; wsimpl.
    + intros rid s l [Hs|[_ Hs]]%lookup_app_Some; [by apply R1|].
      apply list_elem_of_lookup_2, list_elem_of_singleton in Hs. congruence.
    + intros k rid Hk. destruct (R2 k rid Hk) as (s & Hs & ?). exists s.
      split; [by apply lookup_app_l_Some|done].
  - intros HR. destruct (sessions w !! rid) as [s|] eqn:Hs.
    + destruct HR as [R1 R2].
      destruct (on_grant_spec rid lock w s Hs) as (_ & _ & Hsr & Hso & _ & Hlm).
      constructor.
      * intros rid' s' l. destruct (decide (rid' = rid)) as [->|Hne].
        -- rewrite Hsr, Hlm. intros [= <-]. simpl.
           destruct (s_callback s); [done|]. intros [= ->].
           rewrite (Hid l eq_refl). apply lookup_insert_eq.
        -- rewrite Hso, Hlm by done. intros Hs' Hc'.
           assert (lockMap w !! rid' = Some rid') as Hm by (by eapply R1).
           destruct (s_callback s); [done|]. destruct lock as [l0|]; [|done].
           rewrite (Hid l0 eq_refl). by rewrite lookup_insert_ne.
      * intros k rid'. rewrite Hlm.
        assert (lockMap w !! k = Some rid' →
                ∃ s', sessions (on_grant rid lock w) !! rid' = Some s' ∧
                      s_callback s' = false) as Hold.
        { intros (s' & Hs' & ?)%R2. destruct (decide (rid' = rid)) as [->|Hne].
          - eexists. split; [exact Hsr|]. simpl. congruence.
          - exists s'. by rewrite Hso. }
        destruct (s_callback s) eqn:Hcb; [done|]. destruct lock as [l0|]; [|done].
        rewrite (Hid l0 eq_refl), lookup_insert. case_decide; [|done].
        intros [= <-]. eexists. split; [exact Hsr|done].
    + rewrite on_grant_absent by done. revert HR. apply Registered_same; [|done].
      unfold getLock. wsimpl. apply list_eq. intros i.
      rewrite list_lookup_alter. case_decide; [|done]. subst. by rewrite Hs.
  - intros [R1 R2]. constructor; wsimpl.
    + intros rid' s l. rewrite list_lookup_alter. case_decide as E; [|apply R1].
      subst rid'. destruct (sessions w !! rid) as [s0|] eqn:Hs; [|done].
      simpl. intros [= <-] Hc. destruct (Hf s0) as (_ & _ & [Hk|Hk] & _).
      * eapply R1; [done|]. by rewrite <- Hk.
      * congruence.
    + intros k rid' Hk. destruct (R2 k rid' Hk) as (s & Hs & Hcb).
      rewrite list_lookup_alter. case_decide as E; [|eauto].
      subst rid'. rewrite Hs. exists (f s). split; [done|].
      destruct (Hf s) as (_ & -> & _). done.
Qed.

Lemma evolves_Registered w w' : rtc prim w w' → Registered w → Registered w'.
Proof. induction 1; eauto using prim_Registered. Qed.

Lemma reachable_Registered w : reachable w → Registered w.
Proof.
  induction 1 as [|e w _ IH].
  - constructor; simpl; [done|]. intros k rid Hk. by rewrite lookup_empty in Hk.
  - eapply evolves_Registered; [apply evolves_step|done].
Qed.

(** ** Promises and handles over time *)

Lemma later_run es w : later w (run es w).
Proof.
  revert w. induction es as [|e es IH]; intros w; [apply later_refl|].
  simpl. eapply later_trans; [|apply IH]. apply evolves_later, evolves_step.
Qed.

Lemma later_future w w' rid p :
  later w w' → future rid w = Some p → p ≠ Pending → future rid w' = Some p.
Proof.
  unfold future. intros Hl Hf Hp.
  destruct (sessions w !! rid) as [s|] eqn:Hs; [|done]. injection Hf as <-.
  destruct (Hl rid s Hs) as (s' & -> & _ & _ & [Hw|Hw] & _); [done|].
  simpl. by rewrite Hw.
Qed.

(** X1.  Once the promise that [request] returned is settled, no sequence
    of later calls and events changes its state or its value. *)
Theorem settled_future_is_final (es : list Event) (w : World) (rid : nat)
    (p : promise) :
  future rid w = Some p → p ≠ Pending → future rid (run es w) = Some p.
Proof. apply later_future, later_run. Qed.

Lemma settled_future_is_final_witness :
  let w := run [ask exclusive; ask exclusive] init in
  future 0 (run [CallRelease (handle 0 exclusive); ask shared; TimerFires 0] w)
  = Some (Fulfilled (handle 0 exclusive)).
Proof.
  intros w. apply (settled_future_is_final _ w 0); [reflexivity|discriminate].
Defined.

(** X2.  A request whose promise was rejected (by its timeout, by the
    caller's signal or by a refusal of the lock manager) holds no lock and
    waits for none, then and ever after, and its promise stays rejected. *)
Theorem rejected_request_is_gone (es : list Event) (w : World) (rid : nat)
    (err : value) :
  reachable w → future rid w = Some (Rejected err) →
  let w' := run es w in
  future rid w' = Some (Rejected err) ∧
  (∀ l, l ∈ held w' → lock_id l ≠ rid) ∧
  (∀ r, r ∈ queue w' → rq_id r ≠ rid).
Proof.
  intros Hw Hf w'.
  assert (future rid w' = Some (Rejected err)) as Hf'
    by (by apply (later_future w); [apply later_run|..]).
  assert (Inv w') as HI by (by apply reachable_Inv, reachable_run).
  split; [done|]. unfold future in Hf'.
  destruct (sessions w' !! rid) as [s|] eqn:Hs; [|done]. injection Hf' as Hwl.
  split.
  - intros l Hl E. destruct (inv_held w' HI l Hl) as (s' & Hs' & Hrun).
    rewrite E, Hs in Hs'. injection Hs' as <-. destruct Hrun as [Hc|Hc].
    + destruct (inv_callback w' HI _ _ _ Hs Hc) as (_ & ? & _). congruence.
    + destruct (inv_done w' HI _ _ _ Hs Hc) as (_ & ?). congruence.
  - intros r Hr E. destruct (inv_queue w' HI r Hr) as (s' & Hs' & _ & ? & _).
    rewrite E, Hs in Hs'. congruence.
Qed.

Lemma rejected_request_is_gone_witness :
  let w := run [ask exclusive;
                CallRequest "R" (mkOptions None None None None (Some 50%Z)) false;
                TimerFires 1] init in
  let w' := run [CallRelease (handle 0 exclusive)] w in
  future 1 w' = Some (Rejected (VDOMException "TimeoutError")) ∧
  (∀ l, l ∈ held w' → lock_id l ≠ 1) ∧
  (∀ r, r ∈ queue w' → rq_id r ≠ 1).
Proof.
  intros w.
  apply (rejected_request_is_gone [CallRelease (handle 0 exclusive)] w 1).
  - apply reachable_run, reachable_init.
  - reflexivity.
Defined.

Lemma handle_session w l s :
  Inv w → l ∈ held w → sessions w !! lock_id l = Some s → s_callback s = false →
  cont s = AwaitDone (Some l).
Proof.
  intros HI Hl Hs Hcb. destruct (inv_held w HI l Hl) as (s' & Hs' & [Hc|Hc]).
  - rewrite Hs in Hs'. injection Hs' as <-.
    destruct (inv_callback w HI _ _ _ Hs Hc) as (? & _). congruence.
  - congruence.
Qed.

(** What [release] of the handle of a held lock does, and what the
    resumption of the continuation does after it. *)
Lemma release_wakes w l s :
  reachable w → l ∈ held w →
  sessions w !! lock_id l = Some s → s_callback s = false →
  world_of (Locks.release (VLock l) w) = done (lock_id l) w.
Proof.
  intros Hw Hl Hs Hcb. pose proof (reachable_Inv w Hw) as HI.
  pose proof (handle_session w l s HI Hl Hs Hcb) as Hc.
  destruct (reachable_Registered w Hw) as [R1 _].
  unfold Locks.release. simpl. by rewrite (R1 _ _ _ Hs Hc).
Qed.

Lemma resumes_woken rid w s lock :
  sessions w !! rid = Some s → cont s = AwaitDone lock →
  resumes rid (done rid w) =
  settle rid lock (inl VUndefined)
    (update_session rid (set_cont Returned) (done rid w)).
Proof.
  intros Hs Hc. unfold resumes. simpl. rewrite Hs, Hc.
  rewrite bool_decide_true; [done|]. apply elem_of_union_l, elem_of_singleton.
  done.
Qed.

(** X3.  Releasing the handle of a held lock that was requested without a
    callback frees the lock, though not inside [release]: the call only
    resolves [waitDone], and the held locks are as before when it returns.
    The lock is freed when the continuation resumes after that: then no
    held lock has that identity, and the promise the handle came from is
    unchanged.  Without the [release], the continuation does not resume. *)
Theorem release_frees_the_lock (w : World) (l : Lock) (s : Session) :
  reachable w → l ∈ held w →
  sessions w !! lock_id l = Some s → s_callback s = false →
  let w1 := world_of (Locks.release (VLock l) w) in
  let w' := step (ContinuationResumes (lock_id l)) w1 in
  held w1 = held w ∧
  (∀ l', l' ∈ held w' → lock_id l' ≠ lock_id l) ∧
  future (lock_id l) w' = Some (Fulfilled (VLock l)) ∧
  (lock_id l ∉ woken w → step (ContinuationResumes (lock_id l)) w = w).
Proof.
  intros Hw Hl Hs Hcb. pose proof (reachable_Inv w Hw) as HI.
  pose proof (handle_session w l s HI Hl Hs Hcb) as Hc.
  rewrite (release_wakes w l s) by done. simpl.
  rewrite (resumes_woken _ w s (Some l)) by done.
  assert (Inv (done (lock_id l) w)) as HI1 by (by apply Inv_done).
  destruct (settle_spec (lock_id l) (Some l) (inl VUndefined)
              (done (lock_id l) w) s HI1 Hs) as (Hs' & _ & Hh); [by right|].
  split; [done|]. split; [done|]. split.
  - unfold future. rewrite Hs'. simpl.
    destruct (inv_done w HI _ _ _ Hs Hc) as (_ & ->). done.
  - intros Hno. unfold resumes. rewrite Hs, Hc. by rewrite bool_decide_false.
Qed.

Lemma release_frees_the_lock_witness :
  let w := step (ask exclusive) init in
  let l := mkLock 0 "R" exclusive in
  let w1 := world_of (Locks.release (VLock l) w) in
  let w' := step (ContinuationResumes (lock_id l)) w1 in
  held w1 = held w ∧
  (∀ l', l' ∈ held w' → lock_id l' ≠ lock_id l) ∧
  future (lock_id l) w' = Some (Fulfilled (VLock l)) ∧
  (lock_id l ∉ woken w → step (ContinuationResumes (lock_id l)) w = w).
Proof.
  intros w l.
  apply (release_frees_the_lock w l
           (mkSession "R" false (Fulfilled (VLock l)) (AwaitDone (Some l)) Pending)).
  - apply reachable_step, reachable_init.
  - vm_compute. apply list_elem_of_here.
  - reflexivity.
  - reflexivity.
Defined.

Lemma resumes_keeps rid w l :
  Inv w → l ∈ held w → lock_id l ≠ rid → l ∈ held (resumes rid w).
Proof.
  intros HI Hl Hne. unfold resumes.
  destruct (sessions w !! rid) as [s|] eqn:Hs; [|done].
  destruct (cont s) as [|lk|lk|] eqn:Hc; try done.
  case_bool_decide; [|done].
  apply settle_keeps; [done|]. intros lk' -> E.
  destruct (inv_running w HI _ s lk' Hs) as [Hid _]; [by right|]. congruence.
Qed.

(** X4.  [release] takes no lock but the one of the handle it is given:
    every held lock with another identity is still held when [release]
    returns, and still held when the continuation of the released request
    has resumed. *)
Theorem release_spares_other_locks (w : World) (h l : Lock) :
  reachable w → l ∈ held w → lock_id l ≠ lock_id h →
  let w1 := world_of (Locks.release (VLock h) w) in
  l ∈ held w1 ∧ l ∈ held (step (ContinuationResumes (lock_id h)) w1).
Proof.
  intros HI%reachable_Inv Hl Hne. unfold Locks.release. simpl.
  destruct (lockMap w !! lock_id h) as [rid|] eqn:Hm; simpl.
  - split; [done|]. apply resumes_keeps; [by apply Inv_done|done..].
  - split; [done|]. by apply resumes_keeps.
Qed.

Lemma release_spares_other_locks_witness :
  let w := run [ask shared; ask shared] init in
  let w1 := world_of (Locks.release (handle 0 shared) w) in
  mkLock 1 "R" shared ∈ held w1 ∧
  mkLock 1 "R" shared ∈ held (step (ContinuationResumes 0) w1).
Proof.
  intros w. apply (release_spares_other_locks w (mkLock 0 "R" shared)).
  - apply reachable_run, reachable_init.
  - vm_compute. apply list_elem_of_further, list_elem_of_here.
  - simpl. lia.
Defined.

(** X5.  The handle that a callback receives is not registered for
    [release]: releasing it, inside the callback or later, changes nothing;
    only the completion of the callback releases the lock. *)
Theorem release_ignores_callback_handle (w : World) (l : Lock) (s : Session) :
  reachable w → sessions w !! lock_id l = Some s → s_callback s = true →
  Locks.release (VLock l) w = Normal w.
Proof.
  intros Hw Hs Hcb. unfold Locks.release. simpl.
  destruct (lockMap w !! lock_id l) as [rid|] eqn:Hm; [|done].
  pose proof (inv_lockMap w (reachable_Inv w Hw) _ _ Hm) as <-.
  destruct (reg_handle w (reachable_Registered w Hw) _ _ Hm) as (s' & Hs' & ?).
  congruence.
Qed.

Lemma release_ignores_callback_handle_witness :
  let w := step (CallRequest "a" no_options true) init in
  held w = [mkLock 0 "a" exclusive] ∧
  Locks.release (VLock (mkLock 0 "a" exclusive)) w = Normal w.
Proof.
  intros w. split; [reflexivity|].
  apply (release_ignores_callback_handle w (mkLock 0 "a" exclusive)
           (mkSession "a" true (Fulfilled (VLock (mkLock 0 "a" exclusive)))
              (AwaitCallback (Some (mkLock 0 "a" exclusive))) Pending)).
  - apply reachable_step, reachable_init.
  - reflexivity.
  - reflexivity.
Defined.

(** Only [done] resolves a [waitDone]. *)
Lemma woken_on_grant rid lock w : woken (on_grant rid lock w) = woken w.
Proof. unfold on_grant, getLock. by frame_cases. Qed.

Lemma woken_reject_released rid err w : woken (reject_released rid err w) = woken w.
Proof. unfold reject_released, on_catch, rejectorLock. by frame_cases. Qed.

Lemma woken_scan name q w : woken (scan name q w) = woken w.
Proof.
  revert w. induction q as [|r0 q IH]; intros w; [done|]. simpl.
  destruct (String.eqb _ _); [|apply IH].
  destruct (conflicts _ _ _); [done|]. rewrite IH. unfold grant.
  by rewrite woken_on_grant.
Qed.

Lemma woken_settle rid lock outcome w :
  woken (settle rid lock outcome w) = woken w.
Proof.
  unfold settle.
  set (w1 := match lock with Some _ => _ | None => _ end).
  assert (woken w1 = woken w) as <-.
  { unfold w1. destruct lock; [|done]. unfold process_queue.
    by rewrite woken_scan. }
  destruct outcome; [done|apply woken_reject_released].
Qed.

Lemma woken_evict name w : woken (evict name w) = woken w.
Proof.
  unfold evict. generalize (filter (λ l, lock_name l = name) (held w)).
  intros victims. revert w. induction victims as [|v victims IH]; intros w; [done|].
  simpl. rewrite IH. unfold evict_lock. by rewrite woken_reject_released.
Qed.

Lemma woken_abort_request rid reason w : woken (abort_request rid reason w) = woken w.
Proof.
  unfold abort_request. destruct (List.find _ _); [|done].
  rewrite woken_reject_released. unfold process_queue. by rewrite woken_scan.
Qed.

Lemma woken_signal_abort fuel s reason w :
  woken (signal_abort fuel s reason w) = woken w.
Proof.
  revert s reason w. induction fuel as [|fuel IH]; intros s reason w; [done|].
  simpl. destruct (signals w !! s) as [sg|]; [|done].
  destruct (sig_reason sg); [done|].
  set (w1 := set_signals _ w).
  assert (woken w1 = woken w) as <- by done.
  clearbody w1. revert w1.
  induction (sig_listeners sg) as [|l ls IHl]; intros w1; [done|].
  simpl. rewrite IHl. destruct l; rewrite ?IH; try done.
  apply woken_abort_request.
Qed.

Lemma woken_manager_request rid name opt w :
  woken (manager_request rid name opt w) = woken w.
Proof.
  unfold manager_request.
  destruct (starts_with_hyphen name); [apply woken_reject_released|].
  destruct (_ && _); [apply woken_reject_released|].
  destruct (_ && _); [apply woken_reject_released|].
  destruct (_ && _); [apply woken_reject_released|].
  destruct (aborted_reason _ _); [apply woken_reject_released|].
  set (w1 := match opt_signal opt with Some _ => _ | None => _ end).
  assert (woken w1 = woken w) as <- by (unfold w1; by destruct (opt_signal opt)).
  clearbody w1. unfold process_queue.
  destruct (default false (opt_steal opt)).
  - rewrite woken_scan. wsimpl. apply woken_evict.
  - destruct (_ && _); [apply woken_on_grant|by rewrite woken_scan].
Qed.

Lemma woken_request name opt callback w :
  woken (snd (Locks.request name opt callback w)) = woken w.
Proof.
  unfold Locks.request. destruct (Locks.delay_accepted opt); [|done].
  destruct (Locks.timeoutSignal opt), (opt_signal opt); simpl;
    by rewrite woken_manager_request.
Qed.

Lemma woken_step e w rid :
  Inv w → rid ∈ woken (step e w) →
  rid ∈ woken w ∨ ∃ l, e = CallRelease (VLock l) ∧ lock_id l = rid.
Proof.
  intros HI. destruct e as [name opt cb|lock|r outcome| |s reason|s|r]; simpl.
  - destruct (signal_exists _ _); [|by left]. rewrite woken_request. by left.
  - unfold Locks.release.
    destruct (weakmap_get (lockMap w) lock) as [r|] eqn:Hm; [|by left].
    destruct lock as [| | | |l| | | |]; try done. simpl in Hm.
    apply (inv_lockMap w HI) in Hm. subst r. simpl.
    intros [->%elem_of_singleton|?]%elem_of_union; [right; eauto|by left].
  - unfold callback_settles. destruct (sessions w !! r) as [x|]; [|by left].
    destruct (cont x); try (by left). rewrite woken_settle. by left.
  - by left.
  - unfold controller_abort. destruct (signals w !! s) as [x|]; [|by left].
    destruct (sig_kind x); try (by left). rewrite woken_signal_abort. by left.
  - unfold timer_fires. destruct (signals w !! s) as [x|]; [|by left].
    destruct (sig_kind x); try (by left). rewrite woken_signal_abort. by left.
  - unfold resumes. destruct (sessions w !! r) as [x|]; [|by left].
    destruct (cont x); try (by left). case_bool_decide; [|by left].
    rewrite woken_settle. by left.
Qed.

(** The one transition that takes the lock of a request made without a
    callback: the resumption of its woken continuation, or a steal. *)
Lemma handle_lock_step e w l s :
  Inv w → l ∈ held w →
  sessions w !! lock_id l = Some s → s_callback s = false →
  l ∉ held (step e w) →
  e = ContinuationResumes (lock_id l) ∧ lock_id l ∈ woken w ∨
  (∃ opt cb, e = CallRequest (lock_name l) opt cb ∧ opt_steal opt = Some true).
Proof.
  intros HI Hl Hs Hcb Hgone.
  pose proof (handle_session w l s HI Hl Hs Hcb) as Hc.
  destruct e as [name opt cb|lock|rid outcome| |sg reason|sg|rid]; simpl in Hgone.
  - destruct (decide (opt_steal opt = Some true ∧ name = lock_name l))
      as [[? ->]|Hno]; [right; eauto|].
    exfalso. apply Hgone. destruct (signal_exists _ _); [|done].
    destruct (Locks.delay_accepted opt) eqn:Hok;
      [|by rewrite request_throws by done].
    destruct (request_unfold name opt cb w Hok) as (w1 & signal & -> & Hh & _).
    apply manager_request_keeps.
    + by rewrite Hh.
    + rewrite Hh. intros l' Hl' E. by apply (held_id_inj w).
    + simpl. tauto.
  - exfalso. apply Hgone. unfold Locks.release.
    by destruct (weakmap_get (lockMap w) lock).
  - exfalso. apply Hgone. unfold callback_settles.
    destruct (sessions w !! rid) as [s'|] eqn:Hs'; [|done].
    destruct (cont s') as [|lk|lk|] eqn:Hc'; try done.
    apply settle_keeps; [done|]. intros lk' -> E.
    destruct (inv_running w HI rid s' lk' Hs') as [Hid _]; [by left|].
    rewrite E in Hid. rewrite Hid, Hs' in Hs. congruence.
  - by exfalso.
  - exfalso. apply Hgone. unfold controller_abort.
    destruct (signals w !! sg) as [x|]; [|done].
    destruct (sig_kind x); try done. by apply signal_abort_keeps.
  - exfalso. apply Hgone. unfold timer_fires.
    destruct (signals w !! sg) as [x|]; [|done].
    destruct (sig_kind x); try done. by apply signal_abort_keeps.
  - destruct (decide (rid = lock_id l)) as [->|Hne].
    + left. split; [done|]. destruct (decide (lock_id l ∈ woken w)); [done|].
      exfalso. apply Hgone. unfold resumes. rewrite Hs, Hc.
      by rewrite bool_decide_false.
    + exfalso. apply Hgone. apply resumes_keeps; [done..|congruence].
Qed.

(** X6.  A lock granted to a request without a callback, whose handle has
    not been released yet, stays held over every run of transitions that
    contains neither a [release] of a handle with its identity nor a
    stealing request for the same name: in particular no timeout, no abort
    signal and no resumption of a continuation takes a lock once it is
    granted. *)
Theorem handle_lock_kept_until_release (es : list Event) (w : World) (l : Lock)
    (s : Session) :
  reachable w → l ∈ held w →
  sessions w !! lock_id l = Some s → s_callback s = false →
  lock_id l ∉ woken w →
  l ∉ held (run es w) →
  (∃ l', CallRelease (VLock l') ∈ es ∧ lock_id l' = lock_id l) ∨
  (∃ opt cb, CallRequest (lock_name l) opt cb ∈ es ∧ opt_steal opt = Some true).
Proof.
  revert w s. induction es as [|e es IH]; intros w s Hw Hl Hs Hcb Hno Hgone;
    [done|].
  pose proof (reachable_Inv w Hw) as HI. simpl in Hgone.
  assert (EqDecision Lock) as Hdec.
  { intros x y. unfold Decision.
    decide equality; first [apply string_dec|apply Nat.eq_dec|decide equality]. }
  destruct (decide (l ∈ held (step e w))) as [Hl'|Hl'].
  - destruct (evolves_later _ _ (evolves_step e w) _ _ Hs)
      as (s' & Hs' & _ & Hcb' & _).
    destruct (decide (lock_id l ∈ woken (step e w))) as [Hwk|Hwk].
    + destruct (woken_step e w _ HI Hwk) as [?|(l' & -> & E)]; [done|].
      left. exists l'. split; [left|done].
    + destruct (IH (step e w) s') as [(l' & Hin & E)|(opt & cb & Hin & E)];
        try done; [by apply reachable_step|congruence|..].
      * left. exists l'. split; [by right|done].
      * right. exists opt, cb. split; [by right|done].
  - destruct (handle_lock_step e w l s HI Hl Hs Hcb Hl')
      as [[_ ?]|(opt & cb & -> & E)]; [done|].
    right. exists opt, cb. split; [left|done].
Qed.

Lemma handle_lock_kept_until_release_witness :
  let w := step (ask exclusive) init in
  let l := mkLock 0 "R" exclusive in
  let es := [TimerFires 0; CallRelease (VLock l); ContinuationResumes 0] in
  (∃ l', CallRelease (VLock l') ∈ es ∧ lock_id l' = lock_id l) ∨
  (∃ opt cb, CallRequest (lock_name l) opt cb ∈ es ∧ opt_steal opt = Some true).
Proof.
  intros w l es.
  apply (handle_lock_kept_until_release es w l
           (mkSession "R" false (Fulfilled (VLock l)) (AwaitDone (Some l)) Pending)).
  - apply reachable_step, reachable_init.
  - vm_compute. apply list_elem_of_here.
  - reflexivity.
  - reflexivity.
  - apply not_elem_of_empty.
  - vm_compute. intros H. by apply elem_of_nil in H.
Defined.

(** ** What a call of [request] does *)

Lemma aborted_reason_addEventListener signal s l w :
  aborted_reason signal (addEventListener s l w) = aborted_reason signal w.
Proof.
  unfold aborted_reason, addEventListener. wsimpl.
  destruct signal as [k|]; [|done]. rewrite list_lookup_alter.
  case_decide as E; [|done]. subst k. by destruct (signals w !! s).
Qed.

Lemma aborted_reason_new k w :
  aborted_reason (Some (length (signals w))) (snd (new_signal k w)) = None.
Proof.
  unfold aborted_reason, new_signal. simpl. by rewrite list_lookup_middle.
Qed.

(** The world and the options that [request] hands to the lock manager:
    the composed signal is new, hence not aborted, whatever the state of
    the caller's signal. *)
Lemma request_passes name opt callback w :
  Locks.delay_accepted opt = true →
  ∃ w1 signal,
    snd (Locks.request name opt callback w) =
      manager_request (length (sessions w)) name
        (mkOptions (opt_mode opt) (opt_ifAvailable opt) (opt_steal opt) signal
           (opt_timeout opt)) w1 ∧
    held w1 = held w ∧ queue w1 = queue w ∧
    sessions w1 = sessions w ++ [mkSession name callback Pending NotInvoked Pending] ∧
    lockMap w1 = lockMap w ∧ calls w1 = calls w ∧ console w1 = console w ∧
    aborted_reason signal w1 = None ∧
    (opt_signal opt = None → Locks.timeoutSignal opt = None →
     signal = None ∧ signals w1 = signals w).
Proof.
  intros Hok. unfold Locks.request. rewrite Hok. set (w0 := set_sessions _ w).
  destruct (Locks.timeoutSignal opt) as [ms|], (opt_signal opt) as [ext|];
    simpl; eexists _, _; (split; [reflexivity|]); repeat split; try done.
  - rewrite !aborted_reason_addEventListener.
    change (aborted_reason
              (Some (length (signals (snd (new_signal (Timer ms) w0)))))
              (snd (new_signal InnerController (snd (new_signal (Timer ms) w0))))
            = None).
    apply aborted_reason_new.
  - apply (aborted_reason_new (Timer ms) w0).
  - rewrite aborted_reason_addEventListener.
    apply (aborted_reason_new InnerController w0).
Qed.

Lemma scan_skip name q q' w :
  (∀ r, r ∈ q → rq_name r ≠ name) → scan name (q ++ q') w = scan name q' w.
Proof.
  induction q as [|r q IH]; intros Hq; [done|]. simpl.
  destruct (String.eqb_spec (rq_name r) name) as [E|_].
  - exfalso. apply (Hq r); [left|done].
  - apply IH. intros r' Hr'. apply Hq. by right.
Qed.

Lemma no_waiter_named name (q : list Request) :
  existsb (λ r, String.eqb (rq_name r) name) q = false →
  ∀ r, r ∈ q → rq_name r ≠ name.
Proof.
  intros Hex r Hr E.
  assert (existsb (λ r, String.eqb (rq_name r) name) q = true) as Ht; [|congruence].
  apply existsb_exists. exists r. split; [by apply list_elem_of_In|].
  by apply String.eqb_eq.
Qed.

Lemma filter_fresh (q : list Request) (rid : nat) :
  (∀ r, r ∈ q → rq_id r ≠ rid) → filter (λ r, rq_id r ≠ rid) q = q.
Proof.
  induction q as [|r q IH]; intros Hq; [done|].
  rewrite filter_cons_True by (apply Hq; left). f_equal.
  apply IH. intros r' Hr'. apply Hq. by right.
Qed.

Lemma queue_ids_bound w r : Inv w → r ∈ queue w → rq_id r < length (sessions w).
Proof.
  intros HI Hr. destruct (inv_queue w HI r Hr) as (s & Hs & _).
  by apply lookup_lt_Some in Hs.
Qed.

(** X7.  A request whose timeout [AbortSignal.timeout] accepts, that the
    lock manager accepts and that it can grant at once (no waiter of the
    name, no conflicting holder in the lock table) is granted by the lock
    manager in the call: the returned promise is fulfilled with a handle
    that carries the requested name and mode, the lock joins the held
    locks, the queue is untouched, and the handle is registered for
    [release], or passed to the callback when there is one.  The state of
    the caller's signal, aborted or not, makes no difference.  A lock whose
    handle was released stays in the lock table until the continuation of
    its request has resumed: until then a request for it is not one that
    can be granted at once. *)
Theorem free_lock_is_granted_at_once (name : string) (opt : Options)
    (callback : bool) (w : World) :
  reachable w → signal_exists (opt_signal opt) w = true →
  Locks.delay_accepted opt = true →
  starts_with_hyphen name = false → opt_steal opt ≠ Some true →
  (opt_ifAvailable opt = Some true →
   opt_signal opt = None ∧ Locks.timeoutSignal opt = None) →
  grantable_now name (default exclusive (opt_mode opt)) w = true →
  let rid := length (sessions w) in
  let l := mkLock rid name (default exclusive (opt_mode opt)) in
  let w' := step (CallRequest name opt callback) w in
  future rid w' = Some (Fulfilled (VLock l)) ∧
  held w' = held w ++ [l] ∧ queue w' = queue w ∧
  (if callback then (rid, VLock l) ∈ calls w' else lockMap w' !! rid = Some rid).
Proof.
  intros HI%reachable_Inv Hex Hok Hname Hsteal Hif Hgr rid l. subst rid l.
  simpl. rewrite Hex.
  destruct (request_passes name opt callback w Hok)
    as (w1 & signal & -> & Hh & Hq & Hs & Hm & Hc & _ & Hab & Hnone).
  unfold manager_request. cbn [opt_mode opt_ifAvailable opt_steal opt_signal].
  rewrite Hname, Hab.
  assert (default false (opt_steal opt) = false) as ->
    by (by destruct (opt_steal opt) as [[|]|]).
  cbn [andb orb].
  assert (bool_decide (is_Some signal) && default false (opt_ifAvailable opt) = false)
    as ->.
  { destruct (opt_ifAvailable opt) as [[|]|]; simpl; rewrite ?andb_false_r; try done.
    destruct Hif as [H1 H2]; [done|]. by destruct (Hnone H1 H2) as [-> _]. }
  set (w2 := match signal with Some _ => _ | None => _ end).
  assert (held w2 = held w ∧ queue w2 = queue w ∧ sessions w2 = sessions w1 ∧
          lockMap w2 = lockMap w ∧ calls w2 = calls w) as (Hh2 & Hq2 & Hs2 & Hm2 & Hc2)
    by (unfold w2; by destruct signal).
  clearbody w2.
  assert (grantable_now name (default exclusive (opt_mode opt)) w2 = true) as ->
    by (unfold grantable_now in *; by rewrite Hh2, Hq2).
  rewrite andb_false_r.
  apply andb_true_iff in Hgr as [Hnw Hnc]. apply negb_true_iff in Hnw, Hnc.
  unfold process_queue. wsimpl. rewrite Hq2.
  rewrite scan_skip by (by apply no_waiter_named).
  set (r := mkRequest (length (sessions w)) name (default exclusive (opt_mode opt))).
  simpl. rewrite String.eqb_refl. wsimpl. rewrite Hh2, Hnc.
  set (w3 := set_queue _ w2).
  assert (sessions w3 !! rq_id r =
            Some (mkSession name callback Pending NotInvoked Pending)) as Hs3.
  { simpl. rewrite Hs2, Hs. by apply list_lookup_middle. }
  destruct (grant_spec r w3 _ Hs3) as (Hh' & Hq' & Hs' & _ & Hc' & Hm').
  unfold lock_of, r in Hh', Hq', Hs', Hc', Hm'.
  cbn [rq_id rq_name rq_mode] in Hh', Hq', Hs', Hc', Hm'.
  unfold future, r. rewrite Hs', Hh', Hq'. simpl. rewrite Hh2, Hq2.
  repeat split.
  - rewrite filter_app, filter_fresh.
    + rewrite filter_cons_False, filter_nil by (simpl; tauto). apply app_nil_r.
    + intros r' Hr'. apply Nat.lt_neq. by apply queue_ids_bound.
  - destruct callback.
    + rewrite Hc'. simpl. apply elem_of_app. right. apply list_elem_of_here.
    + rewrite Hm'. simpl. apply lookup_insert_eq.
Qed.

Lemma free_lock_is_granted_at_once_witness :
  let w := step (CallRequest "a" no_options false) init in
  let aborted := run [NewController; ControllerAbort 1 None] w in
  let opt := mkOptions (Some shared) None None (Some 1) None in
  let w' := step (CallRequest "b" opt true) aborted in
  future 1 w' = Some (Fulfilled (VLock (mkLock 1 "b" shared))) ∧
  held w' = held aborted ++ [mkLock 1 "b" shared] ∧ queue w' = queue aborted ∧
  (1, VLock (mkLock 1 "b" shared)) ∈ calls w'.
Proof.
  intros w aborted opt.
  apply (free_lock_is_granted_at_once "b" opt true aborted); try reflexivity.
  - apply reachable_run, reachable_step, reachable_init.
  - discriminate.
  - discriminate.
Defined.

(** X8.  With [ifAvailable], no caller signal and the timeout switched off,
    a request that cannot be granted at once resolves with [null] in the
    call itself and takes nothing: held locks, queue and the registry of
    handles are as before; a callback, if given, is called with [null]. *)
Theorem ifAvailable_miss_takes_nothing (name : string) (opt : Options)
    (callback : bool) (w : World) :
  starts_with_hyphen name = false →
  opt_ifAvailable opt = Some true → opt_steal opt ≠ Some true →
  opt_signal opt = None → opt_timeout opt = Some 0%Z →
  grantable_now name (default exclusive (opt_mode opt)) w = false →
  let rid := length (sessions w) in
  let w' := step (CallRequest name opt callback) w in
  future rid w' = Some (Fulfilled VNull) ∧
  held w' = held w ∧ queue w' = queue w ∧ lockMap w' = lockMap w ∧
  (callback = true → (rid, VNull) ∈ calls w').
Proof.
  intros Hname Hif Hsteal Hsig Hto Hgr rid. subst rid. simpl.
  rewrite Hsig. simpl.
  assert (Locks.timeoutSignal opt = None) as Hts.
  { unfold Locks.timeoutSignal, Locks.timeout. by rewrite Hto. }
  assert (Locks.delay_accepted opt = true) as Hok
    by (unfold Locks.delay_accepted; by rewrite Hts).
  destruct (request_passes name opt callback w Hok)
    as (w1 & signal & -> & Hh & Hq & Hs & Hm & Hc & _ & Hab & Hnone).
  destruct (Hnone Hsig Hts) as [-> _].
  unfold manager_request. cbn [opt_mode opt_ifAvailable opt_steal opt_signal].
  rewrite Hname, Hif.
  assert (default false (opt_steal opt) = false) as ->
    by (by destruct (opt_steal opt) as [[|]|]).
  simpl.
  assert (grantable_now name (default exclusive (opt_mode opt)) w1 = false) as ->
    by (unfold grantable_now in *; by rewrite Hh, Hq).
  simpl.
  assert (sessions w1 !! length (sessions w) =
            Some (mkSession name callback Pending NotInvoked Pending)) as Hs1
    by (rewrite Hs; by apply list_lookup_middle).
  destruct (on_grant_spec _ None w1 _ Hs1) as (Hh' & Hq' & Hs' & _ & Hc' & Hm').
  unfold future. rewrite Hs', Hh', Hq', Hm', Hc'. simpl.
  repeat split; try done.
  - by destruct callback.
  - intros ->. apply elem_of_app. right. apply list_elem_of_here.
Qed.

Lemma ifAvailable_miss_takes_nothing_witness :
  let w := step (ask exclusive) init in
  let opt := mkOptions None (Some true) None None (Some 0%Z) in
  let w' := step (CallRequest "R" opt true) w in
  future 1 w' = Some (Fulfilled VNull) ∧
  held w' = held w ∧ queue w' = queue w ∧ lockMap w' = lockMap w ∧
  (true = true → (1, VNull) ∈ calls w').
Proof.
  intros w opt.
  apply (ifAvailable_miss_takes_nothing "R" opt true w); try reflexivity.
  discriminate.
Defined.

Lemma evict_all_held victims w l :
  l ∈ held (fold_left (λ w l, evict_lock l w) victims w) →
  l ∈ held w ∧ ∀ v, v ∈ victims → lock_id v ≠ lock_id l.
Proof.
  revert w. induction victims as [|v victims IH]; intros w.
  - intros Hl. split; [done|]. intros v Hv. by apply elem_of_nil in Hv.
  - simpl. intros [Hl Hv]%IH. unfold evict_lock in Hl.
    rewrite held_reject_released in Hl. wsimpl.
    apply list_elem_of_filter in Hl as [Hne Hl]. split; [done|].
    intros v' [->|Hv']%elem_of_cons; [congruence|by apply Hv].
Qed.

Lemma evict_removes name w l : l ∈ held (evict name w) → lock_name l ≠ name.
Proof.
  intros [Hl Hv]%evict_all_held E. apply (Hv l); [|done].
  by apply list_elem_of_filter.
Qed.

Lemma conflicts_none name mode (h : list Lock) :
  (∀ l, l ∈ h → lock_name l ≠ name) → conflicts name mode h = false.
Proof.
  intros Hh. unfold conflicts. apply not_true_is_false.
  intros (l & Hl & Hc)%existsb_exists. apply andb_true_iff in Hc as [Hn _].
  apply (Hh l); [by apply list_elem_of_In|by apply String.eqb_eq].
Qed.

Lemma conflicts_exclusive name mode (h : list Lock) l :
  l ∈ h → lock_name l = name → lock_mode l = exclusive →
  conflicts name mode h = true.
Proof.
  intros Hl Hn Hm. unfold conflicts. apply existsb_exists. exists l.
  split; [by apply list_elem_of_In|]. apply andb_true_iff.
  split; [by apply String.eqb_eq|]. rewrite Hm. by destruct mode.
Qed.

Lemma scan_blocked name q w l :
  l ∈ held w → lock_name l = name → lock_mode l = exclusive →
  scan name q w = w.
Proof.
  intros Hl Hn Hm. induction q as [|r q IH]; [done|]. simpl.
  destruct (String.eqb _ _); [|done].
  by rewrite (conflicts_exclusive name (rq_mode r) (held w) l).
Qed.

Lemma filter_none {A} (P : A → Prop) `{∀ x, Decision (P x)} (l : list A) :
  (∀ x, x ∈ l → ¬ P x) → filter P l = [].
Proof.
  induction l as [|x l IH]; intros Hl; [done|].
  rewrite filter_cons_False by (apply Hl; left).
  apply IH. intros y Hy. apply Hl. by right.
Qed.

(** X9.  A request with [steal] (exclusive, without [ifAvailable] and
    without a caller signal) is granted by the call itself whoever holds
    the name: the promise is fulfilled with the new handle, and afterwards
    that lock is the only holder of the name.  No timeout signal is
    created for it, so the lock manager never refuses it for carrying
    one. *)
Theorem steal_takes_the_lock (name : string) (opt : Options) (callback : bool)
    (w : World) :
  reachable w → starts_with_hyphen name = false →
  opt_steal opt = Some true → opt_ifAvailable opt ≠ Some true →
  opt_mode opt ≠ Some shared → opt_signal opt = None →
  let rid := length (sessions w) in
  let l := mkLock rid name exclusive in
  let w' := step (CallRequest name opt callback) w in
  future rid w' = Some (Fulfilled (VLock l)) ∧ holders name w' = [l] ∧
  signals w' = signals w.
Proof.
  intros HI%reachable_Inv Hname Hsteal Hif Hmode Hsig rid l. subst rid l. simpl.
  rewrite Hsig. simpl.
  assert (Locks.timeoutSignal opt = None) as Hts.
  { unfold Locks.timeoutSignal, Locks.steal. rewrite Hsteal. simpl.
    by rewrite andb_false_r. }
  assert (Locks.delay_accepted opt = true) as Hok
    by (unfold Locks.delay_accepted; by rewrite Hts).
  destruct (request_passes name opt callback w Hok)
    as (w1 & signal & -> & Hh & Hq & Hs & Hm & Hc & _ & Hab & Hnone).
  destruct (Hnone Hsig Hts) as [-> Hsg].
  unfold manager_request. cbn [opt_mode opt_ifAvailable opt_steal opt_signal].
  rewrite Hname, Hsteal.
  assert (default false (opt_ifAvailable opt) = false) as ->
    by (by destruct (opt_ifAvailable opt) as [[|]|]).
  assert (default exclusive (opt_mode opt) = exclusive) as ->
    by (by destruct (opt_mode opt) as [[|]|]).
  simpl.
  set (r := mkRequest (length (sessions w)) name exclusive).
  set (w2 := evict name w1).
  assert (sessions w2 !! rq_id r =
            Some (mkSession name callback Pending NotInvoked Pending)) as Hs2.
  { destruct (evict_all_frame (filter (λ l, lock_name l = name) (held w1)) w1)
      as (_ & _ & Hfr).
    unfold w2, evict. rewrite Hfr; [rewrite Hs; by apply list_lookup_middle|].
    rewrite Hh. intros v [_ Hv]%list_elem_of_filter.
    destruct (inv_held w HI v Hv) as (s & Hsv & _).
    apply lookup_lt_Some in Hsv. simpl. lia. }
  assert (signals w2 = signals w) as Hsg2 by (unfold w2; by rewrite evict_signals).
  unfold process_queue. wsimpl.
  set (w3 := set_queue (cons r) w2).
  assert (scan name (r :: queue w2) w3 = scan name (queue w2) (grant r w3)) as ->.
  { simpl. rewrite String.eqb_refl.
    by rewrite conflicts_none by (intros v; apply evict_removes). }
  destruct (grant_spec r w3 _ Hs2) as (Hh' & Hq' & Hs' & _ & Hc' & Hm').
  rewrite (scan_blocked name _ (grant r w3) (lock_of r));
    [|rewrite Hh'; apply elem_of_app; right; apply list_elem_of_here|done..].
  change (rq_id r) with (length (sessions w)) in Hs'.
  unfold future, holders. rewrite Hs', Hh', signals_grant. simpl.
  split; [done|]. split; [|done].
  rewrite filter_app, filter_none by (intros v; apply evict_removes).
  by rewrite filter_cons_True.
Qed.

Lemma steal_takes_the_lock_witness :
  let w := run [ask shared; ask shared; ask exclusive] init in
  let opt := mkOptions None None (Some true) None (Some 50%Z) in
  let w' := step (CallRequest "R" opt false) w in
  future 3 w' = Some (Fulfilled (VLock (mkLock 3 "R" exclusive))) ∧
  holders "R" w' = [mkLock 3 "R" exclusive] ∧ signals w' = signals w.
Proof.
  intros w opt.
  apply (steal_takes_the_lock "R" opt false w); try reflexivity.
  - apply reachable_run, reachable_init.
  - discriminate.
  - discriminate.
Defined.

(** ** Introspection on any snapshot *)

(** X10.  Read as a condition, the result of [find] on any snapshot, also
    one that lacks a list, says whether a held or a pending entry carries
    the name.  The value itself is a boolean or [undefined], and it is
    [undefined] exactly when the pending list is absent and no held entry
    carries the name. *)
Theorem find_reads_as_listed (snap : Snapshot) (name : string) :
  truthy (Locks.find_in snap name)
    = some_named name (held_of snap) || some_named name (pending_of snap)
  ∧ (Locks.find_in snap name = VUndefined ↔
       snap_pending snap = None ∧ some_named name (held_of snap) = false)
  ∧ (Locks.find_in snap name = VUndefined ∨
     ∃ b, Locks.find_in snap name = VBool b).
Proof.
  unfold Locks.find_in, held_of, pending_of.
  destruct (snap_held snap) as [h|], (snap_pending snap) as [p|]; simpl;
    try destruct (some_named name h); simpl;
    try destruct (some_named name p); simpl;
    (split; [done|split; [|by eauto]]);
    (split; [try done; by intros [? ?]|]); try done; by intros [? ?].
Qed.

(** X11.  [status] and [find] agree on every snapshot: for an argument
    whose name is a non-empty string, [status] returns an object exactly
    when the result of [find] for that name is truthy. *)
Theorem status_agrees_with_find (all : Snapshot) (arg : value) (n : string) :
  Locks.innerName arg = Some n → n ≠ EmptyString →
  is_some (Locks.status_in all arg) = truthy (Locks.find_in all n).
Proof.
  intros Hn Hne. unfold Locks.status_in, Locks.find_in. rewrite Hn.
  destruct (String.eqb_spec n EmptyString) as [|_]; [done|].
  destruct (snap_held all) as [h|], (snap_pending all) as [p|]; simpl;
    rewrite <- ?last_named_is_some;
    try destruct (last_named n h); simpl; try done;
    try destruct (last_named n p); simpl; done.
Qed.

Lemma status_agrees_with_find_witness :
  let all := mkSnapshot None (Some [mkLockInfo "a" shared "c1"]) in
  is_some (Locks.status_in all (VLock (mkLock 7 "a" shared)))
  = truthy (Locks.find_in all "a").
Proof.
  intros all.
  apply (status_agrees_with_find all (VLock (mkLock 7 "a" shared)) "a");
    [reflexivity|discriminate].
Defined.

Lemma last_named_all name (l : list LockInfo) i :
  i ∈ l → (∀ j, j ∈ l → info_name j = name → j = i) → info_name i = name →
  last_named name l = Some i.
Proof.
  intros Hi Hall Hn. rewrite last_named_spec.
  destruct (last (named name l)) as [j|] eqn:E.
  - apply last_Some_elem_of in E. unfold named in E.
    apply list_elem_of_filter in E as [Hj Hjl]. f_equal. by apply Hall.
  - apply last_None in E. unfold named in E.
    assert (i ∈ filter (λ i, info_name i = name) l) as Hin
      by (by apply list_elem_of_filter).
    rewrite E in Hin. by apply elem_of_nil in Hin.
Qed.

Lemma holders_same_mode w l l' :
  Inv w → l ∈ held w → l' ∈ held w → lock_name l' = lock_name l →
  lock_mode l' = lock_mode l.
Proof.
  intros HI Hl Hl' Hn.
  destruct (lock_mode l) eqn:Hm, (lock_mode l') eqn:Hm'; try done.
  - pose proof (inv_exclusive w HI l' l Hl' Hl Hn Hm') as E. congruence.
  - pose proof (inv_exclusive w HI l l' Hl Hl' (eq_sym Hn) Hm) as E. congruence.
Qed.

(** X12.  In every reachable state, [status] of the handle of a held lock
    with a non-empty name returns an object with [held] set that carries
    the handle's own name and mode, however many other holders the name
    has: they all have that mode. *)
Theorem status_of_held_handle (w : World) (l : Lock) :
  reachable w → l ∈ held w → lock_name l ≠ EmptyString →
  ∃ st, Locks.status (VLock l) w = Some st ∧ st_held st = true ∧
        st_info st = mkLockInfo (lock_name l) (lock_mode l) client.
Proof.
  intros HI%reachable_Inv Hl Hne.
  unfold Locks.status, Locks.status_in, manager_query.
  cbn [Locks.innerName get_name snap_held snap_pending].
  destruct (String.eqb_spec (lock_name l) EmptyString) as [|_]; [done|].
  set (info := λ l : Lock, mkLockInfo (lock_name l) (lock_mode l) client).
  rewrite (last_named_all (lock_name l) (info <$> held w) (info l)).
  - eexists. split; [reflexivity|]. by split.
  - apply list_elem_of_fmap. by exists l.
  - intros j (l' & -> & Hl')%list_elem_of_fmap Hn. unfold info in *. simpl in Hn.
    by rewrite Hn, (holders_same_mode w l l').
  - done.
Qed.

Lemma status_of_held_handle_witness :
  let w := run [ask shared; ask shared; ask exclusive] init in
  ∃ st, Locks.status (handle 0 shared) w = Some st ∧ st_held st = true ∧
        st_info st = mkLockInfo "R" shared client.
Proof.
  intros w. apply (status_of_held_handle w (mkLock 0 "R" shared)).
  - apply reachable_run, reachable_init.
  - vm_compute. apply list_elem_of_here.
  - discriminate.
Defined.

(** ** Cancellation: what an abort does to a waiting request *)

Lemma signal_abort_unfold fuel s reason w sg :
  signals w !! s = Some sg → sig_reason sg = None →
  signal_abort (S fuel) s reason w =
  dispatch fuel reason (sig_listeners sg)
    (set_signals
       (alter (λ sg, mkSignal (sig_kind sg) (Some reason) (sig_listeners sg)) s) w).
Proof. intros Hs Hr. simpl. by rewrite Hs, Hr. Qed.

Lemma evolves_dispatch fuel reason ls w : rtc prim w (dispatch fuel reason ls w).
Proof.
  revert w. induction ls as [|l ls IH]; intros w; [apply rtc_refl|].
  unfold dispatch. simpl. etrans; [|apply IH].
  destruct l; auto using evolves_abort_request, evolves_signal_abort.
Qed.

Lemma Inv_dispatch fuel reason ls w : Inv w → Inv (dispatch fuel reason ls w).
Proof.
  revert w. induction ls as [|l ls IH]; intros w HI; [done|].
  unfold dispatch. simpl. apply IH.
  destruct l; auto using Inv_abort_request, Inv_signal_abort.
Qed.

Lemma console_on_grant rid lock w : console (on_grant rid lock w) = console w.
Proof. unfold on_grant, getLock. by frame_cases. Qed.

Lemma console_scan name q w : console (scan name q w) = console w.
Proof.
  revert w. induction q as [|r0 q IH]; intros w; [done|]. simpl.
  destruct (String.eqb _ _); [|apply IH].
  destruct (conflicts _ _ _); [done|]. rewrite IH. unfold grant.
  by rewrite console_on_grant.
Qed.

Lemma console_on_catch rid err w s :
  sessions w !! rid = Some s →
  console (on_catch rid err w) =
  console w ++ (if warns err then [timeout_warning (s_name s)] else []).
Proof.
  intros Hs. unfold on_catch, warns, rejectorLock. rewrite Hs.
  destruct (get_name err) as [n|]; [|by rewrite app_nil_r].
  destruct (String.eqb n "TimeoutError"); [done|by rewrite app_nil_r].
Qed.

Lemma console_reject_released rid err w :
  console w `prefix_of` console (reject_released rid err w).
Proof.
  unfold reject_released. destruct (sessions w !! rid) as [s|] eqn:Hs; [|done].
  destruct (released s); [|done..].
  erewrite console_on_catch.
  - by apply prefix_app_r.
  - wsimpl. by rewrite list_lookup_alter_eq, Hs.
Qed.

Lemma console_abort_request rid reason w :
  console w `prefix_of` console (abort_request rid reason w).
Proof.
  unfold abort_request. destruct (List.find _ _); [|done].
  etrans; [|apply console_reject_released]. unfold process_queue.
  by rewrite console_scan.
Qed.

Lemma console_signal_abort fuel s reason w :
  console w `prefix_of` console (signal_abort fuel s reason w).
Proof.
  revert s reason w. induction fuel as [|fuel IH]; intros s reason w; [done|].
  simpl. destruct (signals w !! s) as [sg|]; [|done].
  destruct (sig_reason sg); [done|].
  set (w1 := set_signals _ w).
  assert (console w `prefix_of` console w1) as H1 by done.
  etrans; [exact H1|]. clearbody w1. clear H1. revert w1.
  induction (sig_listeners sg) as [|l ls IHl]; intros w1; [done|].
  simpl. etrans; [|apply IHl].
  destruct l; auto using console_abort_request.
Qed.

Lemma console_dispatch fuel reason ls w :
  console w `prefix_of` console (dispatch fuel reason ls w).
Proof.
  revert w. induction ls as [|l ls IH]; intros w; [done|].
  unfold dispatch. simpl. etrans; [|apply IH].
  destruct l; auto using console_abort_request, console_signal_abort.
Qed.

(** Cancelling a request that waits: it leaves the queue and the handler
    of [request] rejects the returned promise with the reason. *)
Lemma abort_request_spec rid reason w r s :
  Inv w → r ∈ queue w → rq_id r = rid → sessions w !! rid = Some s →
  let w' := abort_request rid reason w in
  future rid w' = Some (Rejected reason) ∧
  console w' =
    console w ++ (if warns reason then [timeout_warning (s_name s)] else []).
Proof.
  intros HI Hr Hid Hs. unfold abort_request.
  destruct (List.find _ _) as [r'|] eqn:Hf.
  2:{ pose proof (find_none _ _ Hf r (proj1 (list_elem_of_In _ _) Hr)) as Hr'.
      by apply Nat.eqb_neq in Hr'. }
  destruct (inv_queue w HI r Hr) as (s' & Hs' & _ & Hwl & Hrel).
  rewrite Hid, Hs in Hs'. injection Hs' as <-.
  set (w1 := process_queue _ _).
  assert (sessions w1 !! rid = Some s) as Hs1.
  { unfold w1, process_queue.
    destruct (scan_other (rq_name r')
                (queue (set_queue (filter (λ r, rq_id r ≠ rid)) w))
                (set_queue (filter (λ r, rq_id r ≠ rid)) w) rid) as [-> _]; [|done].
    wsimpl. by intros x [? _]%list_elem_of_filter. }
  assert (console w1 = console w) as Hc1
    by (unfold w1, process_queue; by rewrite console_scan).
  clearbody w1. cbv zeta. unfold reject_released. rewrite Hs1, Hrel.
  erewrite console_on_catch
    by (wsimpl; by rewrite list_lookup_alter_eq, Hs1).
  simpl. rewrite Hc1. split; [|done].
  unfold future, on_catch. wsimpl. rewrite list_lookup_alter_eq, Hs1. simpl.
  unfold rejectorLock.
  destruct (get_name reason) as [n|]; [destruct (String.eqb n _)|]; wsimpl;
    rewrite !list_lookup_alter_eq, Hs1; simpl; by rewrite Hwl.
Qed.

(** The signal handed to the lock manager aborts while the request waits. *)
Lemma signal_abort_host fuel c reason w sg rid ls r s :
  Inv w → signals w !! c = Some sg → sig_reason sg = None →
  sig_listeners sg = HostAbort rid :: ls →
  r ∈ queue w → rq_id r = rid → sessions w !! rid = Some s →
  let w' := signal_abort (S fuel) c reason w in
  future rid w' = Some (Rejected reason) ∧
  (console w ++ (if warns reason then [timeout_warning (s_name s)] else []))
    `prefix_of` console w' ∧
  (ls = [] →
   console w' =
     console w ++ (if warns reason then [timeout_warning (s_name s)] else [])).
Proof.
  intros HI Hc Hnone Hls Hr Hid Hs.
  rewrite (signal_abort_unfold fuel c reason w sg) by done. rewrite Hls.
  set (w0 := set_signals _ w).
  assert (Inv w0) as HI0 by (by apply (Inv_same w)).
  destruct (abort_request_spec rid reason w0 r s HI0 Hr Hid Hs) as [Hf Hcon].
  change (dispatch fuel reason (HostAbort rid :: ls) w0)
    with (dispatch fuel reason ls (abort_request rid reason w0)).
  cbv zeta. split; [|split].
  - apply (later_future (abort_request rid reason w0)); [|done..].
    apply evolves_later, evolves_dispatch.
  - change (console w) with (console w0). rewrite <- Hcon. apply console_dispatch.
  - intros ->. exact Hcon.
Qed.

(** X13.  The timeout of a request made without a caller signal elapses
    while the request waits: the returned promise is rejected with the
    TimeoutError, the request leaves the queue, no held lock is taken
    away, and the warning that names the lock is written to the console
    (and nothing else, when the request is the only listener of the
    signal). *)
Theorem timeout_rejects_waiting_request (w : World) (t rid : nat)
    (sg : AbortSignal) (ms : Z) (ls : list Listener) (r : Request) (s : Session) :
  reachable w →
  signals w !! t = Some sg → sig_kind sg = Timer ms → sig_reason sg = None →
  sig_listeners sg = HostAbort rid :: ls →
  r ∈ queue w → rq_id r = rid → sessions w !! rid = Some s →
  let w' := step (TimerFires t) w in
  future rid w' = Some (Rejected (VDOMException "TimeoutError")) ∧
  (∀ x, x ∈ queue w' → rq_id x ≠ rid) ∧
  (∀ l, l ∈ held w → l ∈ held w') ∧
  timeout_warning (s_name s) ∈ console w' ∧
  (ls = [] → console w' = console w ++ [timeout_warning (s_name s)]).
Proof.
  intros Hw Ht Hk Hnone Hls Hr Hid Hs w'.
  assert (Inv w) as HI by (by apply reachable_Inv).
  assert (Inv w') as HI' by (by apply reachable_Inv, reachable_step).
  unfold w', step, timer_fires in *. rewrite Ht, Hk in *. unfold abort_fuel in *.
  destruct (signal_abort_host (length (signals w)) t (VDOMException "TimeoutError")
              w sg rid ls r s HI Ht Hnone Hls Hr Hid Hs) as (Hf & Hpre & Hex).
  split; [done|]. split; [|split; [|split]].
  - intros x Hx E. destruct (inv_queue _ HI' x Hx) as (s' & Hs' & _ & Hwl & _).
    rewrite E in Hs'. unfold future in Hf. rewrite Hs' in Hf. simpl in Hf. congruence.
  - intros l Hl. by apply signal_abort_keeps.
  - destruct Hpre as [k ->]. simpl. rewrite !elem_of_app.
    left. right. apply list_elem_of_here.
  - exact Hex.
Qed.

Lemma timeout_rejects_waiting_request_witness :
  let w := run [ask exclusive;
                CallRequest "R" (mkOptions None None None None (Some 50%Z)) true] init in
  let w' := step (TimerFires 1) w in
  future 1 w' = Some (Rejected (VDOMException "TimeoutError")) ∧
  (∀ x, x ∈ queue w' → rq_id x ≠ 1) ∧
  (∀ l, l ∈ held w → l ∈ held w') ∧
  timeout_warning "R" ∈ console w' ∧
  (@nil Listener = [] → console w' = console w ++ [timeout_warning "R"]).
Proof.
  intros w.
  apply (timeout_rejects_waiting_request w 1 1
           (mkSignal (Timer 50) None [HostAbort 1]) 50 []
           (mkRequest 1 "R" exclusive)
           (mkSession "R" true Pending NotInvoked Pending)); try reflexivity.
  - apply reachable_run, reachable_init.
  - vm_compute. apply list_elem_of_here.
Defined.

(** A signal whose first listener aborts the inner controller of a waiting
    request: the request is rejected with what that listener passes on,
    not with the reason of the signal itself. *)
Lemma signal_abort_via_inner fuel s0 reason0 w sg0 (L : Listener) ls0 c sgc rid
    ls r s reason :
  Inv w → signals w !! s0 = Some sg0 → sig_reason sg0 = None →
  sig_listeners sg0 = L :: ls0 →
  (L = AbortInner c ∧ reason = VDOMException "AbortError" ∨
   L = ForwardToInner c ∧ reason = VEvent "abort") →
  s0 ≠ c → signals w !! c = Some sgc → sig_reason sgc = None →
  sig_listeners sgc = HostAbort rid :: ls →
  r ∈ queue w → rq_id r = rid → sessions w !! rid = Some s →
  let w' := signal_abort (S (S fuel)) s0 reason0 w in
  future rid w' = Some (Rejected reason) ∧
  (ls0 = [] → ls = [] → console w' = console w).
Proof.
  intros HI H0 Hn0 Hl0 HL Hne Hc Hnc Hlc Hr Hid Hs.
  rewrite (signal_abort_unfold (S fuel) s0 reason0 w sg0) by done. rewrite Hl0.
  set (w0 := set_signals _ w).
  assert (Inv w0) as HI0 by (by apply (Inv_same w)).
  assert (signals w0 !! c = Some sgc) as Hc0
    by (unfold w0; wsimpl; by rewrite list_lookup_alter_ne).
  destruct (signal_abort_host fuel c reason w0 sgc rid ls r s HI0 Hc0 Hnc Hlc Hr Hid Hs)
    as (Hf & _ & Hex).
  assert (dispatch (S fuel) reason0 (L :: ls0) w0 =
          dispatch (S fuel) reason0 ls0 (signal_abort (S fuel) c reason w0)) as ->
    by (by destruct HL as [[-> ->]|[-> ->]]).
  assert (warns reason = false) as Hwarn by (by destruct HL as [[_ ->]|[_ ->]]).
  rewrite Hwarn, app_nil_r in Hex.
  cbv zeta. split.
  - apply (later_future (signal_abort (S fuel) c reason w0)); [|done..].
    apply evolves_later, evolves_dispatch.
  - intros -> Hls. by apply Hex.
Qed.

(** X14.  The caller's signal aborts while the request waits, and the
    request is the first one that was registered on that signal (as it is
    when the caller makes the signal for this request): the returned
    promise is rejected with an AbortError whatever reason the caller gave
    to [abort], because the listener calls [innerSigbalCtrl.abort()]
    without an argument; the request leaves the queue, and nothing is
    written to the console when the request is the only user of the
    signal.  A request registered on the signal behind another one is not
    covered: the lock table serves the waiters as soon as the first request
    is withdrawn, before the listeners of the later ones run. *)
Theorem caller_abort_rejects_with_AbortError (w : World) (a c rid : nat)
    (sg sgc : AbortSignal) (ls0 ls : list Listener) (r : Request)
    (reason : option value) :
  reachable w →
  signals w !! a = Some sg → sig_kind sg = CallerController →
  sig_reason sg = None → sig_listeners sg = AbortInner c :: ls0 →
  signals w !! c = Some sgc → sig_reason sgc = None →
  sig_listeners sgc = HostAbort rid :: ls →
  r ∈ queue w → rq_id r = rid →
  let w' := step (ControllerAbort a reason) w in
  future rid w' = Some (Rejected (VDOMException "AbortError")) ∧
  (∀ x, x ∈ queue w' → rq_id x ≠ rid) ∧
  (ls0 = [] → ls = [] → console w' = console w).
Proof.
  intros Hw Ha Hk Hna Hla Hc Hnc Hlc Hr Hid w'.
  assert (Inv w) as HI by (by apply reachable_Inv).
  assert (Inv w') as HI' by (by apply reachable_Inv, reachable_step).
  destruct (inv_queue w HI r Hr) as (s & Hs & _). rewrite Hid in Hs.
  assert (a < c) as Hac.
  { apply (reachable_forward w Hw a (AbortInner c) c); [|done].
    unfold listeners_of. rewrite list_lookup_fmap, Ha. simpl. rewrite Hla. left. }
  unfold w', step, controller_abort in *. rewrite Ha, Hk in *.
  unfold abort_fuel in *.
  destruct (length (signals w)) as [|n] eqn:Hlen.
  { apply lookup_lt_Some in Ha. lia. }
  destruct (signal_abort_via_inner n a (default (VDOMException "AbortError") reason)
              w sg (AbortInner c) ls0 c sgc rid ls r s (VDOMException "AbortError"))
    as [Hf Hcon]; try done; [by left|lia|].
  split; [done|]. split; [|done].
  intros x Hx E. destruct (inv_queue _ HI' x Hx) as (s' & Hs' & _ & Hwl & _).
  rewrite E in Hs'. unfold future in Hf. rewrite Hs' in Hf. simpl in Hf. congruence.
Qed.

Lemma caller_abort_rejects_with_AbortError_witness :
  let w := run [ask exclusive; NewController;
                CallRequest "R" (mkOptions None None None (Some 1) (Some 0%Z)) false]
             init in
  let w' := step (ControllerAbort 1 (Some (VError "stop"))) w in
  future 1 w' = Some (Rejected (VDOMException "AbortError")) ∧
  (∀ x, x ∈ queue w' → rq_id x ≠ 1) ∧
  (@nil Listener = [] → @nil Listener = [] → console w' = console w).
Proof.
  intros w.
  apply (caller_abort_rejects_with_AbortError w 1 2 1
           (mkSignal CallerController None [AbortInner 2])
           (mkSignal InnerController None [HostAbort 1]) [] []
           (mkRequest 1 "R" exclusive) (Some (VError "stop"))); try reflexivity.
  - apply reachable_run, reachable_init.
  - vm_compute. apply list_elem_of_here.
Defined.

(** X15.  The timeout of a request made with a caller signal elapses while
    the request waits: the listener hands the abort event to
    [innerSigbalCtrl.abort], so the returned promise is rejected with that
    event, which is no TimeoutError, and the handler of [request] writes no
    warning (when the request is the only listener of both signals). *)
Theorem timeout_behind_signal_rejects_waiting_request (w : World) (t c rid : nat)
    (sg sgc : AbortSignal) (ms : Z) (ls0 ls : list Listener) (r : Request) :
  reachable w →
  signals w !! t = Some sg → sig_kind sg = Timer ms →
  sig_reason sg = None → sig_listeners sg = ForwardToInner c :: ls0 →
  signals w !! c = Some sgc → sig_reason sgc = None →
  sig_listeners sgc = HostAbort rid :: ls →
  r ∈ queue w → rq_id r = rid →
  let w' := step (TimerFires t) w in
  future rid w' = Some (Rejected (VEvent "abort")) ∧
  (∀ x, x ∈ queue w' → rq_id x ≠ rid) ∧
  (ls0 = [] → ls = [] → console w' = console w).
Proof.
  intros Hw Ha Hk Hna Hla Hc Hnc Hlc Hr Hid w'.
  assert (Inv w) as HI by (by apply reachable_Inv).
  assert (Inv w') as HI' by (by apply reachable_Inv, reachable_step).
  destruct (inv_queue w HI r Hr) as (s & Hs & _). rewrite Hid in Hs.
  assert (t < c) as Hac.
  { apply (reachable_forward w Hw t (ForwardToInner c) c); [|done].
    unfold listeners_of. rewrite list_lookup_fmap, Ha. simpl. rewrite Hla. left. }
  unfold w', step, timer_fires in *. rewrite Ha, Hk in *.
  unfold abort_fuel in *.
  destruct (length (signals w)) as [|n] eqn:Hlen.
  { apply lookup_lt_Some in Ha. lia. }
  destruct (signal_abort_via_inner n t (VDOMException "TimeoutError")
              w sg (ForwardToInner c) ls0 c sgc rid ls r s (VEvent "abort"))
    as [Hf Hcon]; try done; [by right|lia|].
  split; [done|]. split; [|done].
  intros x Hx E. destruct (inv_queue _ HI' x Hx) as (s' & Hs' & _ & Hwl & _).
  rewrite E in Hs'. unfold future in Hf. rewrite Hs' in Hf. simpl in Hf. congruence.
Qed.

Lemma timeout_behind_signal_rejects_waiting_request_witness :
  let w := run [ask exclusive; NewController;
                CallRequest "R" (mkOptions None None None (Some 1) (Some 50%Z)) false]
             init in
  let w' := step (TimerFires 2) w in
  future 1 w' = Some (Rejected (VEvent "abort")) ∧
  (∀ x, x ∈ queue w' → rq_id x ≠ 1) ∧
  (@nil Listener = [] → @nil Listener = [] → console w' = console w).
Proof.
  intros w.
  apply (timeout_behind_signal_rejects_waiting_request w 2 3 1
           (mkSignal (Timer 50) None [ForwardToInner 3])
           (mkSignal InnerController None [HostAbort 1]) 50 [] []
           (mkRequest 1 "R" exclusive)); try reflexivity.
  - apply reachable_run, reachable_init.
  - vm_compute. apply list_elem_of_here.
Defined.

(** ** The lock table at rest *)

Lemma conflicts_holders name mode (h : list Lock) :
  conflicts name mode (filter (λ l, lock_name l = name) h) = conflicts name mode h.
Proof.
  unfold conflicts. induction h as [|l h IH]; [done|].
  rewrite filter_cons. destruct (decide (lock_name l = name)) as [E|E]; simpl.
  - by rewrite IH.
  - rewrite IH. apply String.eqb_neq in E. by rewrite E.
Qed.

Lemma blocked_same name w w' :
  holders name w' = holders name w →
  waiters name (queue w') = waiters name (queue w) →
  blocked name w → blocked name w'.
Proof.
  unfold blocked, holders. intros Hh Hq Hb r. rewrite Hq. intros Hr%Hb.
  by rewrite <- conflicts_holders, Hh, conflicts_holders.
Qed.

Lemma Stable_same w w' :
  held w' = held w → queue w' = queue w → Stable w → Stable w'.
Proof.
  intros Hh Hq HS name.
  apply (blocked_same name w); unfold holders; by rewrite ?Hh, ?Hq.
Qed.

Lemma filter_filter_imp {A} (P Q : A → Prop) `{∀ x, Decision (P x)}
    `{∀ x, Decision (Q x)} (l : list A) :
  (∀ x, x ∈ l → P x → Q x) → filter P (filter Q l) = filter P l.
Proof.
  induction l as [|x l IH]; intros Himp; [done|].
  assert (filter P (filter Q l) = filter P l) as IH'
    by (apply IH; intros y Hy; apply Himp; by right).
  rewrite (filter_cons Q). destruct (decide (Q x)) as [HQ|HQ].
  - by rewrite !(filter_cons P), IH'.
  - rewrite IH'. rewrite (filter_cons_False P); [done|].
    intros HP. apply HQ, Himp; [left|done].
Qed.

Lemma filter_comm {A} (P Q : A → Prop) `{∀ x, Decision (P x)}
    `{∀ x, Decision (Q x)} (l : list A) :
  filter P (filter Q l) = filter Q (filter P l).
Proof. rewrite !list_filter_filter. apply list_filter_iff. tauto. Qed.

Lemma NoDup_fmap_inj {A B} (f : A → B) (l : list A) x y :
  NoDup (f <$> l) → x ∈ l → y ∈ l → f x = f y → x = y.
Proof.
  induction l as [|a l IH]; intros Hnd Hx Hy E; [by apply elem_of_nil in Hx|].
  rewrite fmap_cons in Hnd. apply NoDup_cons in Hnd as [Ha Hnd].
  apply elem_of_cons in Hx as [->|Hx]; apply elem_of_cons in Hy as [->|Hy]; try done.
  - exfalso. apply Ha. rewrite E. by apply list_elem_of_fmap_2.
  - exfalso. apply Ha. rewrite <- E. by apply list_elem_of_fmap_2.
  - by apply IH.
Qed.

(** A scan leaves its own name at rest ... *)
Lemma scan_stabilises name q w :
  waiters name (queue w) = waiters name q →
  NoDup (rq_id <$> waiters name q) →
  blocked name (scan name q w).
Proof.
  revert w. induction q as [|r q IH]; intros w Hq Hnd.
  - simpl. intros r. by rewrite Hq.
  - simpl. unfold waiters in Hq, Hnd. rewrite filter_cons in Hq, Hnd.
    destruct (String.eqb_spec (rq_name r) name) as [E|E].
    + rewrite decide_True in Hq, Hnd by done.
      destruct (conflicts name (rq_mode r) (held w)) eqn:Hc.
      * intros r'. unfold waiters. rewrite Hq. simpl. by intros [= <-].
      * rewrite fmap_cons in Hnd. apply NoDup_cons in Hnd as [Hr Hnd].
        apply IH; [|done]. rewrite queue_grant. unfold waiters.
        rewrite filter_comm, Hq, filter_cons_False by (simpl; tauto).
        apply filter_fresh. intros x Hx E'. apply Hr. rewrite <- E'.
        by apply list_elem_of_fmap_2.
    + rewrite decide_False in Hq, Hnd by done. by apply IH.
Qed.

(** ... and does not touch the holders and the waiters of another name. *)
Lemma scan_other_name name M q w :
  M ≠ name →
  (∀ r x, r ∈ q → rq_name r = name → x ∈ queue w → rq_name x = M →
          rq_id x ≠ rq_id r) →
  holders M (scan name q w) = holders M w ∧
  waiters M (queue (scan name q w)) = waiters M (queue w).
Proof.
  intros HM. revert w. induction q as [|r q IH]; intros w Hq; [done|]. simpl.
  destruct (String.eqb_spec (rq_name r) name) as [E|E].
  2:{ apply IH. intros r' x Hr'. apply Hq. by right. }
  destruct (conflicts _ _ _); [done|].
  destruct (IH (grant r w)) as [-> ->].
  { intros r' x Hr' Hn Hx. rewrite queue_grant in Hx.
    apply list_elem_of_filter in Hx as [_ Hx]. apply Hq; [by right|done..]. }
  unfold holders, waiters. rewrite held_grant, queue_grant. split.
  - rewrite filter_app, filter_cons_False, filter_nil, app_nil_r; [done|].
    simpl. congruence.
  - apply filter_filter_imp. intros x Hx Hn. apply (Hq r x); [left|done..].
Qed.

Lemma Stable_process name w0 w :
  Stable w0 →
  (∀ M, M ≠ name →
     holders M w = holders M w0 ∧ waiters M (queue w) = waiters M (queue w0)) →
  NoDup (rq_id <$> queue w) →
  Stable (process_queue name w).
Proof.
  intros HS Hsame Hnd M. unfold process_queue.
  destruct (decide (M = name)) as [->|HM].
  - apply scan_stabilises; [done|]. by apply NoDup_fmap_filter.
  - destruct (Hsame M HM) as [Hh Hq].
    destruct (scan_other_name name M (queue w) w HM) as [Hh' Hq'].
    { intros r x Hr Hn Hx Hn' E.
      assert (x = r) by (by apply (NoDup_fmap_inj rq_id (queue w))).
      subst. congruence. }
    apply (blocked_same M w0); [congruence..|apply HS].
Qed.

Lemma Stable_settle rid lock outcome w s :
  Inv w → Stable w → sessions w !! rid = Some s →
  cont s = AwaitCallback lock ∨ cont s = AwaitDone lock →
  Stable (settle rid lock outcome (update_session rid (set_cont Returned) w)).
Proof.
  intros HI HS Hs Hc. unfold settle.
  set (w1 := update_session rid (set_cont Returned) w).
  set (w2 := match lock with Some _ => _ | None => _ end).
  assert (Stable w2) as HS2.
  { unfold w2. destruct lock as [l|]; [|by apply (Stable_same w)].
    apply (Stable_process _ w); [done| |wsimpl; apply HI].
    intros M HM. split; [|done]. unfold holders. wsimpl.
    apply filter_filter_imp. intros x Hx Hn E.
    destruct (inv_held w HI x Hx) as (s' & Hs' & Hrun).
    destruct (inv_running w HI rid s l Hs Hc) as [Hid _].
    rewrite E, Hid, Hs in Hs'. injection Hs' as <-.
    assert (x = l) by (destruct Hc, Hrun; congruence). by subst. }
  clearbody w2. destruct outcome.
  - by apply (Stable_same w2).
  - apply (Stable_same w2);
      [apply held_reject_released|apply queue_reject_released|done].
Qed.

Lemma Stable_done rid w : Inv w → Stable w → Stable (done rid w).
Proof. intros _. by apply Stable_same. Qed.

Lemma Stable_resumes rid w : Inv w → Stable w → Stable (resumes rid w).
Proof.
  intros HI HS. unfold resumes. destruct (sessions w !! rid) as [s|] eqn:Hs; [|done].
  destruct (cont s) eqn:Hc; try done. case_bool_decide; [|done].
  eapply Stable_settle; eauto.
Qed.

Lemma Stable_callback_settles rid outcome w :
  Inv w → Stable w → Stable (callback_settles rid outcome w).
Proof.
  intros HI HS. unfold callback_settles.
  destruct (sessions w !! rid) as [s|] eqn:Hs; [|done].
  destruct (cont s) eqn:Hc; try done. eapply Stable_settle; eauto.
Qed.

Lemma Stable_abort_request rid reason w :
  Inv w → Stable w → Stable (abort_request rid reason w).
Proof.
  intros HI HS. unfold abort_request.
  destruct (List.find _ _) as [r|] eqn:Hf; [|done].
  apply find_some in Hf as [Hr Hid]. apply list_elem_of_In in Hr.
  apply Nat.eqb_eq in Hid.
  eapply Stable_same; [apply held_reject_released|apply queue_reject_released|].
  apply (Stable_process _ w); [done| |wsimpl; apply NoDup_fmap_filter, HI].
  intros M HM. split; [done|]. wsimpl. unfold waiters.
  apply filter_filter_imp. intros x Hx Hn E.
  assert (x = r) by (apply (NoDup_fmap_inj rq_id (queue w));
                     [apply HI|done..|congruence]).
  by subst.
Qed.

Lemma Stable_signal_abort fuel s reason w :
  Inv w → Stable w → Stable (signal_abort fuel s reason w).
Proof.
  revert s reason w. induction fuel as [|fuel IH]; intros s reason w HI HS; [done|].
  simpl. destruct (signals w !! s) as [sg|]; [|done].
  destruct (sig_reason sg); [done|].
  set (w1 := set_signals _ w).
  assert (Inv w1) as HI1 by (by apply (Inv_same w)).
  assert (Stable w1) as HS1 by (by apply (Stable_same w)).
  clearbody w1. revert w1 HI1 HS1.
  induction (sig_listeners sg) as [|l ls IHl]; intros w1 HI1 HS1; [done|].
  simpl. apply IHl; destruct l;
    auto using Inv_abort_request, Inv_signal_abort, Stable_abort_request.
Qed.

Lemma evict_all_other M victims w :
  (∀ v x, v ∈ victims → x ∈ held w → lock_name x = M → lock_id x ≠ lock_id v) →
  holders M (fold_left (λ w l, evict_lock l w) victims w) = holders M w.
Proof.
  revert w. induction victims as [|v victims IH]; intros w Hv; [done|].
  simpl. rewrite IH.
  - unfold holders, evict_lock. rewrite held_reject_released. wsimpl.
    apply filter_filter_imp. intros x Hx Hn. apply (Hv v); [left|done..].
  - intros v' x Hv' Hx. unfold evict_lock in Hx.
    rewrite held_reject_released in Hx. wsimpl.
    apply list_elem_of_filter in Hx as [_ Hx]. apply Hv; [by right|done].
Qed.

Lemma Stable_manager_request rid name opt w :
  Inv w → Stable w → (∀ r, r ∈ queue w → rq_id r ≠ rid) →
  Stable (manager_request rid name opt w).
Proof.
  intros HI HS Hq. unfold manager_request.
  assert (∀ err, Stable (reject_released rid err w)) as Hrej.
  { intros err. apply (Stable_same w);
      [apply held_reject_released|apply queue_reject_released|done]. }
  destruct (starts_with_hyphen name); [done|].
  destruct (_ && _); [done|]. destruct (_ && _); [done|].
  destruct (_ && _); [done|]. destruct (aborted_reason _ _); [done|]. clear Hrej.
  set (w1 := match opt_signal opt with
             | Some s0 => addEventListener s0 (HostAbort rid) w
             | None => w
             end).
  assert (held w1 = held w ∧ queue w1 = queue w) as [Hh1 Hq1]
    by (unfold w1; by destruct (opt_signal opt)).
  assert (Stable w1) as HS1 by (by apply (Stable_same w)).
  clearbody w1.
  set (r := mkRequest rid name (default exclusive (opt_mode opt))).
  destruct (evict_all_frame (filter (λ l, lock_name l = name) (held w1)) w1)
    as (Hqe & _ & _). fold (evict name w1) in Hqe.
  destruct (default false (opt_steal opt)).
  - apply (Stable_process _ w1); [done| |].
    + intros M HM. split.
      * change (holders M (evict name w1) = holders M w1).
        apply evict_all_other. intros v x [Hn Hv]%list_elem_of_filter Hx Hx' E.
        rewrite Hh1 in Hv, Hx.
        rewrite (held_id_inj w v x HI Hv Hx E) in Hx'. congruence.
      * wsimpl. unfold waiters. rewrite filter_cons_False by (simpl; congruence).
        by rewrite Hqe.
    + wsimpl. rewrite Hqe, Hq1, fmap_cons. apply NoDup_cons. split; [|apply HI].
      intros (r' & E & Hr')%list_elem_of_fmap. by apply (Hq r').
  - destruct (_ && _).
    + apply (Stable_same w1); [apply on_grant_frame..|done].
    + apply (Stable_process _ w1); [done| |].
      * intros M HM. split; [done|]. wsimpl. unfold waiters.
        rewrite filter_app, filter_cons_False, filter_nil, app_nil_r; [done|].
        simpl. congruence.
      * wsimpl. rewrite Hq1, fmap_app. apply NoDup_app. split; [apply HI|].
        split; [|apply NoDup_singleton].
        intros x (r' & E & Hr')%list_elem_of_fmap Hx%list_elem_of_singleton.
        apply (Hq r' Hr'). by rewrite <- E.
Qed.

Lemma Stable_request name opt callback w :
  Inv w → Stable w → Stable (snd (Locks.request name opt callback w)).
Proof.
  intros HI HS.
  destruct (Locks.delay_accepted opt) eqn:Hok;
    [|rewrite request_throws by done; by apply (Stable_same w)].
  destruct (request_unfold name opt callback w Hok)
    as (w1 & signal & -> & Hh & Hq & Hs & Hm & Hc).
  apply Stable_manager_request.
  - apply (Inv_same (set_sessions
                       (λ l, l ++ [mkSession name callback Pending NotInvoked Pending])
                       w)); try done.
    by apply Inv_new_session.
  - by apply (Stable_same w).
  - rewrite Hq. intros r Hr E. destruct (inv_queue w HI r Hr) as (s & Hs' & _).
    apply lookup_lt_Some in Hs'. lia.
Qed.

Lemma Stable_step e w : Inv w → Stable w → Stable (step e w).
Proof.
  intros HI HS. destruct e as [name opt cb|lock|rid outcome| |s reason|s|rid]; simpl;
    [..|by apply Stable_resumes].
  - destruct (signal_exists _ _); [by apply Stable_request|done].
  - unfold Locks.release. destruct (weakmap_get _ _); [|done].
    by apply Stable_done.
  - by apply Stable_callback_settles.
  - by apply (Stable_same w).
  - unfold controller_abort. destruct (signals w !! s) as [sg|]; [|done].
    destruct (sig_kind sg); try done. by apply Stable_signal_abort.
  - unfold timer_fires. destruct (signals w !! s) as [sg|]; [|done].
    destruct (sig_kind sg); try done. by apply Stable_signal_abort.
Qed.

Lemma reachable_Stable w : reachable w → Stable w.
Proof.
  induction 1 as [|e w Hw IH]; [by intros name r|].
  apply Stable_step; [by apply reachable_Inv|done].
Qed.

Lemma scan_blocked_first name q w :
  (∀ r, head (waiters name q) = Some r →
        conflicts name (rq_mode r) (held w) = true) →
  scan name q w = w.
Proof.
  induction q as [|r q IH]; intros Hb; [done|]. simpl.
  unfold waiters in Hb. rewrite filter_cons in Hb.
  destruct (String.eqb_spec (rq_name r) name) as [E|E].
  - rewrite decide_True in Hb by done. by rewrite (Hb r).
  - rewrite decide_False in Hb by done. by apply IH.
Qed.

Lemma conflicts_true name mode (h : list Lock) :
  conflicts name mode h = true →
  ∃ l, l ∈ h ∧ lock_name l = name ∧ (mode = shared → lock_mode l = exclusive).
Proof.
  unfold conflicts. intros (l & Hl & Hc)%existsb_exists.
  apply andb_true_iff in Hc as [Hn Hm]. exists l.
  split; [by apply list_elem_of_In|]. split; [by apply String.eqb_eq|].
  intros ->. by destruct (lock_mode l).
Qed.

Lemma waiters_head name (q : list Request) r :
  r ∈ q → rq_name r = name → ∃ r0, head (waiters name q) = Some r0.
Proof.
  intros Hr Hn.
  assert (r ∈ waiters name q) as Hin by (by apply list_elem_of_filter).
  destruct (waiters name q) as [|r0 ?]; [by apply elem_of_nil in Hin|by exists r0].
Qed.

Lemma waiter_cause w r :
  reachable w → r ∈ queue w →
  ∃ r0 l, head (waiters (rq_name r) (queue w)) = Some r0 ∧
          l ∈ held w ∧ lock_name l = rq_name r ∧
          (rq_mode r0 = shared → lock_mode l = exclusive).
Proof.
  intros HS%reachable_Stable Hr.
  destruct (waiters_head (rq_name r) (queue w) r Hr eq_refl) as [r0 Hr0].
  destruct (conflicts_true _ _ _ (HS _ _ Hr0)) as (l & Hl & Hn & Hm).
  by exists r0, l.
Qed.

(** X16.  In every reachable state nobody waits for a free lock: the name
    of a pending request is held, and the first pending request of that
    name is incompatible with a holder (a shared one waits for an exclusive
    holder only). *)
Theorem waiting_request_has_holder (w : World) (r : Request) :
  reachable w → r ∈ queue w →
  ∃ r0 l, head (waiters (rq_name r) (queue w)) = Some r0 ∧
          l ∈ held w ∧ lock_name l = rq_name r ∧
          (rq_mode r0 = shared → lock_mode l = exclusive).
Proof. apply waiter_cause. Qed.

Lemma waiting_request_has_holder_witness :
  let w := run [ask shared; ask exclusive; ask shared] init in
  ∃ r0 l, head (waiters "R" (queue w)) = Some r0 ∧
          l ∈ held w ∧ lock_name l = "R" ∧
          (rq_mode r0 = shared → lock_mode l = exclusive).
Proof.
  intros w. apply (waiting_request_has_holder w (mkRequest 2 "R" shared)).
  - apply reachable_run, reachable_init.
  - vm_compute. apply list_elem_of_further, list_elem_of_here.
Defined.

(** X17.  In every reachable state an object returned by [status] has its
    [held] flag set: a name is never pending without being held. *)
Theorem status_object_is_held (w : World) (arg : value) (st : Status) :
  reachable w → Locks.status arg w = Some st → st_held st = true.
Proof.
  intros Hw. unfold Locks.status, Locks.status_in, manager_query.
  cbn [snap_held snap_pending].
  destruct (Locks.innerName arg) as [n|]; [|done].
  destruct (String.eqb n EmptyString); [done|].
  set (hi := _ <$> held w). set (qi := _ <$> queue w).
  destruct (last_named n hi) as [i|] eqn:Eh; [by intros [= <-]|].
  destruct (last_named n qi) as [j|] eqn:Eq; [|done]. exfalso.
  assert (is_some (last_named n hi) = false) as Hno by (by rewrite Eh).
  rewrite last_named_is_some in Hno.
  assert (some_named n qi = true) as Hq by (by rewrite <- last_named_is_some, Eq).
  apply some_named_spec in Hq as (x & (r & -> & Hr)%list_elem_of_fmap & Hn).
  simpl in Hn.
  destruct (waiter_cause w r) as (_ & l & _ & Hl & Hln & _); [done..|].
  assert (some_named n hi = true) as Hyes; [|congruence].
  apply some_named_spec. eexists. split; [apply list_elem_of_fmap; by exists l|].
  simpl. congruence.
Qed.

Lemma status_object_is_held_witness :
  let w := run [ask exclusive; ask shared] init in
  ∃ st, Locks.status (VString "R") w = Some st ∧ st_held st = true.
Proof.
  intros w. eexists. split; [reflexivity|].
  apply (status_object_is_held w (VString "R")).
  - apply reachable_run, reachable_init.
  - reflexivity.
Defined.

(** ** Contention: waiting and hand-over *)

(** A request that is neither a steal nor an [ifAvailable] one and cannot
    be granted now joins the queue, and nothing else moves. *)
Lemma manager_request_waits rid name opt w :
  Stable w → starts_with_hyphen name = false →
  default false (opt_steal opt) = false →
  default false (opt_ifAvailable opt) = false →
  aborted_reason (opt_signal opt) w = None →
  grantable_now name (default exclusive (opt_mode opt)) w = false →
  manager_request rid name opt w =
  set_queue (λ q, q ++ [mkRequest rid name (default exclusive (opt_mode opt))])
    match opt_signal opt with
    | Some s => addEventListener s (HostAbort rid) w
    | None => w
    end.
Proof.
  intros HS Hname Hsteal Hif Hab Hgr. unfold manager_request.
  rewrite Hname, Hsteal, Hif, Hab. cbn [andb orb]. rewrite andb_false_r.
  set (w2 := match opt_signal opt with Some _ => _ | None => _ end).
  assert (held w2 = held w ∧ queue w2 = queue w) as [Hh2 Hq2]
    by (unfold w2; by destruct (opt_signal opt)).
  clearbody w2. unfold process_queue. apply scan_blocked_first. wsimpl.
  rewrite Hh2, Hq2. intros r0. unfold waiters. rewrite filter_app.
  destruct (filter _ (queue w)) as [|x xs] eqn:Hw.
  - rewrite filter_cons_True by done. simpl. intros [= <-]. simpl.
    unfold grantable_now in Hgr. apply andb_false_iff in Hgr as [Hex|Hc].
    + apply negb_false_iff, existsb_exists in Hex as (x & Hx & Hn).
      assert (x ∈ filter (λ r, rq_name r = name) (queue w)) as Hin.
      { apply list_elem_of_filter. split; [by apply String.eqb_eq|].
        by apply list_elem_of_In. }
      rewrite Hw in Hin. by apply elem_of_nil in Hin.
    + by apply negb_false_iff in Hc.
  - simpl. intros [= <-]. apply (HS name). unfold waiters. by rewrite Hw.
Qed.

(** X18.  In every reachable state, a request whose timeout
    [AbortSignal.timeout] accepts, that is neither a steal nor an
    [ifAvailable] one and that cannot be granted at once (its name has a
    waiter or an incompatible holder) is put at the end of the queue: its
    promise is pending, and the held locks, the handles registered for
    [release], the callbacks called and the console are as before.  This
    is also what happens to a request made right after the [release] of
    the lock it asks for, before the continuation has resumed. *)
Theorem busy_lock_makes_request_wait (name : string) (opt : Options)
    (callback : bool) (w : World) :
  reachable w → signal_exists (opt_signal opt) w = true →
  Locks.delay_accepted opt = true →
  starts_with_hyphen name = false →
  opt_steal opt ≠ Some true → opt_ifAvailable opt ≠ Some true →
  grantable_now name (default exclusive (opt_mode opt)) w = false →
  let rid := length (sessions w) in
  let w' := step (CallRequest name opt callback) w in
  future rid w' = Some Pending ∧
  queue w' = queue w ++ [mkRequest rid name (default exclusive (opt_mode opt))] ∧
  held w' = held w ∧ lockMap w' = lockMap w ∧ calls w' = calls w ∧
  console w' = console w.
Proof.
  intros HS%reachable_Stable Hex Hok Hname Hsteal Hif Hgr rid. subst rid.
  simpl. rewrite Hex.
  destruct (request_passes name opt callback w Hok)
    as (w1 & signal & -> & Hh & Hq & Hs & Hm & Hc & Hcon & Hab & _).
  rewrite manager_request_waits; cbn [opt_mode opt_steal opt_ifAvailable opt_signal];
    try done.
  - set (w2 := match signal with Some _ => _ | None => _ end).
    assert (held w2 = held w ∧ queue w2 = queue w ∧ sessions w2 = sessions w1 ∧
            lockMap w2 = lockMap w ∧ calls w2 = calls w ∧ console w2 = console w)
      as (Hh2 & Hq2 & Hs2 & Hm2 & Hc2 & Hcon2) by (unfold w2; by destruct signal).
    unfold future. wsimpl. rewrite Hs2, Hs, Hh2, Hq2, Hm2, Hc2, Hcon2.
    by rewrite list_lookup_middle.
  - by apply (Stable_same w).
  - by destruct (opt_steal opt) as [[|]|].
  - by destruct (opt_ifAvailable opt) as [[|]|].
  - unfold grantable_now in *. by rewrite Hh, Hq.
Qed.

Lemma busy_lock_makes_request_wait_witness :
  let w := run [ask exclusive; CallRelease (handle 0 exclusive)] init in
  let w' := step (ask shared) w in
  future 1 w' = Some Pending ∧
  queue w' = queue w ++ [mkRequest 1 "R" shared] ∧
  held w' = held w ∧ lockMap w' = lockMap w ∧ calls w' = calls w ∧
  console w' = console w.
Proof.
  intros w.
  apply (busy_lock_makes_request_wait "R"
           (mkOptions (Some shared) None None None None) false w);
    try reflexivity; try discriminate.
  apply reachable_run, reachable_init.
Defined.

(** X19.  [query] on a name that cannot be granted at once enqueues an
    exclusive request of its own: the promise it returns is pending, and
    the request is the last of the queue, where it keeps later requests of
    the name waiting. *)
Theorem query_waits_in_the_queue (name : string) (w : World) :
  reachable w → starts_with_hyphen name = false →
  grantable_now name exclusive w = false →
  let rid := fst (Locks.query name w) in
  let w' := snd (Locks.query name w) in
  answer rid w' = Some Pending ∧
  queue w' = queue w ++ [mkRequest rid name exclusive] ∧ held w' = held w ∧
  grantable_now name shared w' = false.
Proof.
  intros HS%reachable_Stable Hname Hgr. unfold Locks.query. simpl.
  rewrite manager_request_waits by done.
  unfold answer. simpl. rewrite list_lookup_middle by done.
  repeat split; try done. unfold grantable_now. simpl.
  rewrite existsb_app. simpl. rewrite String.eqb_refl. by rewrite orb_true_r.
Qed.

Lemma query_waits_in_the_queue_witness :
  let w := run [ask shared] init in
  let w' := snd (Locks.query "R" w) in
  answer 1 w' = Some Pending ∧
  queue w' = queue w ++ [mkRequest 1 "R" exclusive] ∧ held w' = held w ∧
  grantable_now "R" shared w' = false.
Proof.
  intros w. apply (query_waits_in_the_queue "R" w); try reflexivity.
  apply reachable_run, reachable_init.
Defined.

Lemma scan_first name q w r :
  head (waiters name q) = Some r →
  conflicts name (rq_mode r) (held w) = false →
  ∃ q', scan name q w = scan name q' (grant r w).
Proof.
  induction q as [|r0 q IH]; intros Hr Hc; [done|]. simpl.
  unfold waiters in Hr. rewrite filter_cons in Hr.
  destruct (String.eqb_spec (rq_name r0) name) as [E|E].
  - rewrite decide_True in Hr by done. injection Hr as ->. rewrite Hc. by exists q.
  - rewrite decide_False in Hr by done. by apply IH.
Qed.

(** X20.  Releasing the only holder of a name hands the lock to the first
    waiter of that name, though not inside [release]: when [release]
    returns the waiter still waits and the lock is still held.  The
    hand-over happens when the continuation of the released request
    resumes: then the promise of the waiting request is fulfilled with its
    handle, its lock is held, and the released lock is not. *)
Theorem release_hands_over (w : World) (l : Lock) (s : Session) (r : Request) :
  reachable w → l ∈ held w →
  sessions w !! lock_id l = Some s → s_callback s = false →
  holders (lock_name l) w = [l] →
  head (waiters (lock_name l) (queue w)) = Some r →
  let w1 := world_of (Locks.release (VLock l) w) in
  let w' := step (ContinuationResumes (lock_id l)) w1 in
  (future (rq_id r) w1 = Some Pending ∧ held w1 = held w ∧ queue w1 = queue w) ∧
  future (rq_id r) w' = Some (Fulfilled (VLock (lock_of r))) ∧
  lock_of r ∈ held w' ∧ l ∉ held w'.
Proof.
  intros Hw Hl Hs Hcb Hone Hr. pose proof (reachable_Inv w Hw) as HI.
  pose proof (handle_session w l s HI Hl Hs Hcb) as Hc.
  assert (r ∈ queue w) as Hrq.
  { apply head_Some_elem_of in Hr. unfold waiters in Hr.
    by apply list_elem_of_filter in Hr as [_ ?]. }
  destruct (inv_queue w HI r Hrq) as (sr & Hsr & Hcr & Hwr & _).
  assert (rq_id r ≠ lock_id l) as Hne by (intros E; rewrite E in Hsr; congruence).
  rewrite (release_wakes w l s) by done. simpl.
  split; [unfold future; simpl; rewrite Hsr; simpl; by rewrite Hwr|].
  rewrite (resumes_woken _ w s (Some l)) by done.
  set (w0 := done (lock_id l) w).
  assert (Inv w0) as HI0 by (by apply Inv_done).
  assert (∀ x, x ∈ held (settle (lock_id l) (Some l) (inl VUndefined)
                           (update_session (lock_id l) (set_cont Returned) w0)) →
               lock_id x ≠ lock_id l) as Hgone.
  { by destruct (settle_spec (lock_id l) (Some l) (inl VUndefined) w0 s HI0 Hs)
      as (_ & _ & Hh); [by right|]. }
  unfold settle in *.
  set (w1 := set_held _ (update_session _ _ w0)) in *.
  assert (conflicts (lock_name l) (rq_mode r) (held w1) = false) as Hfree.
  { apply conflicts_none. intros x [Hx Hin]%list_elem_of_filter Hn.
    assert (x ∈ holders (lock_name l) w) as Hh by (by apply list_elem_of_filter).
    rewrite Hone in Hh. apply list_elem_of_singleton in Hh. by subst. }
  unfold process_queue in *.
  destruct (scan_first (lock_name l) (queue w1) w1 r Hr Hfree) as [q' Hq'].
  rewrite Hq' in *.
  assert (sessions w1 !! rq_id r = Some sr) as Hsr1
    by (unfold w1; wsimpl; by rewrite list_lookup_alter_ne).
  destruct (grant_spec r w1 sr Hsr1) as (Hh' & _ & Hs' & _).
  split; [|split].
  - apply (later_future (grant r w1)).
    + apply evolves_later. etrans; [apply evolves_scan|apply evolves_resolve_released].
    + unfold future. rewrite Hs'. simpl. by rewrite Hwr.
    + done.
  - change (lock_of r ∈ held (scan (lock_name l) q' (grant r w1))).
    apply scan_held. rewrite Hh'. apply elem_of_app. right. apply list_elem_of_here.
  - intros Hin. by apply (Hgone l).
Qed.

Lemma release_hands_over_witness :
  let w := run [ask exclusive; ask shared; ask shared] init in
  let w1 := world_of (Locks.release (handle 0 exclusive) w) in
  let w' := step (ContinuationResumes 0) w1 in
  (future 1 w1 = Some Pending ∧ held w1 = held w ∧ queue w1 = queue w) ∧
  future 1 w' = Some (Fulfilled (handle 1 shared)) ∧
  mkLock 1 "R" shared ∈ held w' ∧ mkLock 0 "R" exclusive ∉ held w'.
Proof.
  intros w.
  apply (release_hands_over w (mkLock 0 "R" exclusive)
           (mkSession "R" false (Fulfilled (handle 0 exclusive))
              (AwaitDone (Some (mkLock 0 "R" exclusive))) Pending)
           (mkRequest 1 "R" shared)); try reflexivity.
  - apply reachable_run, reachable_init.
  - vm_compute. apply list_elem_of_here.
Defined.

Lemma held_ids_bound w l : Inv w → l ∈ held w → lock_id l < length (sessions w).
Proof.
  intros HI Hl. destruct (inv_held w HI l Hl) as (s & Hs & _).
  by apply lookup_lt_Some in Hs.
Qed.

Lemma filter_fresh_lock (h : list Lock) (rid : nat) :
  (∀ l, l ∈ h → lock_id l ≠ rid) → filter (λ l, lock_id l ≠ rid) h = h.
Proof.
  induction h as [|l h IH]; intros Hh; [done|].
  rewrite filter_cons_True by (apply Hh; left). f_equal.
  apply IH. intros l' Hl'. apply Hh. by right.
Qed.

(** X21.  [query] on a name that is free takes the lock itself: until its
    empty callback has returned, the query is the one holder of the name,
    in exclusive mode, and its promise is pending; once the callback has
    returned, the held locks and the queue are what they were before the
    call, and the promise is fulfilled with [undefined]. *)
Theorem query_on_free_name (name : string) (w : World) :
  reachable w → starts_with_hyphen name = false →
  grantable_now name exclusive w = true →
  let rid := fst (Locks.query name w) in
  let w1 := snd (Locks.query name w) in
  let w2 := query_returns rid w1 in
  held w1 = held w ++ [mkLock rid name exclusive] ∧ queue w1 = queue w ∧
  answer rid w1 = Some Pending ∧
  held w2 = held w ∧ queue w2 = queue w ∧
  answer rid w2 = Some (Fulfilled VUndefined).
Proof.
  intros HI%reachable_Inv Hname Hgr. unfold Locks.query. simpl.
  apply andb_true_iff in Hgr as [Hnw Hnc]. apply negb_true_iff in Hnw, Hnc.
  set (rid := length (sessions w)).
  set (s0 := mkSession name true Pending NotInvoked Pending).
  set (r := mkRequest rid name exclusive).
  set (w0 := set_sessions (λ l, l ++ [s0]) w).
  assert (manager_request rid name no_options w0
          = grant r (set_queue (λ q, q ++ [r]) w0)) as ->.
  { unfold manager_request. rewrite Hname. simpl. unfold process_queue. wsimpl.
    rewrite scan_skip by (by apply no_waiter_named).
    simpl. rewrite String.eqb_refl. wsimpl. by rewrite Hnc. }
  set (w3 := set_queue _ w0).
  assert (sessions w3 !! rq_id r = Some s0) as Hs3 by (by apply list_lookup_middle).
  destruct (grant_spec r w3 s0 Hs3) as (Hh1 & Hq1 & Hs1 & _).
  assert (queue (grant r w3) = queue w) as Hq1'.
  { rewrite Hq1. unfold w3. wsimpl. rewrite filter_app, filter_fresh.
    - rewrite filter_cons_False, filter_nil by (simpl; tauto). apply app_nil_r.
    - intros r' Hr'. apply Nat.lt_neq. by apply queue_ids_bound. }
  set (w1 := grant r w3) in *. clearbody w1.
  change (rq_id r) with rid in Hs1. simpl in Hs1.
  unfold query_returns, callback_settles, answer. rewrite Hs1. simpl.
  split; [done|]. split; [done|]. split; [done|].
  unfold settle, process_queue. wsimpl.
  set (w4 := set_held _ _).
  assert (held w4 = held w) as Hh4.
  { unfold w4. wsimpl. rewrite Hh1. unfold w3. wsimpl.
    rewrite filter_app, filter_fresh_lock.
    - rewrite filter_cons_False, filter_nil by (simpl; tauto). apply app_nil_r.
    - intros l Hl. apply Nat.lt_neq. by apply held_ids_bound. }
  assert (sessions w4 !! rid = Some (set_cont Returned
            (mkSession name true (Fulfilled (VLock (lock_of r)))
               (AwaitCallback (Some (lock_of r))) Pending))) as Hs4.
  { unfold w4. wsimpl. by rewrite list_lookup_alter_eq, Hs1. }
  assert (queue w4 = queue w) as Hq4 by exact Hq1'.
  clearbody w4.
  rewrite scan_blocked_first.
  - unfold resolve_released. wsimpl. by rewrite list_lookup_alter_eq, Hs4.
  - intros r0. rewrite Hq1'. unfold waiters.
    rewrite filter_none by (by apply no_waiter_named). done.
Qed.

Lemma query_on_free_name_witness :
  let w := run [CallRequest "a" no_options false] init in
  let w1 := snd (Locks.query "R" w) in
  let w2 := query_returns 1 w1 in
  held w1 = held w ++ [mkLock 1 "R" exclusive] ∧ queue w1 = queue w ∧
  answer 1 w1 = Some Pending ∧
  held w2 = held w ∧ queue w2 = queue w ∧
  answer 1 w2 = Some (Fulfilled VUndefined).
Proof.
  intros w. apply (query_on_free_name "R" w); try reflexivity.
  apply reachable_run, reachable_init.
Defined.

(** ** The books balance *)

Lemma Acc_same x w w' :
  queue w' = queue w → sessions w' = sessions w → calls w' = calls w →
  Accounted x w → Accounted x w'.
Proof.
  intros Hq Hs Hc [A1 A2 A3 A4 A5].
  constructor; rewrite ?Hq, ?Hs, ?Hc; assumption.
Qed.

Lemma Acc_settled rid x w :
  Accounted (Some rid) w →
  (∀ s, sessions w !! rid = Some s → waitLock s ≠ Pending) →
  Accounted x w.
Proof.
  intros [A1 A2 A3 A4 A5] Hs. constructor; try assumption.
  intros rid' s _ Hs' Hp. destruct (decide (rid' = rid)) as [->|Hne].
  - by destruct (Hs s Hs').
  - apply (A2 rid' s); [congruence|done..].
Qed.

(** Updating a session that is not queued, without fulfilling its promise. *)
Lemma Acc_update x rid f w :
  Accounted x w → (∀ r, r ∈ queue w → rq_id r ≠ rid) →
  (∀ s, s_name (f s) = s_name s ∧ s_callback (f s) = s_callback s ∧
        (waitLock (f s) = waitLock s ∨
         waitLock s = Pending ∧ ∃ e, waitLock (f s) = Rejected e)) →
  Accounted x (update_session rid f w).
Proof.
  intros [A1 A2 A3 A4 A5] Hq Hf. constructor; try assumption.
  - intros r Hr. destruct (A1 r Hr) as (s & Hs & ?). exists s. split; [|done].
    rewrite lookup_update_session, decide_False; [done|].
    intros E. by apply (Hq r).
  - intros rid' s' Hx. rewrite lookup_update_session. case_decide as E.
    + subst rid'. destruct (sessions w !! rid) as [s|] eqn:Hs; [|done].
      simpl. intros [= <-] Hp. apply (A2 rid s); [done..|].
      destruct (Hf s) as (_ & _ & [Hw|(Hw & e & He)]); congruence.
    + by apply A2.
  - intros rid' s' v. rewrite lookup_update_session. case_decide as E.
    + subst rid'. destruct (sessions w !! rid) as [s|] eqn:Hs; [|done].
      simpl. intros [= <-] Hv.
      destruct (Hf s) as (Hn & _ & [Hw|(Hw & e & He)]); [|congruence].
      rewrite Hn. apply (A3 rid s v Hs). congruence.
    + apply A3.
  - intros rid' v Hc. destruct (A4 rid' v Hc) as (s & Hs & Hcb & Hw).
    rewrite lookup_update_session. case_decide as E.
    + subst rid'. rewrite Hs. simpl. eexists. split; [done|].
      destruct (Hf s) as (_ & Hcb' & [Hw'|(Hw' & _)]); [|congruence].
      split; congruence.
    + by exists s.
Qed.

Lemma Acc_on_catch x rid err w :
  Accounted x w → (∀ r, r ∈ queue w → rq_id r ≠ rid) →
  Accounted x (on_catch rid err w).
Proof.
  intros HA Hq. unfold on_catch. destruct (sessions w !! rid) as [s|]; [|done].
  unfold rejectorLock. apply Acc_update.
  - destruct (get_name err) as [n|]; [|done].
    destruct (String.eqb n _); [|done]. by apply (Acc_same x w).
  - by destruct (get_name err) as [n|]; [destruct (String.eqb n _)|].
  - intros s0. simpl. split; [done|split; [done|]].
    destruct (waitLock s0); eauto.
Qed.

Lemma Acc_reject_released x rid err w :
  Accounted x w → (∀ r, r ∈ queue w → rq_id r ≠ rid) →
  Accounted x (reject_released rid err w).
Proof.
  intros HA Hq. unfold reject_released.
  destruct (sessions w !! rid) as [s|]; [|done]. destruct (released s); try done.
  apply Acc_on_catch; [|done]. apply Acc_update; [done..|].
  intros s0. simpl. auto.
Qed.

Lemma Acc_resolve_released x rid v w :
  Accounted x w → (∀ r, r ∈ queue w → rq_id r ≠ rid) →
  Accounted x (resolve_released rid v w).
Proof. intros HA Hq. apply Acc_update; [done..|]. intros s0. simpl. auto. Qed.

Lemma reject_released_settles rid err w s s' :
  sessions w !! rid = Some s → released s = Pending →
  sessions (reject_released rid err w) !! rid = Some s' → waitLock s' ≠ Pending.
Proof.
  intros Hs Hr. rewrite reject_released_sessions, decide_True, Hs by done.
  simpl. rewrite Hr. intros [= <-]. simpl. by destruct (waitLock s).
Qed.

Lemma Acc_grant x r w : Accounted x w → r ∈ queue w → Accounted x (grant r w).
Proof.
  intros [A1 A2 A3 A4 A5] Hr. destruct (A1 r Hr) as (s & Hs & Hw & Hrel & Hn).
  destruct (grant_spec r w s Hs) as (Hh & Hq & Hsr & Hso & Hcl & Hlm).
  rewrite Hw in Hsr. cbn [resolve] in Hsr.
  assert (∀ v, (rq_id r, v) ∉ calls w) as Hfresh.
  { intros v Hc. destruct (A4 _ _ Hc) as (s' & Hs' & _ & Hw'). congruence. }
  constructor.
  - intros r'. rewrite Hq. intros [Hne Hr']%list_elem_of_filter.
    rewrite Hso by done. by apply A1.
  - intros rid s' Hx Hs' Hp. destruct (decide (rid = rq_id r)) as [->|Hne].
    + rewrite Hsr in Hs'. by injection Hs' as <-.
    + rewrite Hso in Hs' by done.
      destruct (A2 rid s' Hx Hs' Hp) as (r' & Hr' & E). exists r'.
      split; [|done]. rewrite Hq. apply list_elem_of_filter. split; [congruence|done].
  - intros rid s' v Hs' Hv. destruct (decide (rid = rq_id r)) as [->|Hne].
    + rewrite Hsr in Hs'. injection Hs' as <-. simpl in *. injection Hv as <-.
      right. exists (rq_mode r). unfold lock_of. by rewrite Hn.
    + rewrite Hso in Hs' by done. by apply (A3 rid s').
  - intros rid v. rewrite Hcl. destruct (s_callback s) eqn:Hcb.
    + intros [Hc|Hc%list_elem_of_singleton]%elem_of_app.
      * destruct (A4 rid v Hc) as (s' & Hs' & ? & ?). exists s'. split; [|done].
        rewrite Hso; [done|]. intros ->. by apply (Hfresh v).
      * injection Hc as -> ->. eexists. split; [exact Hsr|]. done.
    + intros Hc. destruct (A4 rid v Hc) as (s' & Hs' & ? & ?). exists s'.
      split; [|done]. rewrite Hso; [done|]. intros ->. by apply (Hfresh v).
  - rewrite Hcl. destruct (s_callback s); [|done]. rewrite fmap_app.
    apply NoDup_app. split; [done|]. split; [|apply NoDup_singleton].
    intros k Hk ->%list_elem_of_singleton.
    apply list_elem_of_fmap in Hk as ([k v] & E & Hc). simpl in E. subst.
    by apply (Hfresh v).
Qed.

Lemma Acc_on_grant_null x rid w s :
  Accounted (Some rid) w → sessions w !! rid = Some s → waitLock s = Pending →
  (∀ r, r ∈ queue w → rq_id r ≠ rid) →
  Accounted x (on_grant rid None w).
Proof.
  intros [A1 A2 A3 A4 A5] Hs Hw Hnq.
  destruct (on_grant_spec rid None w s Hs) as (Hh & Hq & Hsr & Hso & Hcl & Hlm).
  rewrite Hw in Hsr. cbn [resolve lock_value] in Hsr, Hcl.
  assert (∀ v, (rid, v) ∉ calls w) as Hfresh.
  { intros v Hc. destruct (A4 _ _ Hc) as (s' & Hs' & _ & Hw'). congruence. }
  constructor.
  - intros r'. rewrite Hq. intros Hr'. rewrite Hso by (by apply Hnq). by apply A1.
  - intros rid' s' _ Hs' Hp. destruct (decide (rid' = rid)) as [->|Hne].
    + rewrite Hsr in Hs'. by injection Hs' as <-.
    + rewrite Hso in Hs' by done. rewrite Hq. apply (A2 rid' s'); [congruence|done..].
  - intros rid' s' v Hs' Hv. destruct (decide (rid' = rid)) as [->|Hne].
    + rewrite Hsr in Hs'. injection Hs' as <-. simpl in *. injection Hv as <-.
      by left.
    + rewrite Hso in Hs' by done. by apply (A3 rid' s').
  - intros rid' v. rewrite Hcl. destruct (s_callback s) eqn:Hcb.
    + intros [Hc|Hc%list_elem_of_singleton]%elem_of_app.
      * destruct (A4 rid' v Hc) as (s' & Hs' & ? & ?). exists s'. split; [|done].
        rewrite Hso; [done|]. intros ->. by apply (Hfresh v).
      * injection Hc as -> ->. eexists. split; [exact Hsr|]. done.
    + intros Hc. destruct (A4 rid' v Hc) as (s' & Hs' & ? & ?). exists s'.
      split; [|done]. rewrite Hso; [done|]. intros ->. by apply (Hfresh v).
  - rewrite Hcl. destruct (s_callback s); [|done]. rewrite fmap_app.
    apply NoDup_app. split; [done|]. split; [|apply NoDup_singleton].
    intros k Hk ->%list_elem_of_singleton.
    apply list_elem_of_fmap in Hk as ([k v] & E & Hc). simpl in E. subst.
    by apply (Hfresh v).
Qed.

Lemma Acc_scan x name q w :
  Accounted x w → NoDup (rq_id <$> q) → (∀ r, r ∈ q → r ∈ queue w) →
  Accounted x (scan name q w).
Proof.
  revert w. induction q as [|r q IH]; intros w HA Hnd Hq; [done|].
  apply NoDup_cons in Hnd as [Hr Hnd]. simpl.
  assert (∀ r', r' ∈ q → r' ∈ queue w) as Hq'.
  { intros r' Hr'. apply Hq. by right. }
  destruct (String.eqb _ _); [|by apply IH].
  destruct (conflicts _ _ _); [done|].
  apply IH; [|done|].
  - apply Acc_grant; [done|]. apply Hq. by left.
  - intros r' Hr'. rewrite queue_grant. apply list_elem_of_filter.
    split; [|by apply Hq']. intros E. apply Hr. rewrite <- E.
    by apply list_elem_of_fmap_2.
Qed.

Lemma Acc_settle x rid lock outcome w s :
  Inv w → Accounted x w → sessions w !! rid = Some s →
  cont s = AwaitCallback lock ∨ cont s = AwaitDone lock →
  Accounted x (settle rid lock outcome (update_session rid (set_cont Returned) w)).
Proof.
  intros HI HA Hs Hc.
  assert (∀ r, r ∈ queue w → rq_id r ≠ rid) as Hq.
  { intros r Hr E. destruct (inv_queue w HI r Hr) as (s' & Hs' & ? & _).
    destruct Hc; congruence. }
  unfold settle.
  set (w1 := update_session rid (set_cont Returned) w).
  assert (Accounted x w1) as HA1.
  { apply Acc_update; [done..|]. intros s0. simpl. auto. }
  set (w2 := match lock with Some _ => _ | None => _ end).
  assert (Accounted x w2 ∧ ∀ r, r ∈ queue w2 → r ∈ queue w) as [HA2 Hq2].
  { unfold w2. destruct lock as [l|]; [|done]. split.
    - apply Acc_scan; [by apply (Acc_same x w1)|apply HI|done].
    - by intros r Hr%scan_queue. }
  clearbody w2.
  destruct outcome; [apply Acc_resolve_released|apply Acc_reject_released];
    try done; intros r Hr%Hq2; by apply Hq.
Qed.

Lemma Acc_done x rid w : Inv w → Accounted x w → Accounted x (done rid w).
Proof. intros _. by apply Acc_same. Qed.

Lemma Acc_resumes x rid w : Inv w → Accounted x w → Accounted x (resumes rid w).
Proof.
  intros HI HA. unfold resumes. destruct (sessions w !! rid) as [s|] eqn:Hs; [|done].
  destruct (cont s) eqn:Hc; try done. case_bool_decide; [|done].
  eapply Acc_settle; eauto.
Qed.

Lemma Acc_callback_settles x rid outcome w :
  Inv w → Accounted x w → Accounted x (callback_settles rid outcome w).
Proof.
  intros HI HA. unfold callback_settles.
  destruct (sessions w !! rid) as [s|] eqn:Hs; [|done].
  destruct (cont s) eqn:Hc; try done. eapply Acc_settle; eauto.
Qed.

Lemma Acc_evict_all x victims w :
  Accounted x w → (∀ l r, l ∈ victims → r ∈ queue w → rq_id r ≠ lock_id l) →
  Accounted x (fold_left (λ w l, evict_lock l w) victims w).
Proof.
  revert w. induction victims as [|l victims IH]; intros w HA Hv; [done|].
  simpl. apply IH.
  - unfold evict_lock. apply Acc_reject_released; [by apply (Acc_same x w)|].
    intros r Hr. apply (Hv l r); [left|done].
  - intros l' r Hl' Hr. destruct (evict_lock_frame l w) as (Hq & _).
    rewrite Hq in Hr. apply Hv; [by right|done].
Qed.

Lemma Acc_abort_request rid reason w :
  Inv w → Accounted None w → Accounted None (abort_request rid reason w).
Proof.
  intros HI HA. unfold abort_request.
  destruct (List.find _ _) as [r|] eqn:Hf; [|done].
  apply find_some in Hf as [Hr Hid]. apply list_elem_of_In in Hr.
  apply Nat.eqb_eq in Hid.
  destruct (acc_queue _ _ HA r Hr) as (s & Hs & _ & Hrel & _). rewrite Hid in Hs.
  set (w1 := set_queue (filter (λ r, rq_id r ≠ rid)) w).
  assert (Accounted (Some rid) w1) as HA1.
  { destruct HA as [A1 A2 A3 A4 A5]. constructor; try assumption; unfold w1; wsimpl.
    - intros r' [_ Hr']%list_elem_of_filter. by apply A1.
    - intros rid' s' Hx Hs' Hp. destruct (A2 rid' s') as (r' & Hr' & E); try done.
      exists r'. split; [|done]. apply list_elem_of_filter. split; [|done].
      congruence. }
  set (w2 := process_queue (rq_name r) w1).
  assert (Accounted (Some rid) w2) as HA2.
  { apply Acc_scan; [done| |done]. unfold w1. wsimpl. apply NoDup_fmap_filter, HI. }
  assert (∀ r', r' ∈ queue w2 → rq_id r' ≠ rid) as Hq2.
  { intros r' Hr'%scan_queue. unfold w1 in Hr'. wsimpl.
    by apply list_elem_of_filter in Hr' as [? _]. }
  assert (sessions w2 !! rid = Some s) as Hs2.
  { unfold w2, process_queue.
    destruct (scan_other (rq_name r) (queue w1) w1 rid) as [-> _]; [|done].
    unfold w1. wsimpl. by intros x [? _]%list_elem_of_filter. }
  clearbody w2. apply (Acc_settled rid).
  - by apply Acc_reject_released.
  - intros s'. by apply reject_released_settles with s.
Qed.

Lemma Acc_signal_abort fuel s reason w :
  Inv w → Accounted None w → Accounted None (signal_abort fuel s reason w).
Proof.
  revert s reason w. induction fuel as [|fuel IH]; intros s reason w HI HA; [done|].
  simpl. destruct (signals w !! s) as [sg|]; [|done].
  destruct (sig_reason sg); [done|].
  set (w1 := set_signals _ w).
  assert (Inv w1) as HI1 by (by apply (Inv_same w)).
  assert (Accounted None w1) as HA1 by (by apply (Acc_same None w)).
  clearbody w1. revert w1 HI1 HA1.
  induction (sig_listeners sg) as [|l ls IHl]; intros w1 HI1 HA1; [done|].
  simpl. apply IHl; destruct l;
    auto using Inv_abort_request, Inv_signal_abort, Acc_abort_request.
Qed.

Lemma Acc_enqueue rid name mode q' w s :
  Accounted (Some rid) w → sessions w !! rid = Some s → s_name s = name →
  waitLock s = Pending → released s = Pending →
  (∀ x, x ∈ q' ↔ x = mkRequest rid name mode ∨ x ∈ queue w) →
  Accounted None (set_queue (λ _, q') w).
Proof.
  intros [A1 A2 A3 A4 A5] Hs Hn Hw Hrel Hq. constructor; try assumption; wsimpl.
  - intros x [->|Hx]%Hq; [by exists s|by apply A1].
  - intros rid' s' _ Hs' Hp. destruct (decide (rid' = rid)) as [->|Hne].
    + eexists. split; [apply Hq; by left|done].
    + destruct (A2 rid' s') as (r' & Hr' & E); try done; [congruence|].
      exists r'. split; [|done]. apply Hq. by right.
Qed.

Lemma Acc_manager_request rid name opt w s :
  Inv w → Accounted (Some rid) w → sessions w !! rid = Some s →
  s_name s = name → cont s = NotInvoked → waitLock s = Pending →
  released s = Pending → (∀ r, r ∈ queue w → rq_id r ≠ rid) →
  Accounted None (manager_request rid name opt w).
Proof.
  intros HI HA Hs Hn Hc Hw Hr Hq. unfold manager_request.
  assert (∀ err, Accounted None (reject_released rid err w)) as Hrej.
  { intros err. apply (Acc_settled rid); [by apply Acc_reject_released|].
    intros s'. by apply reject_released_settles with s. }
  destruct (starts_with_hyphen name); [done|].
  destruct (_ && _); [done|]. destruct (_ && _); [done|].
  destruct (_ && _); [done|]. destruct (aborted_reason _ _); [done|]. clear Hrej.
  set (w1 := match opt_signal opt with
             | Some s0 => addEventListener s0 (HostAbort rid) w
             | None => w
             end).
  assert (held w1 = held w ∧ queue w1 = queue w ∧ sessions w1 = sessions w ∧
          lockMap w1 = lockMap w ∧ calls w1 = calls w) as (Hh1 & Hq1 & Hs1 & Hm1 & Hc1)
    by (unfold w1; by destruct (opt_signal opt)).
  assert (Inv w1) as HI1 by (by apply (Inv_same w)).
  assert (Accounted (Some rid) w1) as HA1 by (by apply (Acc_same _ w)).
  clearbody w1. rewrite <- Hs1 in Hs. rewrite <- Hq1 in Hq.
  clear Hh1 Hq1 Hs1 Hm1 Hc1 HA HI.
  set (r := mkRequest rid name (default exclusive (opt_mode opt))).
  destruct (default false (opt_steal opt)).
  - set (w2 := evict name w1).
    destruct (evict_all_frame (filter (λ l, lock_name l = name) (held w1)) w1)
      as (Hq2 & _ & Hs2).
    fold (evict name w1) in Hq2, Hs2. fold w2 in Hq2, Hs2.
    assert (Accounted (Some rid) w2) as HA2.
    { apply Acc_evict_all; [done|].
      intros l r' [_ Hl]%list_elem_of_filter Hr'. by apply (held_not_queued w1). }
    assert (Inv w2) as HI2 by (by apply Inv_evict).
    apply Acc_scan.
    + apply (Acc_enqueue rid name (default exclusive (opt_mode opt)) _ w2 s);
        try done.
      * rewrite Hs2; [done|]. intros l [_ Hl]%list_elem_of_filter E.
        destruct (inv_held w1 HI1 l Hl) as (s' & Hs' & Hrun).
        rewrite E, Hs in Hs'. injection Hs' as <-.
        destruct Hrun as [Hrun|Hrun]; congruence.
      * intros x. by rewrite elem_of_cons.
    + wsimpl. rewrite fmap_cons. apply NoDup_cons. split; [|apply HI2].
      rewrite Hq2. intros (r' & E & Hr')%list_elem_of_fmap. by apply (Hq r').
    + done.
  - destruct (_ && _).
    + by apply (Acc_on_grant_null _ rid w1 s).
    + apply Acc_scan.
      * apply (Acc_enqueue rid name (default exclusive (opt_mode opt)) _ w1 s);
          try done.
        intros x. rewrite elem_of_app, list_elem_of_singleton. tauto.
      * wsimpl. rewrite fmap_app. apply NoDup_app. split; [apply HI1|].
        split; [|apply NoDup_singleton].
        intros x (r' & E & Hr')%list_elem_of_fmap Hx%list_elem_of_singleton.
        apply (Hq r' Hr'). by rewrite <- E.
      * done.
Qed.

Lemma Acc_new_session s0 w :
  waitLock s0 = Pending → Accounted None w →
  Accounted (Some (length (sessions w))) (set_sessions (λ l, l ++ [s0]) w).
Proof.
  intros Hw0 [A1 A2 A3 A4 A5].
  assert (∀ rid s, (sessions w ++ [s0]) !! rid = Some s →
            sessions w !! rid = Some s ∨ rid = length (sessions w) ∧ s = s0) as Hold.
  { intros rid s [?|[Hge H]]%lookup_app_Some; [by left|right].
    destruct (rid - length (sessions w)) as [|k] eqn:Ek; [|done].
    simpl in H. injection H as <-. split; [lia|done]. }
  constructor; try assumption; wsimpl.
  - intros r Hr. destruct (A1 r Hr) as (s & Hs & ?). exists s.
    split; [|done]. by apply lookup_app_l_Some.
  - intros rid s Hx [Hs|[-> _]]%Hold Hp; [by apply (A2 rid s)|done].
  - intros rid s v [Hs|[-> ->]]%Hold; [by apply A3|congruence].
  - intros rid v Hc. destruct (A4 rid v Hc) as (s & Hs & ?). exists s.
    split; [|done]. by apply lookup_app_l_Some.
Qed.

Lemma Acc_request name opt callback w :
  Inv w → Accounted None w →
  Accounted None (snd (Locks.request name opt callback w)).
Proof.
  intros HI HA.
  assert (∀ r, r ∈ queue w → rq_id r ≠ length (sessions w)) as Hfresh.
  { intros r Hr E. destruct (inv_queue w HI r Hr) as (s & Hs' & _).
    apply lookup_lt_Some in Hs'. lia. }
  destruct (Locks.delay_accepted opt) eqn:Hok.
  2:{ rewrite request_throws by done. apply (Acc_settled (length (sessions w))).
      - apply Acc_update; [by apply Acc_new_session|done|].
        intros s. simpl. split; [done|split; [done|]].
        destruct (waitLock s); eauto.
      - intros s. rewrite lookup_update_session, decide_True by done. wsimpl.
        rewrite list_lookup_middle by done. by intros [= <-]. }
  destruct (request_unfold name opt callback w Hok)
    as (w1 & signal & -> & Hh & Hq & Hs & Hm & Hc).
  set (s0 := mkSession name callback Pending NotInvoked Pending) in *.
  assert (Inv w1) as HI1.
  { apply (Inv_same (set_sessions (λ l, l ++ [s0]) w)); try done.
    by apply Inv_new_session. }
  apply (Acc_manager_request _ _ _ _ s0); try done.
  - apply (Acc_same _ (set_sessions (λ l, l ++ [s0]) w)); try done.
    by apply Acc_new_session.
  - rewrite Hs. by apply list_lookup_middle.
  - rewrite Hq. intros r Hr E.
    destruct (inv_queue w HI r Hr) as (s & Hs' & _).
    apply lookup_lt_Some in Hs'. lia.
Qed.

Lemma Acc_step e w : Inv w → Accounted None w → Accounted None (step e w).
Proof.
  intros HI HA. destruct e as [name opt cb|lock|rid outcome| |s reason|s|rid]; simpl;
    [..|by apply Acc_resumes].
  - destruct (signal_exists _ _); [by apply Acc_request|done].
  - unfold Locks.release. destruct (weakmap_get _ _); [|done]. by apply Acc_done.
  - by apply Acc_callback_settles.
  - by apply (Acc_same _ w).
  - unfold controller_abort. destruct (signals w !! s) as [sg|]; [|done].
    destruct (sig_kind sg); try done. by apply Acc_signal_abort.
  - unfold timer_fires. destruct (signals w !! s) as [sg|]; [|done].
    destruct (sig_kind sg); try done. by apply Acc_signal_abort.
Qed.

Lemma reachable_Accounted w : reachable w → Accounted None w.
Proof.
  induction 1 as [|e w Hw IH].
  - constructor; simpl; try done; try apply NoDup_nil_2.
    + intros r Hr. by apply elem_of_nil in Hr.
    + intros rid v Hc. by apply elem_of_nil in Hc.
  - apply Acc_step; [by apply reachable_Inv|done].
Qed.

(** X22.  In every reachable state the promise of a request is pending
    exactly while the request is in the queue of the lock manager. *)
Theorem promise_pending_iff_queued (w : World) (rid : nat) :
  reachable w →
  (future rid w = Some Pending ↔ ∃ r, r ∈ queue w ∧ rq_id r = rid).
Proof.
  intros Hw. pose proof (reachable_Accounted w Hw) as HA. unfold future. split.
  - destruct (sessions w !! rid) as [s|] eqn:Hs; [|done]. simpl. intros [= Hp].
    by apply (acc_pending _ _ HA rid s).
  - intros (r & Hr & <-). destruct (acc_queue _ _ HA r Hr) as (s & -> & Hp & _).
    simpl. by rewrite Hp.
Qed.

Lemma promise_pending_iff_queued_witness :
  let w := run [ask exclusive; ask shared] init in
  future 1 w = Some Pending ↔ ∃ r, r ∈ queue w ∧ rq_id r = 1.
Proof.
  intros w. apply (promise_pending_iff_queued w 1).
  apply reachable_run, reachable_init.
Defined.

(** X23.  In every reachable state, while the promise of a request is
    pending the lock it asked for is held by someone else, and [find]
    reports its name: no request is left waiting for a lock that is
    free. *)
Theorem pending_request_is_found (w : World) (rid : nat) (s : Session) :
  reachable w → sessions w !! rid = Some s → waitLock s = Pending →
  Locks.find (s_name s) w = VBool true ∧
  ∃ l, l ∈ held w ∧ lock_name l = s_name s ∧ lock_id l ≠ rid.
Proof.
  intros Hw Hs Hp. pose proof (reachable_Accounted w Hw) as HA.
  pose proof (reachable_Inv w Hw) as HI.
  destruct (acc_pending _ _ HA rid s) as (r & Hr & Hid); [done..|].
  destruct (acc_queue _ _ HA r Hr) as (s' & Hs' & _ & _ & Hn).
  rewrite Hid, Hs in Hs'. injection Hs' as <-.
  destruct (waiter_cause w r Hw Hr) as (_ & l & _ & Hl & Hln & _).
  split.
  - unfold Locks.find, Locks.find_in, manager_query. cbn [snap_held snap_pending].
    assert (some_named (s_name s)
              ((λ l, mkLockInfo (lock_name l) (lock_mode l) client) <$> held w)
            = true) as ->; [|done].
    apply some_named_spec. eexists. split; [apply list_elem_of_fmap; by exists l|].
    simpl. congruence.
  - exists l. split; [done|]. split; [congruence|].
    rewrite <- Hid. intros E. by apply (held_not_queued w l r).
Qed.

Lemma pending_request_is_found_witness :
  let w := run [ask shared; ask exclusive] init in
  Locks.find "R" w = VBool true ∧
  ∃ l, l ∈ held w ∧ lock_name l = "R" ∧ lock_id l ≠ 1.
Proof.
  intros w.
  apply (pending_request_is_found w 1
           (mkSession "R" false Pending NotInvoked Pending)); try reflexivity.
  apply reachable_run, reachable_init.
Defined.

(** X24.  In every reachable state, the promise of a request is fulfilled
    with [null] or with a handle of that very request, carrying the name
    the request was made with; it is never fulfilled with [undefined] or
    with the lock of another request. *)
Theorem promise_fulfilled_with_own_handle (w : World) (rid : nat) (s : Session)
    (v : value) :
  reachable w → sessions w !! rid = Some s → waitLock s = Fulfilled v →
  v = VNull ∨ ∃ mode, v = VLock (mkLock rid (s_name s) mode).
Proof. intros HA%reachable_Accounted. apply (acc_handle _ _ HA). Qed.

Lemma promise_fulfilled_with_own_handle_witness :
  let w := run [ask shared; ask exclusive] init in
  handle 0 shared = VNull ∨ ∃ mode, handle 0 shared = VLock (mkLock 0 "R" mode).
Proof.
  intros w.
  apply (promise_fulfilled_with_own_handle w 0
           (mkSession "R" false (Fulfilled (handle 0 shared))
              (AwaitDone (Some (mkLock 0 "R" shared))) Pending)); try reflexivity.
  apply reachable_run, reachable_init.
Defined.

(** X25.  In every reachable state, the callback of a request has been
    called at most once, and if it was called, then with the value its
    promise is fulfilled with, and the request was made with a callback. *)
Theorem callback_called_once_with_promised_value (w : World) :
  reachable w →
  NoDup (fst <$> calls w) ∧
  ∀ rid v, (rid, v) ∈ calls w →
    future rid w = Some (Fulfilled v) ∧
    ∃ s, sessions w !! rid = Some s ∧ s_callback s = true.
Proof.
  intros HA%reachable_Accounted. split; [apply HA|].
  intros rid v Hc. destruct (acc_calls _ _ HA rid v Hc) as (s & Hs & Hcb & Hw).
  unfold future. rewrite Hs. simpl. rewrite Hw. split; [done|]. by exists s.
Qed.

Lemma callback_called_once_with_promised_value_witness :
  let w := run [CallRequest "R" no_options true; CallRequest "R" no_options true;
                CallbackSettles 0 (inr (VError "boom"))] init in
  NoDup (fst <$> calls w) ∧
  ∀ rid v, (rid, v) ∈ calls w →
    future rid w = Some (Fulfilled v) ∧
    ∃ s, sessions w !! rid = Some s ∧ s_callback s = true.
Proof.
  intros w. apply (callback_called_once_with_promised_value w).
  apply reachable_run, reachable_init.
Defined.

(** ** Stale handles and refused requests *)

(** The continuation of a request whose lock is gone resumes. *)
Lemma resumes_lost rid w :
  Inv w → Stable w → (∀ h, h ∈ held w → lock_id h ≠ rid) →
  let w' := resumes rid w in
  held w' = held w ∧ queue w' = queue w ∧ ∀ rid', future rid' w' = future rid' w.
Proof.
  intros HI HS Hgone. unfold resumes.
  destruct (sessions w !! rid) as [s|] eqn:Hs; [|done].
  destruct (cont s) as [|lk|lk|] eqn:Hc; try done.
  case_bool_decide; [|done].
  unfold settle, resolve_released.
  set (w1 := update_session rid (set_cont Returned) w).
  assert (match lk with
          | Some l0 => process_queue (lock_name l0)
                         (set_held (filter (λ h, lock_id h ≠ lock_id l0)) w1)
          | None => w1
          end = w1) as ->.
  { destruct lk as [l0|]; [|done].
    destruct (inv_running w HI rid s l0 Hs) as [Hid0 _]; [by right|].
    assert (set_held (filter (λ h, lock_id h ≠ lock_id l0)) w1 = w1) as ->.
    { unfold w1, set_held, update_session, set_sessions. simpl. f_equal.
      apply filter_fresh_lock. intros h Hh. rewrite Hid0. by apply Hgone. }
    unfold process_queue. apply scan_blocked_first. intros r. apply (HS _ r). }
  unfold w1. wsimpl. split_and!; [done..|].
  intros rid'. unfold future. wsimpl. rewrite !list_lookup_alter.
  case_decide as E; [|done]. subst rid'. rewrite decide_True by done.
  by rewrite Hs.
Qed.

(** X26.  In every reachable state, [release] of a handle whose lock is
    not held any more (released before, or stolen) disturbs nobody: the
    held locks, the queue and every promise are as before, when [release]
    returns and also when the continuation of that request has resumed. *)
Theorem release_of_lost_lock_is_harmless (w : World) (l : Lock) :
  reachable w → (∀ h, h ∈ held w → lock_id h ≠ lock_id l) →
  let w' := world_of (Locks.release (VLock l) w) in
  let w'' := step (ContinuationResumes (lock_id l)) w' in
  (held w' = held w ∧ queue w' = queue w ∧ ∀ rid, future rid w' = future rid w) ∧
  (held w'' = held w ∧ queue w'' = queue w ∧
   ∀ rid, future rid w'' = future rid w).
Proof.
  intros Hw Hgone. pose proof (reachable_Inv w Hw) as HI.
  pose proof (reachable_Stable w Hw) as HS.
  unfold Locks.release. simpl.
  destruct (lockMap w !! lock_id l) as [rid|] eqn:Hm; simpl.
  - split; [done|].
    apply (resumes_lost (lock_id l) (done rid w)); [by apply Inv_done| |done].
    by apply Stable_done.
  - split; [done|]. by apply resumes_lost.
Qed.

Lemma release_of_lost_lock_is_harmless_witness :
  let w := run [ask exclusive; ask exclusive;
                CallRequest "R" (mkOptions None None (Some true) None None) false]
             init in
  let w' := world_of (Locks.release (handle 0 exclusive) w) in
  let w'' := step (ContinuationResumes 0) w' in
  (held w' = held w ∧ queue w' = queue w ∧ ∀ rid, future rid w' = future rid w) ∧
  (held w'' = held w ∧ queue w'' = queue w ∧
   ∀ rid, future rid w'' = future rid w).
Proof.
  intros w. apply (release_of_lost_lock_is_harmless w (mkLock 0 "R" exclusive)).
  - apply reachable_run, reachable_init.
  - intros h Hh. vm_compute in Hh.
    apply list_elem_of_singleton in Hh. by subst.
Defined.

(** The signal that [request] hands to the lock manager is there exactly
    when the caller gave one or a timeout signal was made. *)
Lemma request_passes_signal name opt callback w :
  Locks.delay_accepted opt = true →
  ∃ w1 signal,
    snd (Locks.request name opt callback w) =
      manager_request (length (sessions w)) name
        (mkOptions (opt_mode opt) (opt_ifAvailable opt) (opt_steal opt) signal
           (opt_timeout opt)) w1 ∧
    held w1 = held w ∧ queue w1 = queue w ∧
    sessions w1 = sessions w ++ [mkSession name callback Pending NotInvoked Pending] ∧
    calls w1 = calls w ∧ console w1 = console w ∧
    (is_Some signal ↔ is_Some (opt_signal opt) ∨ is_Some (Locks.timeoutSignal opt)).
Proof.
  intros Hok. unfold Locks.request. rewrite Hok. set (w0 := set_sessions _ w).
  destruct (Locks.timeoutSignal opt) as [ms|], (opt_signal opt) as [ext|];
    simpl; eexists _, _; (split; [reflexivity|]);
    (split_and!; [done..|]);
    first [ split; [intros _; first [by left; eexists|by right; eexists]
                   |intros _; by eexists]
          | by (split; [intros [? [=]]|intros [[? [=]]|[? [=]]]]) ].
Qed.

(** X27.  [request] hands the lock manager a signal of its own making
    whenever the caller gave a signal or the timeout is not switched off,
    and the lock manager refuses a signal together with [steal] or
    [ifAvailable].  So a request with [steal] and a caller signal, and a
    request with [ifAvailable] and a caller signal or a timeout other than
    0 (the default included), is rejected with a NotSupportedError in the
    call, whatever the state of the lock; the held locks, the queue, the
    callbacks called and the console are as before.  (The timeout is one
    that [AbortSignal.timeout] accepts; with another, [request] fails
    before it reaches the lock manager.) *)
Theorem unsupported_request_is_refused (name : string) (opt : Options)
    (callback : bool) (w : World) :
  signal_exists (opt_signal opt) w = true →
  Locks.delay_accepted opt = true →
  opt_steal opt = Some true ∧ is_Some (opt_signal opt) ∨
  opt_ifAvailable opt = Some true ∧
    (is_Some (opt_signal opt) ∨ is_Some (Locks.timeoutSignal opt)) →
  let rid := length (sessions w) in
  let w' := step (CallRequest name opt callback) w in
  future rid w' = Some (Rejected not_supported) ∧
  held w' = held w ∧ queue w' = queue w ∧ calls w' = calls w ∧
  console w' = console w.
Proof.
  intros Hex Hok Hbad rid. subst rid. simpl. rewrite Hex.
  destruct (request_passes_signal name opt callback w Hok)
    as (w1 & signal & -> & Hh & Hq & Hs & Hc & Hcon & Hsig).
  assert (manager_request (length (sessions w)) name
            (mkOptions (opt_mode opt) (opt_ifAvailable opt) (opt_steal opt) signal
               (opt_timeout opt)) w1
          = reject_released (length (sessions w)) not_supported w1) as ->.
  { unfold manager_request. cbn [opt_mode opt_ifAvailable opt_steal opt_signal].
    destruct (starts_with_hyphen name); [done|].
    destruct Hbad as [[-> Hsg]|[-> Hsg]].
    - simpl. destruct (default false (opt_ifAvailable opt)); [done|].
      destruct (negb _); [done|].
      rewrite bool_decide_true; [done|]. apply Hsig. by left.
    - destruct (_ && _); [done|]. destruct (_ && _); [done|].
      rewrite bool_decide_true by (by apply Hsig).
      simpl. by rewrite orb_true_r. }
  assert (sessions w1 !! length (sessions w) =
            Some (mkSession name callback Pending NotInvoked Pending)) as Hs1
    by (rewrite Hs; by apply list_lookup_middle).
  unfold future. rewrite reject_released_sessions, decide_True, Hs1 by done.
  rewrite held_reject_released, queue_reject_released.
  rewrite (proj2 (proj2 (reject_released_frame _ _ _))).
  split; [done|]. split; [done|]. split; [done|]. split; [done|].
  unfold reject_released. rewrite Hs1. simpl.
  erewrite console_on_catch by (wsimpl; by rewrite list_lookup_alter_eq, Hs1).
  simpl. by rewrite app_nil_r.
Qed.

Lemma unsupported_request_is_refused_witness :
  let w := run [NewController] init in
  let opt := mkOptions None None (Some true) (Some 0) None in
  let w' := step (CallRequest "R" opt false) w in
  future 0 w' = Some (Rejected not_supported) ∧
  held w' = held w ∧ queue w' = queue w ∧ calls w' = calls w ∧
  console w' = console w.
Proof.
  intros w opt.
  apply (unsupported_request_is_refused "R" opt false w); try reflexivity.
  left. split; [reflexivity|]. by exists 0.
Defined.

(** X28.  In every reachable state, when the callback of a request whose
    lock was stolen settles, by returning or by failing, nobody is
    disturbed: the held locks, the queue, every promise and the console
    are as before. *)
Theorem callback_after_steal_is_harmless (w : World) (rid : nat) (s : Session)
    (l : Lock) (outcome : value + value) :
  reachable w → sessions w !! rid = Some s → cont s = AwaitCallback (Some l) →
  l ∉ held w →
  let w' := step (CallbackSettles rid outcome) w in
  held w' = held w ∧ queue w' = queue w ∧ console w' = console w ∧
  ∀ rid', future rid' w' = future rid' w.
Proof.
  intros Hw Hs Hc Hgone. pose proof (reachable_Inv w Hw) as HI.
  pose proof (reachable_Stable w Hw) as HS.
  destruct (inv_running w HI rid s l Hs) as [Hid Hheld]; [by left|].
  assert (released s ≠ Pending) as Hrel by (intros E; by apply Hgone, Hheld).
  simpl. unfold callback_settles. rewrite Hs, Hc. unfold settle.
  set (w1 := update_session rid (set_cont Returned) w).
  assert (set_held (filter (λ h, lock_id h ≠ lock_id l)) w1 = w1) as ->.
  { unfold w1, set_held, update_session, set_sessions. simpl. f_equal.
    apply filter_fresh_lock. intros h Hh E. apply Hgone.
    destruct (inv_held w HI h Hh) as (s' & Hs' & Hrun).
    rewrite E, Hid, Hs in Hs'. injection Hs' as <-.
    destruct Hrun as [Hr|Hr]; [|congruence].
    rewrite Hc in Hr. by injection Hr as <-. }
  assert (process_queue (lock_name l) w1 = w1) as ->.
  { unfold process_queue. apply scan_blocked_first. intros r. apply (HS _ r). }
  assert (sessions w1 !! rid = Some (set_cont Returned s)) as Hs1.
  { unfold w1. by rewrite lookup_update_session, decide_True, Hs by done. }
  assert (∀ w2, held w2 = held w1 → queue w2 = queue w1 → console w2 = console w1 →
            (∀ rid', waitLock <$> sessions w2 !! rid' = waitLock <$> sessions w1 !! rid') →
            held w2 = held w ∧ queue w2 = queue w ∧ console w2 = console w ∧
            ∀ rid', future rid' w2 = future rid' w) as Hfin.
  { intros w2 -> -> -> Hf. split_and!; [done..|]. intros rid'. unfold future.
    rewrite Hf. unfold w1. rewrite lookup_update_session. case_decide as E; [|done].
    subst rid'. by rewrite Hs. }
  destruct outcome as [v|e]; apply Hfin; try done.
  - intros rid'. unfold resolve_released. rewrite lookup_update_session.
    case_decide as E; [|done]. subst rid'. by rewrite Hs1.
  - apply held_reject_released.
  - apply queue_reject_released.
  - unfold reject_released. rewrite Hs1. simpl. by destruct (released s).
  - intros rid'. unfold reject_released. rewrite Hs1. simpl.
    by destruct (released s).
Qed.

Lemma callback_after_steal_is_harmless_witness :
  let w := run [CallRequest "R" no_options true; ask exclusive;
                CallRequest "R" (mkOptions None None (Some true) None None) false]
             init in
  let w' := step (CallbackSettles 0 (inr (VError "boom"))) w in
  held w' = held w ∧ queue w' = queue w ∧ console w' = console w ∧
  ∀ rid', future rid' w' = future rid' w.
Proof.
  intros w.
  apply (callback_after_steal_is_harmless w 0
           (mkSession "R" true (Fulfilled (handle 0 exclusive))
              (AwaitCallback (Some (mkLock 0 "R" exclusive)))
              (Rejected (VDOMException "AbortError")))
           (mkLock 0 "R" exclusive)); try reflexivity.
  - apply reachable_run, reachable_init.
  - vm_compute. intros Hh. apply list_elem_of_singleton in Hh. discriminate.
Defined.
